(** * RunInSubst: a shallow embedding of RunInSubst.cpp

    RunInSubst locks a sentinel file in every source directory, substitutes
    the requested drive letters with [subst.exe], runs a child process and
    unmaps the drives again.  The program talks to Windows all the time, so
    the embedding is a small state-and-writer monad: the state is the table
    of subst nodes plus a logical clock, every call into the operating
    system asks an oracle indexed by that clock, and every call is recorded
    as an event.  Loops that the source may spin forever ([while (true)],
    [continue] without [i++]) take fuel. *)

From Stdlib Require Import ZArith List String Ascii Bool Lia.
From stdpp Require Import gmap sorting.
Import ListNotations.

Set Default Proof Using "Type".

(** ** Wide characters and strings

    A [TCHAR] is a 16-bit code unit, kept as a [Z]; a wide string is the
    list of its code units without the terminating zero. *)

Definition wchar_of_ascii (c : ascii) : Z := Z.of_N (N_of_ascii c).

(** [W "text"] is the wide literal [L"text"]. *)
Definition W (s : string) : list Z := List.map wchar_of_ascii (list_ascii_of_string s).

(** Conversion of an [int] to [wchar_t] (16 bits, unsigned). *)
Definition to_wchar (z : Z) : Z := (z mod 65536)%Z.

(** Conversion of a [DWORD] to [int] (32 bits, two's complement). *)
Definition to_int (z : Z) : Z := ((z + 2147483648) mod 4294967296 - 2147483648)%Z.

(** The character classification of the "C" locale, which is the one the
    program runs in (it never calls [setlocale]). *)
Definition isalpha (c : Z) : bool :=
  ((65 <=? c) && (c <=? 90) || (97 <=? c) && (c <=? 122))%Z.

Definition totupper (c : Z) : Z :=
  if ((97 <=? c) && (c <=? 122))%Z then (c - 32)%Z else c.

Definition totlower (c : Z) : Z :=
  if ((65 <=? c) && (c <=? 90))%Z then (c + 32)%Z else c.

Definition wcslen (s : list Z) : nat := length s.

(** The part of a buffer that a C function reads as a string: everything
    before the first zero. *)
Fixpoint c_str (buf : list Z) : list Z :=
  match buf with
  | [] => []
  | c :: rest => if (c =? 0)%Z then [] else c :: c_str rest
  end.

Fixpoint starts_with (needle hay : list Z) : bool :=
  match needle, hay with
  | [], _ => true
  | _ :: _, [] => false
  | a :: needle', b :: hay' => (a =? b)%Z && starts_with needle' hay'
  end.

(** [wcsstr hay needle]: offset of the first occurrence of [needle] in
    [hay], [None] for the null pointer. *)
Fixpoint wcsstr (hay needle : list Z) : option nat :=
  if starts_with needle hay then Some 0
  else match hay with
       | [] => None
       | _ :: hay' => option_map S (wcsstr hay' needle)
       end.

Fixpoint wstring_eqb (a b : list Z) : bool :=
  match a, b with
  | [], [] => true
  | x :: a', y :: b' => (x =? y)%Z && wstring_eqb a' b'
  | _, _ => false
  end.

(** [wcscmp a b == 0] *)
Definition wcscmp_is_zero (a b : list Z) : bool := wstring_eqb a b.

(** ** Constants of the source *)

Definition RUN_IN_SUBST_TIMEOUT : Z := 5000.
Definition NUMBER_DEFINABLE_SUBST : nat := 26.
Definition MIN_SUBST_LENGTH : nat := 3.
Definition SUBST_START_OFFSET : nat := 2.
Definition GET_PATH_TARGET_OFFSET : nat := 8.
Definition MAPPED_PATH_STRING : list Z := W "\??\".
Definition SUBST_FILE_NAME : list Z := W ".SubstLock".

(** Values of the Windows SDK headers. *)
Definition INVALID_HANDLE_VALUE : Z := (-1).
Definition INVALID_FILE_ATTRIBUTES : Z := 4294967295.
Definition FILE_ATTRIBUTE_DIRECTORY : Z := 16.
Definition ERROR_SHARING_VIOLATION : Z := 32.

Definition BACKSLASH : Z := 92.
Definition COLON : Z := 58.
Definition DQUOTE : Z := 34.
Definition SPACE : Z := 32.

(** ** Data model *)

(** [SUBST_NODE]: the two string members are nullable pointers. *)
Record SUBST_NODE := mkNode {
  szDriveLetter : Z;
  szSourceDirectory : option (list Z);
  szMappedPath : option (list Z);
  hLockFile : Z
}.

Definition set_source (n : SUBST_NODE) (src : list Z) : SUBST_NODE :=
  mkNode (szDriveLetter n) (Some src) (szMappedPath n) (hLockFile n).

Definition set_mapped (n : SUBST_NODE) (p : list Z) : SUBST_NODE :=
  mkNode (szDriveLetter n) (szSourceDirectory n) (Some p) (hLockFile n).

Definition set_lock (n : SUBST_NODE) (h : Z) : SUBST_NODE :=
  mkNode (szDriveLetter n) (szSourceDirectory n) (szMappedPath n) h.

(** The program state.  [pOrderedSubstList] is the array of 26 node
    pointers, a null pointer being an absent key; every node is owned by
    its array cell, so the cell index also serves as the node's address in
    the linked list [pSubstList].  [clock] counts the calls made into the
    operating system. *)
Record State := mkState {
  pOrderedSubstList : gmap nat SUBST_NODE;
  clock : nat
}.

(** What [subst.exe] without arguments does for [GetMappedPaths]: which of
    the Win32 calls around it succeed and what the successive [ReadFile]
    calls on its output pipe deliver. *)
Record EnumReply := mkEnumReply {
  CreatePipe_ok : bool;
  SetHandleInformation_ok : bool;
  CreateProcess_ok : bool;
  CloseHandle_ok : bool;
  ReadFile_results : list (bool * list Z)
}.

(** The environment: the build flavour, the behaviour of the CRT's invalid
    parameter handler, and the answers of the operating system, each as a
    function of the clock and of the arguments of the call.
    - [os_CreateFile] gives the handle and the value of [GetLastError];
    - [os_RunSubst] and [os_CreateProcess] give [None] when [CreateProcess]
      fails, [Some None] when [GetExitCodeProcess] fails, and the exit
      code otherwise;
    - [os_GetCurrentDirectory] gives [None] when the call returns 0; the
      value it returns otherwise is the number of characters it has
      delivered, so a delivered string has at least one. *)
Record Env := mkEnv {
  ndebug : bool;
  invalid_parameter_returns : bool;
  os_GetFileAttributes : nat -> list Z -> Z;
  os_CreateFile : nat -> list Z -> Z * Z;
  os_RunSubst : nat -> list Z -> option (option Z);
  os_Enumerate : nat -> EnumReply;
  os_GetCurrentDirectory : nat -> option (list Z);
  os_CreateProcess : nat -> list Z -> list Z -> option (option Z)
}.

(** Observable events.  Console and log output is recorded by its format
    string.  [EvThrow] is a C++ exception that nobody catches, [EvUndefined]
    an operation whose behaviour the language leaves undefined; the run
    stops at either. *)
Inductive Event :=
| EvPrint (format : string)
| EvGetFileAttributes (path : list Z) (attr : Z)
| EvCreateFile (path : list Z) (h : Z) (lastError : Z)
| EvSleep (ms : Z)
| EvSubst (cmd : list Z) (reply : option (option Z))
| EvEnumerate (reply : EnumReply)
| EvWriteFile (h : Z) (format : string)
| EvCloseHandle (h : Z)
| EvGetCurrentDirectory (reply : option (list Z))
| EvCreateProcess (cmd cwd : list Z) (reply : option (option Z))
| EvAssert (message : string)
| EvThrow (exception : string)
| EvUndefined (operation : string).

(** ** The monad

    A computation ends by falling through with a value ([Ok]), by a
    [return] statement of the enclosing C function ([Return]), by abnormal
    termination of the process ([Abort]: a failed [assert] in a debug
    build, the CRT's invalid parameter handler, an exception that is not
    caught, a null dereference or another operation with undefined
    behaviour, where the embedding stops and says nothing of what the
    program does next), or by running out of fuel ([Timeout]). *)
Inductive Outcome (A : Type) :=
| Ok (a : A)
| Return (code : Z)
| Abort
| Timeout.
Arguments Ok {A} a.
Arguments Return {A} code.
Arguments Abort {A}.
Arguments Timeout {A}.

Definition M (A : Type) : Type := State -> Outcome A * State * list Event.

Definition ret {A} (a : A) : M A := fun s => (Ok a, s, []).

Definition bind {A B} (m : M A) (f : A -> M B) : M B := fun s =>
  match m s with
  | (Ok a, s1, e1) => let '(o, s2, e2) := f a s1 in (o, s2, e1 ++ e2)
  | (Return c, s1, e1) => (Return c, s1, e1)
  | (Abort, s1, e1) => (Abort, s1, e1)
  | (Timeout, s1, e1) => (Timeout, s1, e1)
  end.

Declare Scope run_scope.
Delimit Scope run_scope with run.
Notation "x <- m ;; k" := (bind m (fun x => k))
  (at level 100, m at next level, right associativity) : run_scope.
Notation "m ;; k" := (bind m (fun _ => k))
  (at level 100, right associativity) : run_scope.
Open Scope run_scope.

Definition return_ {A} (code : Z) : M A := fun s => (Return code, s, []).
Definition abort {A} : M A := fun s => (Abort, s, []).
Definition timeout {A} : M A := fun s => (Timeout, s, []).

(** A call of a C function whose body is [m]: its [return] statements
    become the value of the call. *)
Definition call (m : M Z) : M Z := fun s =>
  match m s with
  | (Return c, s1, e1) => (Ok c, s1, e1)
  | r => r
  end.

Definition emit (e : Event) : M unit := fun s => (Ok tt, s, [e]).

(** [throw]: nothing in the program catches an exception, so it ends the
    process.  [undefined]: the run leaves defined behaviour. *)
Definition throw {A} (exception : string) : M A := fun s => (Abort, s, [EvThrow exception]).

Definition undefined {A} (operation : string) : M A :=
  fun s => (Abort, s, [EvUndefined operation]).

Definition tick : M nat := fun s =>
  (Ok (clock s), mkState (pOrderedSubstList s) (S (clock s)), []).

Definition get_node (i : nat) : M (option SUBST_NODE) := fun s =>
  (Ok (pOrderedSubstList s !! i), s, []).

Definition put_node (i : nat) (n : SUBST_NODE) : M unit := fun s =>
  (Ok tt, mkState (<[i := n]> (pOrderedSubstList s)) (clock s), []).

Definition outcome_of {A} (r : Outcome A * State * list Event) : Outcome A := fst (fst r).
Definition state_of {A} (r : Outcome A * State * list Event) : State := snd (fst r).
Definition events_of {A} (r : Outcome A * State * list Event) : list Event := snd r.

(** ** Output and operating system calls *)

Definition wprintf (format : string) : M unit := emit (EvPrint format).

(** [assert(cond && msg)]: compiled out under [NDEBUG]; otherwise a failed
    assertion ends the process.  The violation is recorded either way. *)
Definition assert (env : Env) (cond : bool) (message : string) : M unit :=
  if cond then ret tt
  else emit (EvAssert message) ;; if ndebug env then ret tt else abort.

(** [wcscpy_s(dest, numberOfElements, src)]: the copy needs room for the
    string and its terminator; otherwise the invalid parameter handler
    runs, and if it returns the destination is the empty string. *)
Definition wcscpy_s (env : Env) (numberOfElements : nat) (src : list Z) : M (list Z) :=
  if (wcslen src <? numberOfElements)%nat then ret src
  else if invalid_parameter_returns env then ret [] else abort.

Definition GetFileAttributes (env : Env) (path : list Z) : M Z :=
  t <- tick ;;
  let attr := os_GetFileAttributes env t path in
  emit (EvGetFileAttributes path attr) ;;
  ret attr.

Definition CreateFile (env : Env) (path : list Z) : M (Z * Z) :=
  t <- tick ;;
  let r := os_CreateFile env t path in
  emit (EvCreateFile path (fst r) (snd r)) ;;
  ret r.

Definition Sleep (ms : Z) : M unit := emit (EvSleep ms).

Definition CloseHandle (h : Z) : M unit := emit (EvCloseHandle h).

(** [LogToFile]: writes only through a valid lock handle. *)
Definition LogToFile (n : SUBST_NODE) (format : string) : M unit :=
  if (hLockFile n =? INVALID_HANDLE_VALUE)%Z then ret tt
  else emit (EvWriteFile (hLockFile n) format).

Definition get_table : M (gmap nat SUBST_NODE) := fun s => (Ok (pOrderedSubstList s), s, []).

(** A second look through a node pointer the code already holds. *)
Definition reload (i : nat) (n : SUBST_NODE) : M SUBST_NODE := fun s =>
  (Ok (default n (pOrderedSubstList s !! i)), s, []).

(** [for (int i = 0; i < NUMBER_DEFINABLE_SUBST; i++)] over a body that
    always reaches its [i++]. *)
Fixpoint for_each (idxs : list nat) (body : nat -> M unit) : M unit :=
  match idxs with
  | [] => ret tt
  | i :: rest => body i ;; for_each rest body
  end.

Definition slot_indices : list nat := seq 0 NUMBER_DEFINABLE_SUBST.

(** ** ParseSubstSourcesAndTargets *)

(** The outputs written through [ppSubstList] and [pExecutableToRunIndex],
    and the returned flag. *)
Record ParseResult := mkParseResult {
  shouldExit : bool;
  pSubstList : list nat;
  executableToRunIndex : Z
}.

(** The test that ends the run of mapping tokens. *)
Definition not_a_mapping (arg : list Z) : bool :=
  negb (match wcsstr arg (W "=") with Some 1 => true | _ => false end)
  || negb (isalpha (nth 0 arg 0%Z))
  || (wcslen arg <? MIN_SUBST_LENGTH)%nat.

Definition with_trailing_separator (p : list Z) : list Z :=
  if (List.last p 0 =? BACKSLASH)%Z then p else p ++ [BACKSLASH].

(** [new SUBST_NODE(drive, srcDir)] *)
Definition new_SUBST_NODE (env : Env) (drive : Z) (srcDir : list Z) : M SUBST_NODE :=
  let srcLen := (wcslen srcDir + 1)%nat in
  src <- wcscpy_s env srcLen srcDir ;;
  ret (mkNode drive (Some src) None INVALID_HANDLE_VALUE).

(** The loop over [argv[i]], [i] from 1; [args] is what is left of [argv]
    and [substList] the linked list built so far ([currentNode] is its last
    cell). *)
Fixpoint parse_args (env : Env) (args : list (list Z)) (i : Z) (substList : list nat)
  : M ParseResult :=
  match args with
  | [] => ret (mkParseResult false substList (-1))
  | arg :: args' =>
      if not_a_mapping arg then ret (mkParseResult false substList i)
      else
        let substTarget := totupper (nth 0 arg 0%Z) in
        let substSource :=
          with_trailing_separator (List.map totlower (skipn SUBST_START_OFFSET arg)) in
        let substTargetValue := substTarget in
        if ((substTargetValue <? 65) || (substTargetValue >? 90))%Z then
          wprintf "Error: Invalid target drive letter - %s. Allowed drive letters A-Z.\r\n" ;;
          ret (mkParseResult true substList (-1))
        else
          let idx := Z.to_nat (substTargetValue - 65) in
          entry <- get_node idx ;;
          match entry with
          | Some node =>
              (* If there was a map entry for this drive, just update it. *)
              src <- wcscpy_s env (length substSource) substSource ;;
              put_node idx (set_source node src) ;;
              parse_args env args' (i + 1)%Z substList
          | None =>
              srcAttr <- GetFileAttributes env substSource ;;
              if (srcAttr =? INVALID_FILE_ATTRIBUTES)%Z then
                wprintf "Warning: The local location %s is invalid.\r\n" ;;
                ret (mkParseResult true substList (-1))
              else if (Z.land srcAttr FILE_ATTRIBUTE_DIRECTORY =? 0)%Z then
                wprintf "Warning: The local location %s is invalid. It should be a directory.\r\n" ;;
                ret (mkParseResult true substList (-1))
              else
                pSubstNode <- new_SUBST_NODE env substTarget substSource ;;
                put_node idx pSubstNode ;;
                parse_args env args' (i + 1)%Z (substList ++ [idx])
          end
  end.

Definition ParseSubstSourcesAndTargets (env : Env) (argv : list (list Z)) : M ParseResult :=
  parse_args env (skipn 1 argv) 1%Z [].

(** ** GetMappedPaths *)

(** [static_cast<TCHAR>(::tolower(c))] on a [char] of the pipe buffer. *)
Definition lower_char (c : Z) : Z := to_wchar (totlower c).

(** The characters up to the next carriage return or zero, lower-cased,
    and how many there are; past the data read so far the buffer holds
    zeros. *)
Fixpoint scan_path (rest : list Z) : list Z * nat :=
  match rest with
  | [] => ([], 0)
  | c :: rest' =>
      if ((c =? 13) || (c =? 0))%Z then ([], 0)
      else let '(p, n) := scan_path rest' in (lower_char c :: p, S n)
  end.

(** [mappedPath.back()] on a string without characters: the standard
    library requires a non-empty string there, and a debug build of it
    ends the process. *)
Definition back_on_empty_string : string := "std::wstring::back() on an empty string".

(** The inner [while (true)] over the records of one buffer; the result is
    the offset at which it breaks.  A record whose target is empty (the
    carriage return or the zero comes right behind the offset of the
    target) takes the loop to [mappedPath.back()] on the empty string.
    [fuel] is the number of times the loop may start over; a record takes
    at least eight characters, so [length chBuf] always suffices. *)
Fixpoint parse_records (env : Env) (fuel : nat) (chBuf : list Z) (i : nat) : M nat :=
  let continue :=
    match fuel with
    | O => fun _ => timeout
    | S fuel' => parse_records env fuel' chBuf
    end in
  if (nth i chBuf 0 =? 0)%Z then ret i
  else
    let driveLetter := to_wchar (nth i chBuf 0%Z) in
    let i1 := (i + GET_PATH_TARGET_OFFSET)%nat in
    let '(mappedPath, n) := scan_path (skipn i1 chBuf) in
    let i2 := (i1 + n)%nat in
    let mappedPathOffset :=
      match wcsstr mappedPath MAPPED_PATH_STRING with Some 0 => 4 | _ => 0 end in
    let driveLetter := totupper driveLetter in
    let substTargetValue := driveLetter in
    if ((substTargetValue <? 65) || (substTargetValue >? 90))%Z then
      wprintf "Error: Invalid target drive letter - %s. Allowed drive letters A-Z.\r\n" ;;
      return_ 1
    else
      let srcLen := wcslen mappedPath in
      if (srcLen =? 0)%nat then undefined back_on_empty_string
      else
        let mappedPath := with_trailing_separator mappedPath in
        let idx := Z.to_nat (substTargetValue - 65) in
        entry <- get_node idx ;;
        match entry with
        | Some node =>
            p <- wcscpy_s env (srcLen + 2) (skipn mappedPathOffset mappedPath) ;;
            put_node idx (set_mapped node p)
        | None => ret tt
        end ;;
        if (nth i2 chBuf 0 =? 0)%Z then ret i2
        else continue (i2 + 2)%nat.

(** The outer [while (true)] over the [ReadFile] calls; [chBuf] starts
    zero-filled and keeps what earlier reads left behind the new data. *)
Fixpoint read_pipe (env : Env) (reads : list (bool * list Z)) (chBuf : list Z) : M unit :=
  match reads with
  | [] => ret tt
  | (bSuccess, data) :: reads' =>
      if negb bSuccess || (length data =? 0)%nat then ret tt
      else
        let dwRead := length data in
        let chBuf := data ++ [0%Z] ++ skipn (dwRead + 1) chBuf in
        i <- parse_records env (length chBuf) chBuf 0 ;;
        if negb (nth i chBuf 0 =? 0)%Z then ret tt
        else read_pipe env reads' chBuf
  end.

Definition GetMappedPaths (env : Env) : M Z :=
  call (
    t <- tick ;;
    let reply := os_Enumerate env t in
    emit (EvEnumerate reply) ;;
    if negb (CreatePipe_ok reply) then
      wprintf "Error: Could not get MappedDrives: CreatePipe.\r\n" ;; return_ 1
    else if negb (SetHandleInformation_ok reply) then
      wprintf "Error: Could not get MappedDrives: SetHandleInformation.\r\n" ;; return_ 1
    else if negb (CreateProcess_ok reply) then
      wprintf "Error: Could not get MappedDrives: CreateProcess.\r\n" ;; return_ 1
    else if negb (CloseHandle_ok reply) then
      wprintf "Error: Could not get MappedDrives: CloseChildHandle.\r\n" ;; return_ 1
    else
      read_pipe env (ReadFile_results reply) [] ;;
      return_ 0).

(** ** MapUnmapSubstExecute, UnmapDrive, MapDrive *)

Definition MapUnmapSubstExecute (env : Env) (substCommand : list Z) : M Z :=
  t <- tick ;;
  let reply := os_RunSubst env t substCommand in
  emit (EvSubst substCommand reply) ;;
  match reply with
  | None => ret 1%Z
  | Some None => ret 1%Z
  | Some (Some exitCode) => if (exitCode =? 0)%Z then ret 0%Z else ret 1%Z
  end.

Definition UnmapDrive_command (n : SUBST_NODE) : list Z :=
  W "subst /D " ++ [DQUOTE] ++ [szDriveLetter n] ++ [COLON] ++ [DQUOTE].

Definition UnmapDrive (env : Env) (pSubstNode : SUBST_NODE) : M Z :=
  ret_ <- MapUnmapSubstExecute env (UnmapDrive_command pSubstNode) ;;
  ret ret_.

(** [wcslen(s) - 1] as the [size_t] it is (64 bits; 32 behave alike): at
    the empty string the subtraction wraps around to [SIZE_MAX]. *)
Definition SIZE_MAX : Z := 18446744073709551615.

Definition wcslen_minus_one (s : list Z) : Z :=
  ((Z.of_nat (wcslen s) - 1) mod (SIZE_MAX + 1))%Z.

(** The command that [MapDrive] builds for a source directory that is not
    empty: the directory goes into it without its last character, the
    trailing separator. *)
Definition MapDrive_command (letter : Z) (src : list Z) : list Z :=
  W "subst " ++ [DQUOTE] ++ [letter] ++ [COLON] ++ [DQUOTE; SPACE; DQUOTE]
    ++ firstn (wcslen src - 1) src ++ [DQUOTE].

Definition length_error : string := "std::length_error".

(** [substCommand.append(szSourceDirectory, wcslen(szSourceDirectory) - 1)]:
    a count within the string appends that many characters; the count of
    the empty string, [SIZE_MAX], is more than a string can hold, and
    [append] throws [std::length_error] before it reads anything. *)
Definition MapDrive (env : Env) (pSubstNode : SUBST_NODE) : M Z :=
  match szSourceDirectory pSubstNode with
  | None => abort
  | Some src =>
      let count := wcslen_minus_one src in
      if (Z.of_nat (wcslen src) <? count)%Z then throw length_error
      else
        ret_ <- MapUnmapSubstExecute env (MapDrive_command (szDriveLetter pSubstNode) src) ;;
        ret 0%Z
  end.

(** ** ExecuteProcess *)

(** An argument that contains a space is put between double quotes. *)
Definition quoted (arg : list Z) : list Z :=
  match wcsstr arg (W " ") with
  | Some _ => [DQUOTE] ++ arg ++ [DQUOTE]
  | None => arg
  end.

Definition command_line (argv : list (list Z)) (executableToRunIndex : nat) : list Z :=
  quoted (nth executableToRunIndex argv []) ++ [SPACE]
    ++ concat (List.map (fun arg => quoted arg ++ [SPACE]) (skipn (S executableToRunIndex) argv)).

(** The current directory, lower-cased and with a trailing separator. *)
Definition normalize_current_directory (dir : list Z) : list Z :=
  with_trailing_separator (List.map totlower dir).

(** [wcscat_s] onto the buffer that holds the letter, the colon and the
    separator. *)
Definition drive_root_plus (letter : Z) (suffix : list Z) : list Z :=
  c_str [letter; COLON; BACKSLASH] ++ suffix.

(** One iteration of the search for the start directory; the accumulator
    is [longestDirMatch] and [newCurrentDir].  [None] is the dereference of
    a null source directory. *)
Definition match_slot (currentDir : list Z) (acc : nat * list Z) (pListNode : SUBST_NODE)
  : option (nat * list Z) :=
  match szSourceDirectory pListNode with
  | None => None
  | Some src =>
      match wcsstr currentDir src with
      | Some 0 =>
          let len := wcslen src in
          if (fst acc <? len)%nat
          then Some (len, drive_root_plus (szDriveLetter pListNode) (skipn len currentDir))
          else Some acc
      | _ => Some acc
      end
  end.

Fixpoint find_start_directory (tbl : gmap nat SUBST_NODE) (idxs : list nat)
    (currentDir : list Z) (acc : nat * list Z) : option (nat * list Z) :=
  match idxs with
  | [] => Some acc
  | i :: rest =>
      match tbl !! i with
      | None => find_start_directory tbl rest currentDir acc
      | Some pListNode =>
          match match_slot currentDir acc pListNode with
          | None => None
          | Some acc' => find_start_directory tbl rest currentDir acc'
          end
      end
  end.

(** The working directory handed to the child, from what
    [GetCurrentDirectory] delivered. *)
Definition child_working_directory (tbl : gmap nat SUBST_NODE) (dir : list Z)
  : option (list Z) :=
  let currentDir := normalize_current_directory dir in
  match find_start_directory tbl slot_indices currentDir (0, []) with
  | None => None
  | Some (_, newCurrentDir) =>
      if (wcslen newCurrentDir =? 0)%nat then Some currentDir else Some newCurrentDir
  end.

Definition ExecuteProcess (env : Env) (argv : list (list Z)) (executableToRunIndex : Z)
  : M Z :=
  if (executableToRunIndex =? -1)%Z then
    wprintf "Error: No process was specified to be executed while in subst mode." ;;
    ret 1%Z
  else
    let commandToExecute := command_line argv (Z.to_nat executableToRunIndex) in
    t <- tick ;;
    let cwd := os_GetCurrentDirectory env t in
    emit (EvGetCurrentDirectory cwd) ;;
    match cwd with
    | None => wprintf "Error: Could not get current directory." ;; ret 1%Z
    | Some dir =>
        tbl <- get_table ;;
        match child_working_directory tbl dir with
        | None => abort
        | Some newCurrentDir =>
            t <- tick ;;
            let reply := os_CreateProcess env t commandToExecute newCurrentDir in
            emit (EvCreateProcess commandToExecute newCurrentDir reply) ;;
            match reply with
            | None => wprintf "Error: Failed creating process %s.\r\n" ;; ret 1%Z
            | Some None =>
                wprintf "Error: Process %s exit code could not be obtained.\r\n" ;; ret 1%Z
            | Some (Some exitCode) => ret (to_int exitCode)
            end
        end
    end.

(** ** SubstDrivesAndExecute *)

(** The [while (true)] around [CreateFile] on the lock file of a source
    directory; [fuel] is the number of times the loop may [continue]. *)
Fixpoint acquire_source_lock (env : Env) (fuel : nat) (substFileLock : list Z) : M Z :=
  let continue :=
    match fuel with
    | O => timeout
    | S fuel' => acquire_source_lock env fuel' substFileLock
    end in
  r <- CreateFile env substFileLock ;;
  let substFileLockHandle := fst r in
  if (substFileLockHandle =? INVALID_HANDLE_VALUE)%Z then
    let lastError := snd r in
    if (lastError =? ERROR_SHARING_VIOLATION)%Z then
      wprintf "Warning: Lock file for local lock file in %s is in use by another process. Waiting for %d secs...\r\n" ;;
      Sleep RUN_IN_SUBST_TIMEOUT ;;
      continue
    else
      wprintf "Error: Could not get exclusive write lock for local lock file in %s. Error: %d\r\n" ;;
      return_ 1
  else ret substFileLockHandle.

Definition source_lock_path (src : list Z) : list Z := src ++ SUBST_FILE_NAME.

(** The body of the first loop: "First, get the local locks." *)
Definition lock_source (env : Env) (fuel : nat) (i : nat) : M unit :=
  entry <- get_node i ;;
  match entry with
  | None => ret tt
  | Some pListNode =>
      match szSourceDirectory pListNode with
      | None =>
          wprintf "Error: Invalid source location for a subst drive %C:.\r\n" ;;
          return_ 1
      | Some src =>
          srcAttr <- GetFileAttributes env src ;;
          if (srcAttr =? INVALID_FILE_ATTRIBUTES)%Z then
            wprintf "Error: Invalid source location for a subst drive %C:. The source location %s doesn't exist.\r\n" ;;
            return_ 1
          else if (Z.land srcAttr FILE_ATTRIBUTE_DIRECTORY =? 0)%Z then
            wprintf "Error: Invalid source location for a subst drive %C:. The source location %s is not a directory.\r\n" ;;
            return_ 1
          else
            h <- acquire_source_lock env fuel (source_lock_path src) ;;
            put_node i (set_lock pListNode h) ;;
            LogToFile (set_lock pListNode h) "Substituting drive {} for path {}."
      end
  end.

Definition lock_sources (env : Env) (fuel : nat) : M unit :=
  for_each slot_indices (lock_source env fuel).

(** The name of the second lock file, as the statements
    [push_back(szDriveLetter); += L':' + L'\\' + L'\0'; append(SUBST_FILE_NAME)]
    build it: the three character constants are added as integers and the
    sum is appended as one character. *)
Definition drive_lock_path (pListNode : SUBST_NODE) : list Z :=
  [szDriveLetter pListNode] ++ [to_wchar (COLON + BACKSLASH + 0)] ++ SUBST_FILE_NAME.

Definition mappedDriveLocation (pListNode : SUBST_NODE) : list Z :=
  c_str [szDriveLetter pListNode; COLON; BACKSLASH].

(** The test that lets the second loop move on to the next letter. *)
Definition verified (n : SUBST_NODE) : bool :=
  match szSourceDirectory n, szMappedPath n with
  | Some src, Some mapped => wcscmp_is_zero src mapped
  | _, _ => false
  end.

(** The second loop: "Now map the drive and check to see if it worked. If
    not, wait for release and map again."  [map_drive] is the run of
    passes the loop makes at one index [i], from the pass that enters with
    this [i] to the one that reaches [i++]; [fuel] is the number of times
    it may [continue] without [i++]. *)
Fixpoint map_drive (env : Env) (fuel : nat) (i : nat) : M unit :=
  let continue :=
    match fuel with
    | O => timeout
    | S fuel' => map_drive env fuel' i
    end in
  entry <- get_node i ;;
  match entry with
  | None => ret tt
  | Some pListNode =>
      MapDrive env pListNode ;;
      GetMappedPaths env ;;
      pListNode <- reload i pListNode ;;
      if verified pListNode then ret tt
      else
        let substFileLock := drive_lock_path pListNode in
        r <- CreateFile env substFileLock ;;
        let substFileLockHandle := fst r in
        if (substFileLockHandle =? INVALID_HANDLE_VALUE)%Z then
          let lastError := snd r in
          if (lastError =? ERROR_SHARING_VIOLATION)%Z then
            wprintf "Warning: Lock file for drive %C file %s is in use by another process. Waiting for %d secs...\r\n" ;;
            Sleep RUN_IN_SUBST_TIMEOUT ;;
            continue
          else
            srcAttr <- GetFileAttributes env (mappedDriveLocation pListNode) ;;
            if (srcAttr =? INVALID_FILE_ATTRIBUTES)%Z then
              wprintf "Warning: The subst drive %C: does not seem to be using the sharing protocol. Forcing a manual release of the drive.\r\n" ;;
              UnmapDrive env pListNode ;;
              continue
            else if (Z.land srcAttr FILE_ATTRIBUTE_DIRECTORY =? 0)%Z then
              wprintf "Warning: The subst drive %C: does not seem to be using the sharing protocol - mapped location not a directory. Forcing a manual release of the drive.\r\n" ;;
              UnmapDrive env pListNode ;;
              continue
            else
              wprintf "Error: Could not get exclusive write lock for the substituted drive lock file %s. Error: %d\r\n" ;;
              return_ 1
        else
          match szMappedPath pListNode with
          | Some mapped =>
              match szSourceDirectory pListNode with
              | None => abort
              | Some src =>
                  if negb (wcscmp_is_zero src mapped) then
                    UnmapDrive env pListNode ;;
                    CloseHandle substFileLockHandle ;;
                    continue
                  else
                    assert env false "We should never be here!!!" ;;
                    continue
              end
          | None =>
              assert env false "We should never be here!!!" ;;
              continue
          end
  end.

Definition map_drives (env : Env) (fuel : nat) : M unit :=
  for_each slot_indices (map_drive env fuel).

(** The body of the last loop: "Clean up whatever is needed to clean up." *)
Definition cleanup_slot (env : Env) (i : nat) : M unit :=
  entry <- get_node i ;;
  match entry with
  | None => ret tt
  | Some pListNode =>
      LogToFile pListNode "Done! Unsubst drive {}: - {}." ;;
      UnmapDrive env pListNode ;;
      assert env (negb (hLockFile pListNode =? INVALID_HANDLE_VALUE)%Z)
        "Invalid state. Lock file handle should not be invalid." ;;
      if (hLockFile pListNode =? INVALID_HANDLE_VALUE)%Z then
        LogToFile pListNode "Invalid state. Lock file handle should not be invalid for local file {}." ;;
        return_ 1
      else CloseHandle (hLockFile pListNode)
  end.

Definition cleanup (env : Env) : M unit := for_each slot_indices (cleanup_slot env).

Definition is_null (pSubstList : list nat) : bool :=
  match pSubstList with [] => true | _ => false end.

(** The block under [if (pSubstList != nullptr)]: the two loops. *)
Definition lock_and_map (env : Env) (fuel : nat) (pSubstList : list nat) : M unit :=
  if is_null pSubstList then ret tt
  else lock_sources env fuel ;; map_drives env fuel.

Definition SubstDrivesAndExecute (env : Env) (fuel : nat) (argv : list (list Z))
    (pSubstList : list nat) (executableToRunIndex : Z) : M Z :=
  call (
    assert env (negb (is_null pSubstList)) "pSubstList != nullptr" ;;
    lock_and_map env fuel pSubstList ;;
    errorCode <- ExecuteProcess env argv executableToRunIndex ;;
    cleanup env ;;
    return_ errorCode).

(** ** main *)

Definition InitializeState : State := mkState ∅ 0.

Definition _tmain (env : Env) (fuel : nat) (argv : list (list Z)) : M Z :=
  call (
    r <- ParseSubstSourcesAndTargets env argv ;;
    if shouldExit r then return_ 1
    else
      ret_ <- SubstDrivesAndExecute env fuel argv (pSubstList r) (executableToRunIndex r) ;;
      return_ ret_).

Definition run_main (env : Env) (fuel : nat) (argv : list (list Z))
  : Outcome Z * State * list Event :=
  _tmain env fuel argv InitializeState.

(** * Reasoning about runs

    [wp m s Q]: the run of [m] from [s] ends in an outcome, a state and a
    list of events that satisfy [Q].  The rules below walk through a
    program in continuation-passing style. *)

Definition wp {A} (m : M A) (s : State)
    (Q : Outcome A -> State -> list Event -> Prop) : Prop :=
  Q (outcome_of (m s)) (state_of (m s)) (events_of (m s)).

(** What [bind] does with the outcome of its first part. *)
Definition then_ {A B} (f : A -> M B) (Q : Outcome B -> State -> list Event -> Prop)
    (o : Outcome A) (s1 : State) (e1 : list Event) : Prop :=
  match o with
  | Ok a => wp (f a) s1 (fun o2 s2 e2 => Q o2 s2 (e1 ++ e2))
  | Return c => Q (Return c) s1 e1
  | Abort => Q Abort s1 e1
  | Timeout => Q Timeout s1 e1
  end.


(** ** Observations on runs *)

(** The lock files opened with success, in the order of the calls. *)
Definition lock_acquired (e : Event) : option (list Z) :=
  match e with
  | EvCreateFile path h _ => if (h =? INVALID_HANDLE_VALUE)%Z then None else Some path
  | _ => None
  end.

Definition acquired (es : list Event) : list (list Z) := omap lock_acquired es.

(** The paths handed to [CreateFile], whatever came of the call. *)
Definition opened_path (e : Event) : option (list Z) :=
  match e with EvCreateFile path _ _ => Some path | _ => None end.

Definition opened_paths (es : list Event) : list (list Z) := omap opened_path es.

(** The command lines handed to the subst tool. *)
Definition subst_command (e : Event) : option (list Z) :=
  match e with EvSubst cmd _ => Some cmd | _ => None end.

Definition subst_commands (es : list Event) : list (list Z) := omap subst_command es.

(** A command that binds a letter starts with [subst] and a double quote;
    one that removes a binding starts with [subst /D]. *)
Definition is_map_command (cmd : list Z) : bool :=
  starts_with (W "subst " ++ [DQUOTE]) cmd.

(** The letter of a binding command is its eighth character. *)
Definition mapped_letter (e : Event) : option Z :=
  match e with
  | EvSubst cmd _ => if is_map_command cmd then Some (nth 7 cmd 0%Z) else None
  | _ => None
  end.

Definition mapped_letters (es : list Event) : list Z := omap mapped_letter es.

Definition closed_handle (e : Event) : option Z :=
  match e with EvCloseHandle h => Some h | _ => None end.

Definition closed_handles (es : list Event) : list Z := omap closed_handle es.

Definition sleep_time (e : Event) : option Z :=
  match e with EvSleep ms => Some ms | _ => None end.

Definition sleeps (es : list Event) : list Z := omap sleep_time es.

Definition enumeration (e : Event) : option EnumReply :=
  match e with EvEnumerate reply => Some reply | _ => None end.

Definition enumerations (es : list Event) : list EnumReply := omap enumeration es.

Definition written_handle (e : Event) : option Z :=
  match e with EvWriteFile h _ => Some h | _ => None end.

Definition log_writes (es : list Event) : list Z := omap written_handle es.

Definition assertion_failure (e : Event) : option string :=
  match e with EvAssert msg => Some msg | _ => None end.

Definition assertion_failures (es : list Event) : list string := omap assertion_failure es.

(** The nodes found at a list of indices. *)
Definition nodes_at (t : gmap nat SUBST_NODE) (idxs : list nat) : list SUBST_NODE :=
  omap (fun i => t !! i) idxs.

(** The nodes of the table in the order of the array, that is, by letter. *)
Definition slots (t : gmap nat SUBST_NODE) : list SUBST_NODE :=
  nodes_at t slot_indices.

Definition source_of (n : SUBST_NODE) : list Z := default [] (szSourceDirectory n).

(** The lock file of the source directory of a node, and those of the
    nodes found at a list of indices. *)
Definition lock_path_of (n : SUBST_NODE) : list Z := source_lock_path (source_of n).

Definition lock_paths_at (t : gmap nat SUBST_NODE) (idxs : list nat) : list (list Z) :=
  List.map lock_path_of (omap (fun i => t !! i) idxs).

(** The lock files of the source directories, by letter. *)
Definition lock_paths (t : gmap nat SUBST_NODE) : list (list Z) :=
  lock_paths_at t slot_indices.

(** ** Machines and command lines for the examples *)

(** One line of the listing that [subst.exe] prints. *)
Definition subst_line (letter target : string) : list Z :=
  W letter ++ W ":\: => " ++ W target ++ [13; 10]%Z.

Definition listing (lines : list (list Z)) : EnumReply :=
  mkEnumReply true true true true
    (match lines with [] => [] | _ => [(true, concat lines)] end).

(** A machine on which every path is a directory, every file can be
    opened (the handle is 100 plus the time of the call), every subst
    command succeeds, and the child exits with 0; [release] chooses the
    build and [enum] is what the enumeration delivers over time. *)
Definition machine (release : bool) (enum : nat -> EnumReply) : Env :=
  mkEnv release false
    (fun _ _ => FILE_ATTRIBUTE_DIRECTORY)
    (fun t _ => (Z.of_nat (100 + t), 0%Z))
    (fun _ _ => Some (Some 0%Z))
    enum
    (fun _ => Some (W "c:\"))
    (fun _ _ _ => Some (Some 0%Z)).

Definition argv_X : list (list Z) :=
  [W "RunInSubst.exe"; W "X=c:\data"; W "cmd.exe"].

Definition argv_X_twice : list (list Z) :=
  [W "RunInSubst.exe"; W "X=c:\a"; W "X=c:\b"; W "cmd.exe"].

Definition argv_X_Y : list (list Z) :=
  [W "RunInSubst.exe"; W "X=c:\a"; W "Y=c:\b"; W "cmd.exe"].

(** The machine on which the second specification of a letter is parsed:
    [handler_returns] says whether the invalid parameter handler of the
    CRT hands control back. *)
Definition machine_with_handler (handler_returns : bool) : Env :=
  mkEnv true handler_returns
    (fun _ _ => FILE_ATTRIBUTE_DIRECTORY)
    (fun t _ => (Z.of_nat (100 + t), 0%Z))
    (fun _ _ => Some (Some 0%Z))
    (fun _ => listing [])
    (fun _ => Some (W "c:\"))
    (fun _ _ _ => Some (Some 0%Z)).

(** X: is bound to another directory when the program starts and accepts
    the new binding at the second attempt. *)
Definition machine_foreign_mapping : Env :=
  machine true (fun t =>
    listing [subst_line "X" (if (t <? 6)%nat then "C:\other" else "C:\data")]).

(** [CreatePipe] fails whenever the mappings are enumerated. *)
Definition machine_no_pipe : Env :=
  machine true (fun _ => mkEnumReply false true true true []).

(** A debug build on a machine where the letter never shows up in the
    listing (the subst tool refuses to bind it). *)
Definition machine_never_bound : Env :=
  mkEnv false false
    (fun _ _ => FILE_ATTRIBUTE_DIRECTORY)
    (fun t _ => (Z.of_nat (100 + t), 0%Z))
    (fun _ _ => Some (Some 1%Z))
    (fun _ => listing [])
    (fun _ => Some (W "c:\"))
    (fun _ _ _ => Some (Some 0%Z)).

(** The lock file in [c:\b\] cannot be opened: access denied (error 5). *)
Definition machine_access_denied : Env :=
  mkEnv true false
    (fun _ _ => FILE_ATTRIBUTE_DIRECTORY)
    (fun t path =>
       if wstring_eqb path (W "c:\b\.SubstLock") then (INVALID_HANDLE_VALUE, 5%Z)
       else (Z.of_nat (100 + t), 0%Z))
    (fun _ _ => Some (Some 0%Z))
    (fun _ => listing [])
    (fun _ => Some (W "c:\"))
    (fun _ _ _ => Some (Some 0%Z)).


(** X: is bound to another directory at the start and accepts the new
    binding at the second attempt; Y: accepts it at once. *)
Definition machine_two_letters : Env :=
  machine true (fun t =>
    listing [subst_line "X" (if (t <? 8)%nat then "C:\other" else "C:\a");
             subst_line "Y" "C:\b"]).

(** Two slots, the source of Y below the source of X. *)
Definition table_work : gmap nat SUBST_NODE :=
  <[23%nat := mkNode 88 (Some (W "c:\work\")) None 100]>
    (<[24%nat := mkNode 89 (Some (W "c:\work\sub\")) None 101]> ∅).

(** ** Views of a node

    What the mapping loop leaves alone (everything but the mapped path),
    and what the whole run leaves alone (letter and source directory). *)
Definition locked_view (n : SUBST_NODE) : Z * option (list Z) * Z :=
  (szDriveLetter n, szSourceDirectory n, hLockFile n).

Definition identity_view (n : SUBST_NODE) : Z * option (list Z) :=
  (szDriveLetter n, szSourceDirectory n).

(** Events that talk to the console or list the mappings, and the mark
    that [GetMappedPaths] leaves where it stops at an empty target;
    nothing else. *)
Definition quiet (e : Event) : Prop :=
  match e with
  | EvPrint _ | EvEnumerate _ => True
  | EvUndefined operation => operation = back_on_empty_string
  | _ => False
  end.

(** A run whose last event is [ev]. *)
Definition ends_with (ev : Event) (es : list Event) : Prop :=
  exists pre, es = pre ++ [ev].

(** A table as the parser leaves it: the node in cell [i] carries the
    letter number [i] of the alphabet and a source directory. *)
Definition parsed_table (t : gmap nat SUBST_NODE) : Prop :=
  forall i n, t !! i = Some n ->
    szDriveLetter n = (65 + Z.of_nat i)%Z /\ szSourceDirectory n <> None.

(** The events of the first loop: it looks at directories, opens lock
    files, prints, sleeps and writes to the lock file. *)
Definition lock_event (e : Event) : Prop :=
  match e with
  | EvPrint _ | EvGetFileAttributes _ _ | EvCreateFile _ _ _ | EvSleep _
  | EvWriteFile _ _ => True
  | _ => False
  end.

Definition fatal_lock_message : string :=
  "Error: Could not get exclusive write lock for local lock file in %s. Error: %d\r\n".

(** How a run answers an open of a source lock file that fails for another
    reason than a sharing violation: the opens made before the first subst
    command are those of the first loop; after such a failure nothing
    happens but the error message, and the run [exits] the way the caller
    says. *)
Definition fatal_ok (exits : Prop) (es : list Event) : Prop :=
  forall pre path err post,
    es = pre ++ EvCreateFile path INVALID_HANDLE_VALUE err :: post ->
    err <> ERROR_SHARING_VIOLATION ->
    subst_commands pre = [] ->
    exits /\ post = [EvPrint fatal_lock_message].

(** Every open of a file comes after a subst command. *)
Definition guarded (es : list Event) : Prop :=
  forall pre ev post,
    es = pre ++ ev :: post -> opened_path ev <> None -> subst_commands pre <> [].

(** The letter of the node in a cell. *)
Definition letter_at (t : gmap nat SUBST_NODE) (i : nat) : option Z :=
  szDriveLetter <$> (t !! i).

(** Every handle that is closed was returned by an open of a drive-root
    lock file in the same list of events. *)
Definition closes_own (es : list Event) : Prop :=
  forall h, h ∈ closed_handles es ->
    exists n err, EvCreateFile (drive_lock_path n) h err ∈ es.

Definition fatal_drive_lock_message : string :=
  "Error: Could not get exclusive write lock for the substituted drive lock file %s. Error: %d\r\n".

(** The events of the launcher. *)
Definition exec_event (e : Event) : Prop :=
  match e with
  | EvPrint _ | EvGetCurrentDirectory _ | EvCreateProcess _ _ _ => True
  | _ => False
  end.

(** The events of the clean-up. *)
Definition cleanup_event (e : Event) : Prop :=
  match e with
  | EvWriteFile _ _ | EvSubst _ _ | EvCloseHandle _ | EvAssert _ => True
  | _ => False
  end.

Definition valid_lock (n : SUBST_NODE) : Prop := hLockFile n <> INVALID_HANDLE_VALUE.

(** The events of the parser. *)
Definition parse_event (e : Event) : Prop :=
  match e with
  | EvPrint _ | EvGetFileAttributes _ _ => True
  | _ => False
  end.

(** The order of a run, for a table [t]: before any subst command the
    source locks of all slots have been acquired, in the order of the
    letters; the locks acquired and the locks wanted are one the beginning
    of the other; and the letters bound come in ascending order. *)
Definition ordered_run (t : gmap nat SUBST_NODE) (es : list Event) : Prop :=
  (forall pre cmd reply post,
     es = pre ++ EvSubst cmd reply :: post -> lock_paths t `prefix_of` acquired pre) /\
  (acquired es `prefix_of` lock_paths t \/ lock_paths t `prefix_of` acquired es) /\
  StronglySorted Z.le (mapped_letters es).


(** A release build on a quiet machine with no drive substituted. *)
Definition machine_release : Env := machine true (fun _ => listing []).

(** The table that the parser builds for [X=c:\a Y=c:\b]. *)
Definition table_a_b : gmap nat SUBST_NODE :=
  <[23%nat := mkNode 88 (Some (W "c:\a\")) None INVALID_HANDLE_VALUE]>
    (<[24%nat := mkNode 89 (Some (W "c:\b\")) None INVALID_HANDLE_VALUE]> ∅).

(** What [MapUnmapSubstExecute] returns for a reply of the machine. *)
Definition subst_result (reply : option (option Z)) : Z :=
  match reply with
  | Some (Some exitCode) => if (exitCode =? 0)%Z then 0%Z else 1%Z
  | _ => 1%Z
  end.

(** ** Mapping tokens of the command line *)

(** What the parser takes from a mapping token: the drive letter
    ([substTarget]), the cell of the array ([substTargetValue - 65]), the
    source directory ([substSource]) and the node it allocates. *)
Definition token_letter (arg : list Z) : Z := totupper (nth 0 arg 0%Z).

Definition token_slot (arg : list Z) : nat := Z.to_nat (token_letter arg - 65).

Definition token_source (arg : list Z) : list Z :=
  with_trailing_separator (List.map totlower (skipn SUBST_START_OFFSET arg)).

Definition token_node (arg : list Z) : SUBST_NODE :=
  mkNode (token_letter arg) (Some (token_source arg)) None INVALID_HANDLE_VALUE.

(** The mapping tokens at the head of a list of arguments, and what comes
    after them. *)
Fixpoint leading_tokens (args : list (list Z)) : list (list Z) :=
  match args with
  | [] => []
  | arg :: args' => if not_a_mapping arg then [] else arg :: leading_tokens args'
  end.

Fixpoint after_tokens (args : list (list Z)) : list (list Z) :=
  match args with
  | [] => []
  | arg :: args' => if not_a_mapping arg then args else after_tokens args'
  end.

(** The attributes that make the parser turn a source location down. *)
Definition not_a_directory (attr : Z) : bool :=
  (attr =? INVALID_FILE_ATTRIBUTES)%Z || (Z.land attr FILE_ATTRIBUTE_DIRECTORY =? 0)%Z.

Definition invalid_letter_message : string :=
  "Error: Invalid target drive letter - %s. Allowed drive letters A-Z.\r\n".

(** The attributes that [GetFileAttributes] reported, in the order of the
    calls. *)
Definition reported_attributes (e : Event) : option Z :=
  match e with EvGetFileAttributes _ attr => Some attr | _ => None end.

Definition attributes (es : list Event) : list Z := omap reported_attributes es.

(** ** The child process *)

(** The calls of [CreateProcess] for the child: command line, working
    directory and what came of it. *)
Definition launch (e : Event) : option (list Z * list Z * option (option Z)) :=
  match e with EvCreateProcess cmd cwd reply => Some (cmd, cwd, reply) | _ => None end.

Definition launches (es : list Event) : list (list Z * list Z * option (option Z)) :=
  omap launch es.

(** What [ExecuteProcess] returns after [CreateProcess]. *)
Definition launch_result (reply : option (option Z)) : Z :=
  match reply with
  | Some (Some exitCode) => to_int exitCode
  | _ => 1%Z
  end.

(** The command line as the launcher builds it from a list of arguments. *)
Definition quoted_arguments (args : list (list Z)) : list Z :=
  concat (List.map (fun arg => quoted arg ++ [SPACE]) args).

(** ** The listing of the mappings *)

(** One line of the listing as [GetMappedPaths] reads it: the first
    character, seven characters it skips, the target up to the carriage
    return, and the line feed. *)
Record ListingLine := mkLine {
  line_letter : Z;
  line_skipped : list Z;
  line_target : list Z
}.

Definition listing_line (l : ListingLine) : list Z :=
  line_letter l :: line_skipped l ++ line_target l ++ [13; 10]%Z.

(** A line the loop reads as a record of a drive: a letter, seven
    characters, and a target that is not empty and holds neither a zero
    nor a carriage return. *)
Definition well_formed_line (l : ListingLine) : bool :=
  isalpha (line_letter l)
  && (length (line_skipped l) =? 7)%nat
  && negb (length (line_target l) =? 0)%nat
  && forallb (fun c => negb ((c =? 13) || (c =? 0))%Z) (line_target l).

(** The mapped path the loop stores for a target: lower case, a trailing
    separator, and a leading [\??\] left out. *)
Definition recorded_path (target : list Z) : list Z :=
  let mappedPath := List.map lower_char target in
  let mappedPathOffset :=
    match wcsstr mappedPath MAPPED_PATH_STRING with Some 0 => 4 | _ => 0 end in
  skipn mappedPathOffset (with_trailing_separator mappedPath).

(** What one record does to the table: the mapped path of the slot of its
    letter is replaced, and a letter without a slot is passed over. *)
Definition record_mapping (t : gmap nat SUBST_NODE) (l : ListingLine)
  : gmap nat SUBST_NODE :=
  let idx := Z.to_nat (totupper (line_letter l) - 65) in
  match t !! idx with
  | Some node => <[idx := set_mapped node (recorded_path (line_target l))]> t
  | None => t
  end.

(** A machine on which no path is a directory. *)
Definition machine_no_directory : Env :=
  mkEnv true false
    (fun _ _ => INVALID_FILE_ATTRIBUTES)
    (fun t _ => (Z.of_nat (100 + t), 0%Z))
    (fun _ _ => Some (Some 0%Z))
    (fun _ => listing [])
    (fun _ => Some (W "c:\"))
    (fun _ _ _ => Some (Some 0%Z)).

(** ** More observations on runs *)

(** The events of the second loop. *)
Definition map_event (e : Event) : Prop :=
  match e with
  | EvPrint _ | EvEnumerate _ | EvSubst _ _ | EvCreateFile _ _ _ | EvSleep _
  | EvGetFileAttributes _ _ | EvCloseHandle _ | EvAssert _ | EvThrow _ => True
  | EvUndefined operation => operation = back_on_empty_string
  | _ => False
  end.

(** A run whose last event is a failed assertion. *)
Definition ends_with_assert (es : list Event) : Prop :=
  exists pre message, es = pre ++ [EvAssert message].

(** Some node of the table has the empty string for its source
    directory. *)
Definition empty_source (t : gmap nat SUBST_NODE) : Prop :=
  exists i n, t !! i = Some n /\ szSourceDirectory n = Some [].


(** How the loops can end the process, for the table [t] they leave: by
    the assertion of a debug build; by the exception of [MapDrive], for a
    slot whose source directory is empty; or at the empty target of a
    record of the listing. *)
Definition abnormal (env : Env) (t : gmap nat SUBST_NODE) (es : list Event) : Prop :=
  (ndebug env = false /\ ends_with_assert es) \/
  (ends_with (EvThrow length_error) es /\ empty_source t) \/
  ends_with (EvUndefined back_on_empty_string) es.

(** No node of the table has a null source directory. *)
Definition sources_set (t : gmap nat SUBST_NODE) : Prop :=
  forall j m, t !! j = Some m -> szSourceDirectory m <> None.

(** A release build on a machine where X: is bound to [c:\data] whenever
    the mappings are listed. *)
Definition machine_mapped : Env :=
  machine true (fun _ => listing [subst_line "X" "C:\data"]).


Definition argv_no_executable : list (list Z) :=
  [W "RunInSubst.exe"; W "X=c:\data"].

Definition argv_no_mapping : list (list Z) :=
  [W "RunInSubst.exe"; W "cmd.exe"; W "/c"; W "echo hello"].

(** The size of the buffer that [GetMappedPaths] reads the listing
    into. *)
Definition SUBST_SOURCE_LENGTH : Z := 65536.



(** The test on the first character of a line of the listing: "The drive
    letter can be A-Z only." *)
Definition not_a_drive_letter (c : Z) : bool :=
  let substTargetValue := totupper (to_wchar c) in
  ((substTargetValue <? 65) || (substTargetValue >? 90))%Z.

(** The listing as [subst.exe] prints it for X: bound to [C:\data] and Y:
    bound through the [\??\] prefix to [C:\work]. *)
Definition lines_X_Y : list ListingLine :=
  [mkLine 88 (W ":\: => ") (W "C:\data"); mkLine 121 (W ":\: => ") (W "\??\C:\work")].

Definition machine_lines (lines : list ListingLine) : Env :=
  machine true (fun _ =>
    mkEnumReply true true true true [(true, concat (List.map listing_line lines))]).

(** The table with X and Y locked and Z not asked for. *)
Definition table_X_Y : gmap nat SUBST_NODE :=
  <[23%nat := mkNode 88 (Some (W "c:\data\")) None 100]>
    (<[24%nat := mkNode 89 (Some (W "c:\work\")) (Some (W "c:\old\")) 101]> ∅).

(** The listing of X: and Y: followed by an empty line. *)
Definition machine_blank_line : Env :=
  machine true (fun _ =>
    mkEnumReply true true true true
      [(true, concat (List.map listing_line lines_X_Y) ++ [13; 10]%Z)]).

(** The listing holds a record for X: whose target is empty. *)
Definition machine_empty_target : Env :=
  machine true (fun _ => listing [W "X:\: => " ++ [13; 10]%Z]).

(** A location without the separator at its end, if it has one. *)
Definition without_separator (p : list Z) : list Z :=
  if (List.last p 0 =? BACKSLASH)%Z then removelast p else p.

(** What [GetCurrentDirectory] delivered, call by call. *)
Definition current_directory (e : Event) : option (option (list Z)) :=
  match e with EvGetCurrentDirectory reply => Some reply | _ => None end.

Definition current_directories (es : list Event) : list (option (list Z)) :=
  omap current_directory es.

(** The machine with X: bound to [c:\data], started in a directory below
    [c:\data]. *)
Definition machine_in_source : Env :=
  mkEnv true false
    (fun _ _ => FILE_ATTRIBUTE_DIRECTORY)
    (fun t _ => (Z.of_nat (100 + t), 0%Z))
    (fun _ _ => Some (Some 0%Z))
    (fun _ => listing [subst_line "X" "C:\data"])
    (fun _ => Some (W "C:\Data\Sub"))
    (fun _ _ _ => Some (Some 0%Z)).

(** ** The log in the lock files *)

(** The lines written through a lock handle: the handle and the format of
    the line. *)
Definition log_line (e : Event) : option (Z * string) :=
  match e with EvWriteFile h format => Some (h, format) | _ => None end.

Definition log_lines (es : list Event) : list (Z * string) := omap log_line es.

(** The handles that [CreateFile] returned, in the order of the calls. *)
Definition opened_handle (e : Event) : option Z :=
  match e with
  | EvCreateFile _ h _ => if (h =? INVALID_HANDLE_VALUE)%Z then None else Some h
  | _ => None
  end.

Definition opened_handles (es : list Event) : list Z := omap opened_handle es.

Definition substituting_message : string := "Substituting drive {} for path {}.".

Definition done_message : string := "Done! Unsubst drive {}: - {}.".

(** ** The phases of a run *)

(** With the repetitions of the retries taken out, the letters bound in a
    run are the letters of the slots of [t], in the order of the array. *)
Definition visited (t : gmap nat SUBST_NODE) (es : list Event) : Prop :=
  remove_dups (mapped_letters es) = szDriveLetter <$> nodes_at t slot_indices.

(** A run ends with the clean-up of every slot of [t], behind the launch
    of the child: the events of the clean-up unmap every letter and close
    every lock handle, in the order of the array; no assertion fails
    among them, and the lines they write to the lock files are the lines
    about the release, one for every slot. *)
Definition cleaned_up (t : gmap nat SUBST_NODE) (es : list Event) : Prop :=
  exists pre ec,
    es = pre ++ ec /\
    launches pre = launches es /\
    subst_commands ec = UnmapDrive_command <$> nodes_at t slot_indices /\
    closed_handles ec = hLockFile <$> nodes_at t slot_indices /\
    assertion_failures ec = [] /\
    log_lines ec
      = (fun n => (hLockFile n, done_message)) <$> nodes_at t slot_indices.
Lemma wp_bind {A B} (m : M A) (f : A -> M B) s Q :
  wp m s (then_ f Q) -> wp (bind m f) s Q.
Proof.
  unfold wp, then_, bind, outcome_of, state_of, events_of.
  destruct (m s) as [[o s1] e1]; simpl.
  destruct o; simpl; auto.
  unfold wp, outcome_of, state_of, events_of.
  destruct (f a s1) as [[o2 s2] e2]; simpl; auto.
Qed.

Lemma wp_bind_inv {A B} (m : M A) (f : A -> M B) s Q :
  wp (bind m f) s Q -> wp m s (then_ f Q).
Proof.
  unfold wp, then_, bind, outcome_of, state_of, events_of.
  destruct (m s) as [[o s1] e1]; simpl.
  destruct o; simpl; auto.
  unfold wp, outcome_of, state_of, events_of.
  destruct (f a s1) as [[o2 s2] e2]; simpl; auto.
Qed.

Lemma wp_mono {A} (m : M A) s (Q Q' : Outcome A -> State -> list Event -> Prop) :
  wp m s Q -> (forall o s' e, Q o s' e -> Q' o s' e) -> wp m s Q'.
Proof. unfold wp; auto. Qed.

Lemma wp_run {A} (m : M A) s Q o s' e :
  m s = (o, s', e) -> Q o s' e -> wp m s Q.
Proof. unfold wp; intros ->; auto. Qed.

Lemma wp_ret {A} (a : A) s Q : Q (Ok a) s [] -> wp (ret a) s Q.
Proof. auto. Qed.

Lemma wp_return {A} c s (Q : Outcome A -> _) : Q (Return c) s [] -> wp (return_ c) s Q.
Proof. auto. Qed.

Lemma wp_abort {A} s (Q : Outcome A -> _) : Q Abort s [] -> wp abort s Q.
Proof. auto. Qed.

Lemma wp_timeout {A} s (Q : Outcome A -> _) : Q Timeout s [] -> wp timeout s Q.
Proof. auto. Qed.

Lemma wp_throw {A} exception s (Q : Outcome A -> _) :
  Q Abort s [EvThrow exception] -> wp (throw exception) s Q.
Proof. auto. Qed.

Lemma wp_undefined {A} operation s (Q : Outcome A -> _) :
  Q Abort s [EvUndefined operation] -> wp (undefined operation) s Q.
Proof. auto. Qed.

Lemma wp_emit ev s Q : Q (Ok tt) s [ev] -> wp (emit ev) s Q.
Proof. auto. Qed.

Lemma wp_tick s Q :
  Q (Ok (clock s)) (mkState (pOrderedSubstList s) (S (clock s))) [] -> wp tick s Q.
Proof. auto. Qed.

Lemma wp_get_node i s Q : Q (Ok (pOrderedSubstList s !! i)) s [] -> wp (get_node i) s Q.
Proof. auto. Qed.

Lemma wp_get_table s Q : Q (Ok (pOrderedSubstList s)) s [] -> wp get_table s Q.
Proof. auto. Qed.

Lemma wp_reload i n s Q :
  Q (Ok (default n (pOrderedSubstList s !! i))) s [] -> wp (reload i n) s Q.
Proof. auto. Qed.

Lemma wp_put_node i n s Q :
  Q (Ok tt) (mkState (<[i := n]> (pOrderedSubstList s)) (clock s)) [] ->
  wp (put_node i n) s Q.
Proof. auto. Qed.

Lemma wp_call (m : M Z) s Q :
  wp m s (fun o s' e => match o with Return c => Q (Ok c) s' e | _ => Q o s' e end) ->
  wp (call m) s Q.
Proof.
  unfold wp, call, outcome_of, state_of, events_of.
  destruct (m s) as [[o s1] e1]; simpl. destruct o; auto.
Qed.

(** One step of symbolic execution through the primitives. *)
Ltac wp_prim :=
  lazymatch goal with
  | |- wp (bind _ _) _ _ => apply wp_bind
  | |- wp (ret _) _ _ => apply wp_ret
  | |- wp (return_ _) _ _ => apply wp_return
  | |- wp abort _ _ => apply wp_abort
  | |- wp timeout _ _ => apply wp_timeout
  | |- wp (throw _) _ _ => apply wp_throw
  | |- wp (undefined _) _ _ => apply wp_undefined
  | |- wp (emit _) _ _ => apply wp_emit
  | |- wp tick _ _ => apply wp_tick
  | |- wp (get_node _) _ _ => apply wp_get_node
  | |- wp get_table _ _ => apply wp_get_table
  | |- wp (reload _ _) _ _ => apply wp_reload
  | |- wp (put_node _ _) _ _ => apply wp_put_node
  | |- wp (call _) _ _ => apply wp_call
  | |- wp (wprintf _) _ _ => unfold wprintf
  | |- wp (Sleep _) _ _ => unfold Sleep
  | |- wp (CloseHandle _) _ _ => unfold CloseHandle
  | |- wp (LogToFile _ _) _ _ => unfold LogToFile
  | |- wp (assert _ _ _) _ _ => unfold assert
  | |- wp (wcscpy_s _ _ _) _ _ => unfold wcscpy_s
  | |- wp (GetFileAttributes _ _) _ _ => unfold GetFileAttributes
  | |- wp (CreateFile _ _) _ _ => unfold CreateFile
  | |- then_ _ _ _ _ _ => unfold then_ at 1; cbv beta iota
  | |- wp (if ?c then _ else _) _ _ => destruct c eqn:?
  | |- wp (match ?x with _ => _ end) _ _ => destruct x eqn:?
  end.

Ltac wp_auto := repeat wp_prim.

(** ** MapDrive and the subst tool *)

Lemma MapUnmapSubstExecute_run env cmd s :
  MapUnmapSubstExecute env cmd s =
    (Ok (match os_RunSubst env (clock s) cmd with
         | Some (Some exitCode) => if (exitCode =? 0)%Z then 0%Z else 1%Z
         | _ => 1%Z
         end),
     mkState (pOrderedSubstList s) (S (clock s)),
     [EvSubst cmd (os_RunSubst env (clock s) cmd)]).
Proof.
  unfold MapUnmapSubstExecute, bind, tick, emit, ret; simpl.
  destruct (os_RunSubst env (clock s) cmd) as [[exitCode|]|]; simpl; try reflexivity.
  destruct (exitCode =? 0)%Z; reflexivity.
Qed.

(** The count that [MapDrive] hands to [append] stays within a string
    that is not empty, and is beyond the empty one. *)
Lemma count_within (src : list Z) :
  src <> [] -> (Z.of_nat (wcslen src) <? wcslen_minus_one src)%Z = false.
Proof.
  intros Hsrc. apply Z.ltb_ge. unfold wcslen_minus_one, wcslen.
  assert (Hlen : (1 <= Z.of_nat (length src))%Z)
    by (destruct src; [contradiction|cbn [length]; lia]).
  pose proof (Z.mod_le (Z.of_nat (length src) - 1) (SIZE_MAX + 1)
                ltac:(lia) ltac:(reflexivity)).
  lia.
Qed.

Lemma count_beyond_empty :
  (Z.of_nat (wcslen []) <? wcslen_minus_one [])%Z = true.
Proof. reflexivity. Qed.

Lemma MapDrive_empty env n s :
  szSourceDirectory n = Some [] ->
  MapDrive env n s = (Abort, s, [EvThrow length_error]).
Proof. intros Hsrc. unfold MapDrive. rewrite Hsrc, count_beyond_empty. reflexivity. Qed.

Lemma MapDrive_run env n src s :
  szSourceDirectory n = Some src ->
  src <> [] ->
  MapDrive env n s =
    (Ok 0%Z, mkState (pOrderedSubstList s) (S (clock s)),
     [EvSubst (MapDrive_command (szDriveLetter n) src)
        (os_RunSubst env (clock s) (MapDrive_command (szDriveLetter n) src))]).
Proof.
  intros Hsrc Hne. unfold MapDrive. rewrite Hsrc. cbv zeta. rewrite (count_within src Hne).
  unfold bind. rewrite MapUnmapSubstExecute_run. simpl. reflexivity.
Qed.

Lemma UnmapDrive_run env n s :
  UnmapDrive env n s =
    (Ok (match os_RunSubst env (clock s) (UnmapDrive_command n) with
         | Some (Some exitCode) => if (exitCode =? 0)%Z then 0%Z else 1%Z
         | _ => 1%Z
         end),
     mkState (pOrderedSubstList s) (S (clock s)),
     [EvSubst (UnmapDrive_command n) (os_RunSubst env (clock s) (UnmapDrive_command n))]).
Proof.
  unfold UnmapDrive, bind. rewrite MapUnmapSubstExecute_run. simpl. reflexivity.
Qed.

(** ** Observations and concatenation *)

Lemma acquired_app e1 e2 : acquired (e1 ++ e2) = acquired e1 ++ acquired e2.
Proof. apply omap_app. Qed.

Lemma opened_paths_app e1 e2 : opened_paths (e1 ++ e2) = opened_paths e1 ++ opened_paths e2.
Proof. apply omap_app. Qed.

Lemma subst_commands_app e1 e2 :
  subst_commands (e1 ++ e2) = subst_commands e1 ++ subst_commands e2.
Proof. apply omap_app. Qed.

Lemma mapped_letters_app e1 e2 :
  mapped_letters (e1 ++ e2) = mapped_letters e1 ++ mapped_letters e2.
Proof. apply omap_app. Qed.

Lemma closed_handles_app e1 e2 :
  closed_handles (e1 ++ e2) = closed_handles e1 ++ closed_handles e2.
Proof. apply omap_app. Qed.

Lemma sleeps_app e1 e2 : sleeps (e1 ++ e2) = sleeps e1 ++ sleeps e2.
Proof. apply omap_app. Qed.

Lemma log_writes_app e1 e2 : log_writes (e1 ++ e2) = log_writes e1 ++ log_writes e2.
Proof. apply omap_app. Qed.

Lemma omap_quiet {B} (f : Event -> option B) (es : list Event) :
  (forall e, quiet e -> f e = None) -> Forall quiet es -> omap f es = [].
Proof.
  intros Hf. induction 1 as [|e es He _ IH]; simpl; [reflexivity|].
  rewrite (Hf e He). exact IH.
Qed.

Lemma quiet_acquired es : Forall quiet es -> acquired es = [].
Proof. apply omap_quiet. intros [] H; simpl in *; try reflexivity; contradiction. Qed.

Lemma quiet_opened_paths es : Forall quiet es -> opened_paths es = [].
Proof. apply omap_quiet. intros [] H; simpl in *; try reflexivity; contradiction. Qed.

Lemma quiet_subst_commands es : Forall quiet es -> subst_commands es = [].
Proof. apply omap_quiet. intros [] H; simpl in *; try reflexivity; contradiction. Qed.

Lemma quiet_mapped_letters es : Forall quiet es -> mapped_letters es = [].
Proof. apply omap_quiet. intros [] H; simpl in *; try reflexivity; contradiction. Qed.

Lemma quiet_closed_handles es : Forall quiet es -> closed_handles es = [].
Proof. apply omap_quiet. intros [] H; simpl in *; try reflexivity; contradiction. Qed.

Lemma quiet_sleeps es : Forall quiet es -> sleeps es = [].
Proof. apply omap_quiet. intros [] H; simpl in *; try reflexivity; contradiction. Qed.

Lemma ends_with_app ev e1 e2 : ends_with ev e2 -> ends_with ev (e1 ++ e2).
Proof. intros [pre ->]. exists (e1 ++ pre). rewrite app_assoc. reflexivity. Qed.

Lemma ends_with_cons ev x es : ends_with ev es -> ends_with ev (x :: es).
Proof. apply (ends_with_app ev [x]). Qed.

Lemma ends_with_one ev : ends_with ev [ev].
Proof. exists []. reflexivity. Qed.

(** ** Views and updates of the table *)

Lemma view_insert {B} (f : SUBST_NODE -> B) (t : gmap nat SUBST_NODE) i n n' :
  t !! i = Some n -> f n' = f n -> f <$> <[i := n']> t = f <$> t.
Proof.
  intros Hi Hf. rewrite fmap_insert, Hf.
  apply insert_id. rewrite lookup_fmap, Hi. reflexivity.
Qed.

Lemma view_lookup {B} (f : SUBST_NODE -> B) (t t' : gmap nat SUBST_NODE) i :
  f <$> t' = f <$> t -> f <$> (t' !! i) = f <$> (t !! i).
Proof. intros H. rewrite <- !lookup_fmap, H. reflexivity. Qed.

Lemma locked_view_identity (t t' : gmap nat SUBST_NODE) :
  locked_view <$> t' = locked_view <$> t -> identity_view <$> t' = identity_view <$> t.
Proof.
  intros H. apply map_eq. intros i. rewrite !lookup_fmap.
  pose proof (view_lookup locked_view t t' i H) as Hi.
  destruct (t' !! i) as [n'|], (t !! i) as [n|]; simpl in *; try congruence.
  unfold locked_view, identity_view in *. congruence.
Qed.

Lemma wp_MapUnmapSubstExecute env cmd s Q :
  Q (Ok (subst_result (os_RunSubst env (clock s) cmd)))
    (mkState (pOrderedSubstList s) (S (clock s)))
    [EvSubst cmd (os_RunSubst env (clock s) cmd)] ->
  wp (MapUnmapSubstExecute env cmd) s Q.
Proof.
  intros H. eapply wp_run; [apply MapUnmapSubstExecute_run|exact H].
Qed.

Lemma wp_UnmapDrive env n s Q :
  Q (Ok (subst_result (os_RunSubst env (clock s) (UnmapDrive_command n))))
    (mkState (pOrderedSubstList s) (S (clock s)))
    [EvSubst (UnmapDrive_command n) (os_RunSubst env (clock s) (UnmapDrive_command n))] ->
  wp (UnmapDrive env n) s Q.
Proof.
  intros H. eapply wp_run; [apply UnmapDrive_run|exact H].
Qed.

Lemma wp_MapDrive env n s Q :
  match szSourceDirectory n with
  | Some [] => Q Abort s [EvThrow length_error]
  | Some src =>
      Q (Ok 0%Z) (mkState (pOrderedSubstList s) (S (clock s)))
        [EvSubst (MapDrive_command (szDriveLetter n) src)
           (os_RunSubst env (clock s) (MapDrive_command (szDriveLetter n) src))]
  | None => Q Abort s []
  end ->
  wp (MapDrive env n) s Q.
Proof.
  destruct (szSourceDirectory n) as [[|c src]|] eqn:Hsrc; intros H.
  - eapply wp_run; [apply MapDrive_empty; exact Hsrc|exact H].
  - eapply wp_run; [apply MapDrive_run; [exact Hsrc|discriminate]|exact H].
  - unfold MapDrive. rewrite Hsrc. apply wp_abort. exact H.
Qed.

(** Symbolic execution through the primitives and the subst tool. *)
Ltac wp_more :=
  repeat first
    [ wp_prim
    | lazymatch goal with
      | |- wp (MapUnmapSubstExecute _ _) _ _ => apply wp_MapUnmapSubstExecute
      | |- wp (UnmapDrive _ _) _ _ => apply wp_UnmapDrive
      | |- wp (MapDrive _ _) _ _ => apply wp_MapDrive
      end ].

(** ** GetMappedPaths *)

Lemma with_trailing_separator_length p :
  length (with_trailing_separator p) <= S (length p).
Proof.
  unfold with_trailing_separator. destruct (_ =? _)%Z; [lia|].
  rewrite length_app. simpl. lia.
Qed.

(** The destination of the mapped path is always large enough. *)
Lemma mapped_path_fits l off :
  (length (drop off (with_trailing_separator l)) <? length l + 2)%nat = true.
Proof.
  apply Nat.ltb_lt. rewrite length_drop.
  pose proof (with_trailing_separator_length l). lia.
Qed.

Lemma zero_past_end (chBuf : list Z) i :
  length chBuf <= i -> (nth i chBuf 0 =? 0)%Z = true.
Proof. intros H. rewrite nth_overflow by exact H. reflexivity. Qed.

Ltac enum_contradiction :=
  exfalso; unfold wcslen in *;
  match goal with
  | H : (length (drop _ (with_trailing_separator _)) <? _)%nat = false |- _ =>
      rewrite mapped_path_fits in H; discriminate H
  | H : (nth ?i ?b 0 =? 0)%Z = false, L : length ?b <= _ |- _ =>
      rewrite zero_past_end in H by lia; discriminate H
  end.

Ltac enum_side :=
  split;
  [ first [ reflexivity
          | eapply view_insert; [eassumption | reflexivity]
          | idtac ]
  | split;
    [ repeat constructor
    | first [ intros _; exact I | intros _; reflexivity | intros _; apply ends_with_one
            | intros Hlen; enum_contradiction | idtac ] ] ].

Lemma parse_records_spec env fuel chBuf : forall i s,
  wp (parse_records env fuel chBuf i) s (fun o s' e =>
    locked_view <$> pOrderedSubstList s' = locked_view <$> pOrderedSubstList s /\
    Forall quiet e /\
    (length chBuf <= i + fuel ->
     match o with
     | Ok _ => True
     | Return c => c = 1%Z
     | Abort => ends_with (EvUndefined back_on_empty_string) e
     | Timeout => False
     end)).
Proof.
  induction fuel as [|fuel IH]; intros i s; simpl.
  - wp_auto; simpl; enum_side.
    all: enum_contradiction.
  - wp_auto; simpl.
    all: try (eapply wp_mono; [apply IH|]; cbv beta; simpl;
              intros o s' e (Hview & Hquiet & Hfuel)).
    all: enum_side.
    all: try enum_contradiction.
    all: try (rewrite Hview).
    all: try first [ reflexivity | eapply view_insert; [eassumption | reflexivity] ].
    all: try exact Hquiet.
    all: try (intros Hlen;
              assert (Ho : length chBuf <= i + GET_PATH_TARGET_OFFSET + n + 2 + fuel)
                by (unfold GET_PATH_TARGET_OFFSET; lia);
              specialize (Hfuel Ho); destruct o; try exact Hfuel;
              apply ends_with_app; exact Hfuel).
Qed.

Lemma read_pipe_spec env reads : forall chBuf s,
  wp (read_pipe env reads chBuf) s (fun o s' e =>
    locked_view <$> pOrderedSubstList s' = locked_view <$> pOrderedSubstList s /\
    Forall quiet e /\
    match o with
    | Ok _ => True
    | Return c => c = 1%Z
    | Abort => ends_with (EvUndefined back_on_empty_string) e
    | Timeout => False
    end).
Proof.
  induction reads as [|[bSuccess data] reads IH]; intros chBuf s; simpl.
  - wp_auto. split; [reflexivity|]. split; [constructor|exact I].
  - wp_auto.
    + split; [reflexivity|]. split; [constructor|exact I].
    + eapply wp_mono; [apply parse_records_spec|]. cbv beta.
      intros o s1 e1 (Hview & Hquiet & Hfuel).
      specialize (Hfuel ltac:(simpl; lia)).
      destruct o as [i| | |]; try contradiction; unfold then_.
      * wp_auto.
        -- rewrite app_nil_r. split; [assumption|]. split; [assumption|exact I].
        -- eapply wp_mono; [apply IH|]. cbv beta.
           intros o s2 e2 (Hview2 & Hquiet2 & Ho).
           split; [congruence|]. split; [apply Forall_app; split; assumption|].
           destruct o; try exact Ho. apply ends_with_app. exact Ho.
      * split; [assumption|]. split; assumption.
      * split; [assumption|]. split; assumption.
Qed.

(** [GetMappedPaths] returns 0 or 1, or stops at a record with an empty
    target; it touches nothing but the mapped paths, and it only prints
    and enumerates. *)
Lemma GetMappedPaths_spec env s :
  wp (GetMappedPaths env) s (fun o s' e =>
    (o = Ok 0%Z \/ o = Ok 1%Z \/
     (o = Abort /\ ends_with (EvUndefined back_on_empty_string) e)) /\
    locked_view <$> pOrderedSubstList s' = locked_view <$> pOrderedSubstList s /\
    Forall quiet e).
Proof.
  unfold GetMappedPaths. wp_auto; simpl.
  1-4: split; [right; left; reflexivity|]; split; [reflexivity|]; repeat constructor.
  eapply wp_mono; [apply read_pipe_spec|]. cbv beta.
  intros o s1 e1 (Hview & Hquiet & Ho).
  destruct o as [[]| | |]; try contradiction; unfold then_.
  - wp_auto. simpl. split; [left; reflexivity|]. split; [exact Hview|].
    constructor; [exact I|]. rewrite app_nil_r. exact Hquiet.
  - simpl. subst code. split; [right; left; reflexivity|]. split; [exact Hview|].
    constructor; [exact I | exact Hquiet].
  - simpl. split; [|split; [exact Hview|constructor; [exact I | exact Hquiet]]].
    right. right. split; [reflexivity|]. apply ends_with_cons. exact Ho.
Qed.

(** ** Lists of events: where a given event can sit *)

Lemma lock_events_no_subst es : Forall lock_event es -> subst_commands es = [].
Proof.
  induction 1 as [|e es He _ IH]; simpl; [reflexivity|].
  destruct e; simpl in *; try contradiction; exact IH.
Qed.

Lemma lock_events_no_close es : Forall lock_event es -> closed_handles es = [].
Proof.
  induction 1 as [|e es He _ IH]; simpl; [reflexivity|].
  destruct e; simpl in *; try contradiction; exact IH.
Qed.

Lemma lock_events_no_map es : Forall lock_event es -> mapped_letters es = [].
Proof.
  induction 1 as [|e es He _ IH]; simpl; [reflexivity|].
  destruct e; simpl in *; try contradiction; exact IH.
Qed.

Lemma fatal_ok_nil P : fatal_ok P [].
Proof. intros [|? ?] ? ? ? H; discriminate H. Qed.

Lemma fatal_ok_mono (P Q : Prop) es : (P -> Q) -> fatal_ok P es -> fatal_ok Q es.
Proof.
  intros HPQ H pre path err post Heq Herr Hnil.
  destruct (H pre path err post Heq Herr Hnil) as [HP Hpost]. auto.
Qed.

Lemma guarded_nil : guarded [].
Proof. intros [|? ?] ? ? H; discriminate H. Qed.

Lemma guarded_app e1 e2 : guarded e1 -> guarded e2 -> guarded (e1 ++ e2).
Proof.
  intros H1 H2 pre ev post Heq Hev.
  apply app_eq_app in Heq. destruct Heq as [l [[-> Hl]|[-> Hl]]].
  - destruct l as [|x l]; simpl in Hl.
    + exfalso. apply (H2 [] ev post); [symmetry; exact Hl|exact Hev|reflexivity].
    + injection Hl as <- ->. apply (H1 pre ev l); [reflexivity|exact Hev].
  - rewrite subst_commands_app. intros Hnil.
    apply app_eq_nil in Hnil. destruct Hnil as [_ Hnil].
    revert Hnil. apply (H2 l ev post); [exact Hl|exact Hev].
Qed.

Lemma guarded_no_open es : opened_paths es = [] -> guarded es.
Proof.
  intros Hno pre ev post -> Hev. exfalso.
  unfold opened_paths in Hno. rewrite omap_app in Hno.
  apply app_eq_nil in Hno. destruct Hno as [_ Hno]. simpl in Hno.
  destruct (opened_path ev); [discriminate Hno|contradiction].
Qed.

Lemma guarded_subst cmd reply es : guarded (EvSubst cmd reply :: es).
Proof.
  intros [|x pre] ev post Heq Hev.
  - injection Heq as <- _. simpl in Hev. contradiction.
  - injection Heq as <- _. simpl. discriminate.
Qed.

Lemma guarded_fatal_ok P es : guarded es -> fatal_ok P es.
Proof.
  intros Hg pre path err post Heq _ Hnil. exfalso.
  apply (Hg pre _ post Heq); [simpl; discriminate|exact Hnil].
Qed.

Lemma fatal_ok_app P e1 e2 : fatal_ok False e1 -> fatal_ok P e2 -> fatal_ok P (e1 ++ e2).
Proof.
  intros H1 H2 pre path err post Heq Herr Hnil.
  apply app_eq_app in Heq. destruct Heq as [l [[-> Hl]|[-> Hl]]].
  - destruct l as [|x l]; simpl in Hl.
    + apply (H2 [] path err post); [symmetry; exact Hl|exact Herr|reflexivity].
    + injection Hl as <- ->.
      destruct (H1 pre path err l eq_refl Herr Hnil) as [[] _].
  - rewrite subst_commands_app in Hnil. apply app_eq_nil in Hnil.
    destruct Hnil as [_ Hnil]. apply (H2 l path err post Hl Herr Hnil).
Qed.

(** An event in front that is not a failed open leaves the property as it
    is. *)
Lemma fatal_ok_cons P ev es :
  (forall path err, ev = EvCreateFile path INVALID_HANDLE_VALUE err ->
                    err = ERROR_SHARING_VIOLATION) ->
  fatal_ok P es -> fatal_ok P (ev :: es).
Proof.
  intros Hev H pre path err post Heq Herr Hnil.
  destruct pre as [|x pre]; simpl in Heq.
  - injection Heq as -> ->. specialize (Hev path err eq_refl). contradiction.
  - injection Heq as <- ->. apply (H pre path err post eq_refl Herr).
    destruct ev; simpl in Hnil; try exact Hnil. discriminate Hnil.
Qed.

(** A failed open in front, followed by the message alone. *)
Lemma fatal_ok_fatal (P : Prop) path err :
  P ->
  fatal_ok P [EvCreateFile path INVALID_HANDLE_VALUE err; EvPrint fatal_lock_message].
Proof.
  intros HP pre p e post Heq _ _.
  destruct pre as [|x [|y [|z pre]]]; simpl in Heq; try discriminate Heq.
  injection Heq as _ _ <-. split; [exact HP|reflexivity].
Qed.

(** ** The first loop *)

(** Rewrites the tests that symbolic execution has decided, then turns
    them into equations and disequations. *)
Ltac decided :=
  repeat match goal with
         | H : ?b = true |- context [if ?b then _ else _] => rewrite H
         | H : ?b = false |- context [if ?b then _ else _] => rewrite H
         end;
  repeat match goal with
         | H : (_ =? _)%Z = true |- _ => apply Z.eqb_eq in H
         | H : (_ =? _)%Z = false |- _ => apply Z.eqb_neq in H
         end.

Ltac not_a_failed_open :=
  let H := fresh in
  intros ? ? H; first [discriminate H | injection H as ? ? ?; subst; congruence].

Ltac fatal_ok_tac :=
  repeat first
    [ apply fatal_ok_nil
    | match goal with
      | H : ?h = INVALID_HANDLE_VALUE
        |- fatal_ok _ [EvCreateFile _ ?h _; EvPrint _] =>
          rewrite H; apply fatal_ok_fatal; reflexivity
      | H : fatal_ok _ ?e |- fatal_ok _ ?e =>
          first [exact H | refine (fatal_ok_mono _ _ _ _ H); intros; congruence]
      | H : fatal_ok _ ?e |- fatal_ok _ (?e ++ _) =>
          apply fatal_ok_app;
          [refine (fatal_ok_mono _ _ _ _ H); intros; congruence|]
      end
    | apply fatal_ok_cons; [not_a_failed_open|] ].

Lemma acquire_source_lock_spec env fuel path : forall s,
  wp (acquire_source_lock env fuel path) s (fun o s' e =>
    pOrderedSubstList s' = pOrderedSubstList s /\
    Forall lock_event e /\
    fatal_ok (o = Return 1) e /\
    match o with
    | Ok h => h <> INVALID_HANDLE_VALUE /\ acquired e = [path]
    | Return c => c = 1%Z /\ acquired e = []
    | Timeout => acquired e = []
    | Abort => False
    end).
Proof.
  induction fuel as [|fuel IH]; intros s; simpl.
  - wp_auto; simpl; decided.
    all: split; [reflexivity|].
    all: split; [repeat constructor|].
    all: split; [fatal_ok_tac|].
    all: auto.
  - wp_auto; simpl; decided.
    1: { eapply wp_mono; [apply IH|]. cbv beta. simpl.
         intros o s' e (Ht & Hev & Hfatal & Ho).
         split; [exact Ht|].
         split; [repeat constructor; exact Hev|].
         split; [fatal_ok_tac|].
         decided. exact Ho. }
    all: split; [reflexivity|].
    all: split; [repeat constructor|].
    all: split; [fatal_ok_tac|].
    all: auto.
Qed.

Lemma lock_source_spec env fuel i s :
  wp (lock_source env fuel i) s (fun o s' e =>
    identity_view <$> pOrderedSubstList s' = identity_view <$> pOrderedSubstList s /\
    (forall j, j <> i -> pOrderedSubstList s' !! j = pOrderedSubstList s !! j) /\
    Forall lock_event e /\
    fatal_ok (o = Return 1) e /\
    match o with
    | Ok _ =>
        acquired e = lock_paths_at (pOrderedSubstList s) [i] /\
        (forall n, pOrderedSubstList s' !! i = Some n -> hLockFile n <> INVALID_HANDLE_VALUE)
    | Return c => c = 1%Z /\ acquired e = []
    | Timeout => acquired e = []
    | Abort => False
    end).
Proof.
  unfold lock_source. wp_auto; simpl.
  all: try lazymatch goal with
       | |- wp (acquire_source_lock _ _ _) _ _ =>
           eapply wp_mono; [apply acquire_source_lock_spec|]; cbv beta;
           intros o s1 e1 (Ht & Hev & Hfatal & Ho);
           destruct o as [h| | |]; unfold then_; try contradiction;
           wp_auto; simpl
       end.
  all: try rewrite Ht.
  all: split; [first [reflexivity | eapply view_insert; [eassumption | reflexivity]]|].
  all: split; [intros j Hj; rewrite ?lookup_insert_ne by lia; reflexivity|].
  all: split; [repeat first [exact Hev | constructor; try exact I
                            | apply Forall_app; split]|].
  all: split; [fatal_ok_tac|].
  all: try (split; reflexivity).
  all: try exact Ho.
  1-2: destruct Ho as [Hh Hacq]; split;
       [ rewrite acquired_app, Hacq; unfold lock_paths_at; simpl;
         rewrite Heqo; simpl; unfold lock_path_of, source_of; rewrite Heqo0;
         reflexivity
       | intros n; simpl; rewrite lookup_insert_eq; intros [= <-]; exact Hh ].
  unfold lock_paths_at; simpl. rewrite Heqo. split; [reflexivity|discriminate].
Qed.

Lemma lock_paths_at_cons (t : gmap nat SUBST_NODE) i idxs :
  lock_paths_at t (i :: idxs) = lock_paths_at t [i] ++ lock_paths_at t idxs.
Proof.
  unfold lock_paths_at. simpl. destruct (t !! i); reflexivity.
Qed.

Lemma lock_paths_at_view (t t' : gmap nat SUBST_NODE) idxs :
  identity_view <$> t' = identity_view <$> t ->
  lock_paths_at t' idxs = lock_paths_at t idxs.
Proof.
  intros Hview. induction idxs as [|i idxs IH]; [reflexivity|].
  rewrite (lock_paths_at_cons t'), (lock_paths_at_cons t), IH. f_equal.
  unfold lock_paths_at. simpl.
  pose proof (view_lookup identity_view t t' i Hview) as Hi.
  destruct (t' !! i) as [n'|], (t !! i) as [n|]; simpl in *; try discriminate Hi;
    [|reflexivity].
  unfold identity_view in Hi. inversion Hi as [[Hletter Hsrc]].
  unfold lock_path_of, source_of. rewrite Hsrc. reflexivity.
Qed.

(** The first loop over a list of distinct indices: the locks it has
    acquired are those of the slots at these indices, in the order of the
    list, all of them if it runs to its end. *)
Lemma lock_each_spec env fuel idxs : NoDup idxs -> forall s,
  wp (for_each idxs (lock_source env fuel)) s (fun o s' e =>
    identity_view <$> pOrderedSubstList s' = identity_view <$> pOrderedSubstList s /\
    (forall j, j ∉ idxs -> pOrderedSubstList s' !! j = pOrderedSubstList s !! j) /\
    Forall lock_event e /\
    fatal_ok (o = Return 1) e /\
    acquired e `prefix_of` lock_paths_at (pOrderedSubstList s) idxs /\
    match o with
    | Ok _ =>
        acquired e = lock_paths_at (pOrderedSubstList s) idxs /\
        (forall j n, j ∈ idxs -> pOrderedSubstList s' !! j = Some n ->
                     hLockFile n <> INVALID_HANDLE_VALUE)
    | Return c => c = 1%Z
    | Timeout => True
    | Abort => False
    end).
Proof.
  induction idxs as [|i idxs IH]; intros Hnodup s; simpl.
  - wp_auto. split; [reflexivity|]. split; [reflexivity|]. split; [constructor|].
    split; [apply fatal_ok_nil|]. split; [apply prefix_nil|].
    split; [reflexivity|]. intros j n Hj. apply elem_of_nil in Hj. contradiction.
  - apply NoDup_cons in Hnodup. destruct Hnodup as [Hi Hnodup].
    wp_auto. eapply wp_mono; [apply lock_source_spec|]. cbv beta.
    intros o s1 e1 (Hview & Hframe & Hev & Hfatal & Ho).
    rewrite lock_paths_at_cons.
    destruct o as [[]| | |]; unfold then_; try contradiction.
    + destruct Ho as [Hacq Hvalid].
      eapply wp_mono; [apply (IH Hnodup)|]. cbv beta.
      intros o s2 e2 (Hview2 & Hframe2 & Hev2 & Hfatal2 & Hpre2 & Ho2).
      rewrite (lock_paths_at_view _ _ _ Hview) in Hpre2, Ho2.
      split; [congruence|].
      split; [intros j Hj; apply not_elem_of_cons in Hj; destruct Hj as [Hji Hj];
              rewrite Hframe2 by exact Hj; apply Hframe; exact Hji|].
      split; [apply Forall_app; split; assumption|].
      split; [fatal_ok_tac|].
      rewrite acquired_app, Hacq.
      split; [apply prefix_app; exact Hpre2|].
      destruct o as [[]| | |]; try exact Ho2.
      destruct Ho2 as [Hacq2 Hvalid2]. split; [rewrite Hacq2; reflexivity|].
      intros j n Hj Hn. apply elem_of_cons in Hj. destruct Hj as [->|Hj].
      * rewrite Hframe2 in Hn by exact Hi. exact (Hvalid n Hn).
      * exact (Hvalid2 j n Hj Hn).
    + destruct Ho as [-> Hacq].
      split; [exact Hview|].
      split; [intros j Hj; apply not_elem_of_cons in Hj; apply Hframe; apply Hj|].
      split; [exact Hev|]. split; [fatal_ok_tac|].
      rewrite Hacq. split; [apply prefix_nil|reflexivity].
    + split; [exact Hview|].
      split; [intros j Hj; apply not_elem_of_cons in Hj; apply Hframe; apply Hj|].
      split; [exact Hev|]. split; [fatal_ok_tac|].
      rewrite Ho. split; [apply prefix_nil|exact I].
Qed.

(** ** The second loop *)

Lemma is_map_command_map letter src : is_map_command (MapDrive_command letter src) = true.
Proof. reflexivity. Qed.

Lemma nth_7_map letter src : nth 7 (MapDrive_command letter src) 0%Z = letter.
Proof. reflexivity. Qed.

Lemma is_map_command_unmap n : is_map_command (UnmapDrive_command n) = false.
Proof. reflexivity. Qed.

Lemma letter_at_view (t t' : gmap nat SUBST_NODE) i :
  locked_view <$> t' = locked_view <$> t -> letter_at t' i = letter_at t i.
Proof.
  intros Hview. unfold letter_at.
  pose proof (view_lookup locked_view t t' i Hview) as Hi.
  destruct (t' !! i) as [n'|], (t !! i) as [n|]; simpl in *; try discriminate Hi;
    [|reflexivity].
  unfold locked_view in Hi. inversion Hi as [[Hletter Hsrc Hlock]].
  rewrite Hletter. reflexivity.
Qed.

Lemma closes_own_nil : closes_own [].
Proof. intros h Hh. apply elem_of_nil in Hh. contradiction. Qed.

Lemma closes_own_app e1 e2 : closes_own e1 -> closes_own e2 -> closes_own (e1 ++ e2).
Proof.
  intros H1 H2 h Hh. rewrite closed_handles_app in Hh.
  apply elem_of_app in Hh. destruct Hh as [Hh|Hh].
  - destruct (H1 h Hh) as (n & err & Hin). exists n, err.
    apply elem_of_app. left. exact Hin.
  - destruct (H2 h Hh) as (n & err & Hin). exists n, err.
    apply elem_of_app. right. exact Hin.
Qed.

Lemma closes_own_no_close es : closed_handles es = [] -> closes_own es.
Proof. intros Hno h Hh. rewrite Hno in Hh. apply elem_of_nil in Hh. contradiction. Qed.

Lemma closes_own_repair n h err cmd reply :
  closes_own [EvCreateFile (drive_lock_path n) h err; EvSubst cmd reply; EvCloseHandle h].
Proof.
  intros h' Hh. simpl in Hh. apply list_elem_of_singleton in Hh. subst h'.
  exists n, err. apply elem_of_cons. left. reflexivity.
Qed.

Arguments MapDrive_command : simpl never.
Arguments UnmapDrive_command : simpl never.
Arguments drive_lock_path : simpl never.
Arguments mappedDriveLocation : simpl never.

Ltac wp_enumerate :=
  lazymatch goal with
  | |- wp (GetMappedPaths _) _ _ =>
      eapply wp_mono; [apply GetMappedPaths_spec|]; cbv beta;
      intros ? ? ? (Ho & Hview & Hquiet); destruct Ho as [-> | [-> | [-> Hfault]]]
  | |- match ?x with _ => _ end => destruct x eqn:?
  end.

Ltac wp_map := repeat first [ progress wp_more | wp_enumerate ].

Ltac closes_tac :=
  repeat first
    [ assumption
    | apply closes_own_nil
    | apply closes_own_no_close; apply quiet_closed_handles; assumption
    | lazymatch goal with
      | |- closes_own (EvCreateFile (drive_lock_path ?n) ?h ?err
                         :: EvSubst ?c ?r :: EvCloseHandle ?h :: ?rest) =>
          apply (closes_own_app
                   [EvCreateFile (drive_lock_path n) h err; EvSubst c r; EvCloseHandle h]
                   rest);
          [apply closes_own_repair|]
      | |- closes_own (?x :: ?rest) =>
          apply (closes_own_app [x] rest);
          [apply closes_own_no_close; reflexivity|]
      | |- closes_own (?a ++ ?b) =>
          apply closes_own_app;
          [apply closes_own_no_close; apply quiet_closed_handles; assumption|]
      end ].

Lemma mapped_letters_cons ev es :
  mapped_letters (ev :: es) =
    match mapped_letter ev with Some l => l :: mapped_letters es | None => mapped_letters es end.
Proof. reflexivity. Qed.

Ltac letters_tac :=
  repeat first
    [ rewrite mapped_letters_app
    | rewrite quiet_mapped_letters by assumption
    | rewrite mapped_letters_cons; simpl mapped_letter;
      rewrite ?is_map_command_unmap, ?is_map_command_map, ?nth_7_map
    | rewrite app_nil_r
    | rewrite app_nil_l ].

Lemma map_drive_spec env fuel i : forall s,
  wp (map_drive env fuel i) s (fun o s' e =>
    locked_view <$> pOrderedSubstList s' = locked_view <$> pOrderedSubstList s /\
    guarded e /\
    Forall (fun l => letter_at (pOrderedSubstList s) i = Some l) (mapped_letters e) /\
    closes_own e /\
    match o with
    | Return c => c = 1%Z
    | _ => True
    end).
Proof.
  induction fuel as [|fuel IH]; intros s; simpl.
  - wp_map; simpl.
    all: split; [first [reflexivity | exact Hview]|].
    all: split; [first [apply guarded_nil | apply guarded_subst
                       | apply guarded_no_open; reflexivity]|].
    all: split; [letters_tac; repeat constructor; unfold letter_at;
                 rewrite Heqo; reflexivity|].
    all: split; [closes_tac|].
    all: first [exact I | reflexivity].
  - wp_map; simpl.
    all: try lazymatch goal with
         | |- wp (map_drive _ _ _) _ _ =>
             eapply wp_mono; [apply IH|]; cbv beta; simpl;
             intros o2 s2 e2 (Hview2 & Hg2 & Hl2 & Hc2 & Ho2);
             simpl in Hview;
             assert (Hl2' : Forall (fun l => letter_at (pOrderedSubstList s) i = Some l)
                              (mapped_letters e2))
               by (eapply Forall_impl; [exact Hl2|]; intros x Hx; simpl in Hx;
                   rewrite <- (letter_at_view _ _ i Hview); exact Hx);
             clear Hl2
         end.
    all: split; [first [reflexivity | exact Hview | congruence]|].
    all: split; [first [apply guarded_nil | apply guarded_subst
                       | apply guarded_no_open; reflexivity]|].
    all: split; [letters_tac; repeat first [exact Hl2' | constructor];
                 unfold letter_at; rewrite Heqo; reflexivity|].
    all: split; [closes_tac|].
    all: first [exact Ho2 | exact I | reflexivity].
Qed.

Lemma parsed_table_view (t t' : gmap nat SUBST_NODE) :
  identity_view <$> t' = identity_view <$> t -> parsed_table t -> parsed_table t'.
Proof.
  intros Hview Hp i n' Hi.
  pose proof (view_lookup identity_view t t' i Hview) as Hv.
  rewrite Hi in Hv. destruct (t !! i) as [n|] eqn:Hn; simpl in Hv; [|discriminate Hv].
  unfold identity_view in Hv. inversion Hv as [[Hletter Hsrc]].
  destruct (Hp i n Hn) as [Hl Hs]. rewrite Hletter, Hsrc. split; assumption.
Qed.

Lemma parsed_letter_at (t : gmap nat SUBST_NODE) i l :
  parsed_table t -> letter_at t i = Some l -> l = (65 + Z.of_nat i)%Z.
Proof.
  intros Hp Hl. unfold letter_at in Hl.
  destruct (t !! i) as [n|] eqn:Hn; simpl in Hl; [|discriminate Hl].
  injection Hl as <-. apply (Hp i n Hn).
Qed.

(** The second loop over the cells [k], [k+1], ...: the letters it binds
    come in ascending order, with repetitions for the retries. *)
Lemma map_each_spec env fuel n : forall k s,
  parsed_table (pOrderedSubstList s) ->
  wp (for_each (seq k n) (map_drive env fuel)) s (fun o s' e =>
    locked_view <$> pOrderedSubstList s' = locked_view <$> pOrderedSubstList s /\
    guarded e /\
    closes_own e /\
    StronglySorted Z.le (mapped_letters e) /\
    Forall (fun l => (65 + Z.of_nat k <= l)%Z) (mapped_letters e) /\
    match o with
    | Return c => c = 1%Z
    | _ => True
    end).
Proof.
  induction n as [|n IH]; intros k s Hp; simpl.
  - wp_auto. split; [reflexivity|]. split; [apply guarded_nil|].
    split; [apply closes_own_nil|]. repeat constructor.
  - wp_auto. eapply wp_mono; [apply map_drive_spec|]. cbv beta.
    intros o s1 e1 (Hview & Hg & Hl & Hc & Ho).
    assert (Hl1 : Forall (fun l => l = (65 + Z.of_nat k)%Z) (mapped_letters e1)).
    { eapply Forall_impl; [exact Hl|]. intros l. apply parsed_letter_at. exact Hp. }
    assert (Hsorted1 : StronglySorted Z.le (mapped_letters e1)).
    { clear -Hl1. induction Hl1 as [|x xs Hx Hxs IHxs]; constructor; [exact IHxs|].
      eapply Forall_impl; [exact Hxs|]. intros y ->. lia. }
    destruct o as [[]| | |]; unfold then_.
    + eapply wp_mono; [apply (IH (S k))|]; cbv beta.
      { apply (parsed_table_view (pOrderedSubstList s)); [|exact Hp].
        apply locked_view_identity. exact Hview. }
      intros o s2 e2 (Hview2 & Hg2 & Hc2 & Hs2 & Hb2 & Ho2).
      split; [congruence|]. split; [apply guarded_app; assumption|].
      split; [apply closes_own_app; assumption|].
      rewrite mapped_letters_app.
      split; [|split; [|exact Ho2]].
      * apply StronglySorted_app_2; [|exact Hsorted1|exact Hs2].
        intros x1 x2 Hx1 Hx2.
        rewrite Forall_forall in Hl1, Hb2.
        rewrite (Hl1 x1 Hx1). specialize (Hb2 x2 Hx2). lia.
      * apply Forall_app. split.
        -- eapply Forall_impl; [exact Hl1|]. intros y ->. lia.
        -- eapply Forall_impl; [exact Hb2|]. intros y Hy. simpl in Hy. lia.
    + split; [exact Hview|]. split; [exact Hg|]. split; [exact Hc|].
      split; [exact Hsorted1|]. split; [|exact Ho].
      eapply Forall_impl; [exact Hl1|]. intros y ->. lia.
    + split; [exact Hview|]. split; [exact Hg|]. split; [exact Hc|].
      split; [exact Hsorted1|]. split; [|exact I].
      eapply Forall_impl; [exact Hl1|]. intros y ->. lia.
    + split; [exact Hview|]. split; [exact Hg|]. split; [exact Hc|].
      split; [exact Hsorted1|]. split; [|exact I].
      eapply Forall_impl; [exact Hl1|]. intros y ->. lia.
Qed.

(** ** The last loop *)

Lemma cleanup_events_no_open es : Forall cleanup_event es -> opened_paths es = [].
Proof.
  induction 1 as [|e es He _ IH]; simpl; [reflexivity|].
  destruct e; simpl in *; try contradiction; exact IH.
Qed.

Lemma cleanup_events_no_map es :
  Forall cleanup_event es ->
  Forall (fun cmd => is_map_command cmd = false) (subst_commands es) ->
  mapped_letters es = [].
Proof.
  induction 1 as [|e es He _ IH]; simpl; [reflexivity|].
  destruct e; simpl in *; try contradiction; try exact IH.
  intros Hcmds. apply Forall_cons in Hcmds. destruct Hcmds as [Hcmd Hcmds].
  unfold mapped_letters. simpl. rewrite Hcmd. apply IH. exact Hcmds.
Qed.

Lemma nodes_at_cons (t : gmap nat SUBST_NODE) i idxs :
  nodes_at t (i :: idxs) = nodes_at t [i] ++ nodes_at t idxs.
Proof. unfold nodes_at. simpl. destruct (t !! i); reflexivity. Qed.

Lemma nodes_at_app (t : gmap nat SUBST_NODE) idxs1 idxs2 :
  nodes_at t (idxs1 ++ idxs2) = nodes_at t idxs1 ++ nodes_at t idxs2.
Proof. apply omap_app. Qed.

(** One slot whose lock handle is valid: a line in the lock file, the
    unmapping, the handle closed. *)
Lemma cleanup_slot_valid env i s :
  Forall valid_lock (nodes_at (pOrderedSubstList s) [i]) ->
  wp (cleanup_slot env i) s (fun o s' e =>
    o = Ok tt /\
    pOrderedSubstList s' = pOrderedSubstList s /\
    Forall cleanup_event e /\
    subst_commands e = UnmapDrive_command <$> nodes_at (pOrderedSubstList s) [i] /\
    closed_handles e = hLockFile <$> nodes_at (pOrderedSubstList s) [i] /\
    Forall (fun h => h <> INVALID_HANDLE_VALUE) (log_writes e)).
Proof.
  unfold cleanup_slot, nodes_at. simpl. intros Hvalid.
  wp_more; simpl; decided.
  all: try (rewrite ?Heqo in Hvalid; simpl in Hvalid; apply Forall_cons in Hvalid;
            destruct Hvalid as [Hvalid _]; unfold valid_lock in Hvalid).
  all: try congruence.
  all: try (simpl in *; discriminate).
  all: rewrite ?Heqo; simpl.
  all: split; [reflexivity|].
  all: split; [reflexivity|].
  all: split; [repeat constructor|].
  all: split; [reflexivity|].
  all: split; [reflexivity|].
  all: repeat constructor; assumption.
Qed.

(** One slot whose lock handle is invalid: the unmapping, then the
    assertion; a release build returns 1, and nothing is written to the
    lock file because [LogToFile] needs the handle. *)
Lemma cleanup_slot_invalid env i n s :
  pOrderedSubstList s !! i = Some n ->
  hLockFile n = INVALID_HANDLE_VALUE ->
  wp (cleanup_slot env i) s (fun o s' e =>
    o = (if ndebug env then Return 1 else Abort) /\
    pOrderedSubstList s' = pOrderedSubstList s /\
    Forall cleanup_event e /\
    subst_commands e = [UnmapDrive_command n] /\
    closed_handles e = [] /\
    log_writes e = []).
Proof.
  intros Hn Hinvalid. unfold cleanup_slot.
  wp_more; simpl; decided.
  all: rewrite Hn in *.
  all: try discriminate.
  all: match goal with H : Some _ = Some _ |- _ => injection H as <- end.
  all: try congruence.
  all: repeat match goal with H : ndebug _ = _ |- _ => rewrite H end.
  all: split; [reflexivity|].
  all: split; [reflexivity|].
  all: split; [repeat constructor|].
  all: split; [reflexivity|]; split; reflexivity.
Qed.

(** The last loop over cells that all hold a valid lock handle. *)
Lemma cleanup_each_valid env idxs : forall s,
  Forall valid_lock (nodes_at (pOrderedSubstList s) idxs) ->
  wp (for_each idxs (cleanup_slot env)) s (fun o s' e =>
    o = Ok tt /\
    pOrderedSubstList s' = pOrderedSubstList s /\
    Forall cleanup_event e /\
    subst_commands e = UnmapDrive_command <$> nodes_at (pOrderedSubstList s) idxs /\
    closed_handles e = hLockFile <$> nodes_at (pOrderedSubstList s) idxs /\
    Forall (fun h => h <> INVALID_HANDLE_VALUE) (log_writes e)).
Proof.
  induction idxs as [|i idxs IH]; intros s Hvalid; cbn [for_each].
  - wp_auto. repeat split; constructor.
  - rewrite nodes_at_cons in Hvalid. apply Forall_app in Hvalid.
    destruct Hvalid as [Hi Hvalid].
    wp_auto. eapply wp_mono; [apply (cleanup_slot_valid env i s Hi)|]. cbv beta.
    intros o s1 e1 (-> & Ht & Hev & Hsubst & Hclosed & Hlog). unfold then_.
    rewrite <- Ht in Hvalid.
    eapply wp_mono; [apply (IH s1 Hvalid)|]. cbv beta.
    intros o s2 e2 (-> & Ht2 & Hev2 & Hsubst2 & Hclosed2 & Hlog2).
    split; [reflexivity|]. split; [congruence|].
    split; [apply Forall_app; split; assumption|].
    rewrite subst_commands_app, closed_handles_app, Hsubst, Hclosed, Hsubst2, Hclosed2.
    rewrite Ht. rewrite (nodes_at_cons _ i idxs), !fmap_app.
    split; [reflexivity|]. split; [reflexivity|].
    rewrite log_writes_app. apply Forall_app. split; assumption.
Qed.

(** The last loop when the first invalid lock handle sits in cell [i]. *)
Lemma cleanup_each_invalid env before i after n : forall s,
  Forall valid_lock (nodes_at (pOrderedSubstList s) before) ->
  pOrderedSubstList s !! i = Some n ->
  hLockFile n = INVALID_HANDLE_VALUE ->
  wp (for_each (before ++ i :: after) (cleanup_slot env)) s (fun o s' e =>
    o = (if ndebug env then Return 1 else Abort) /\
    pOrderedSubstList s' = pOrderedSubstList s /\
    subst_commands e
      = UnmapDrive_command <$> (nodes_at (pOrderedSubstList s) before ++ [n]) /\
    closed_handles e = hLockFile <$> nodes_at (pOrderedSubstList s) before /\
    Forall (fun h => h <> INVALID_HANDLE_VALUE) (log_writes e)).
Proof.
  induction before as [|j before IH]; intros s Hvalid Hn Hinvalid;
    cbn [for_each app].
  - wp_auto. eapply wp_mono; [apply (cleanup_slot_invalid env i n s Hn Hinvalid)|].
    cbv beta. intros o s1 e1 (-> & Ht & Hev & Hsubst & Hclosed & Hlog).
    unfold then_. rewrite Hlog.
    destruct (ndebug env); (split; [reflexivity|]; split; [exact Ht|];
      split; [exact Hsubst|]; split; [exact Hclosed|constructor]).
  - rewrite nodes_at_cons in Hvalid. apply Forall_app in Hvalid.
    destruct Hvalid as [Hj Hvalid].
    wp_auto. eapply wp_mono; [apply (cleanup_slot_valid env j s Hj)|]. cbv beta.
    intros o s1 e1 (-> & Ht & Hev & Hsubst & Hclosed & Hlog). unfold then_.
    rewrite <- Ht in Hvalid, Hn.
    eapply wp_mono; [apply (IH s1 Hvalid Hn Hinvalid)|]. cbv beta.
    intros o s2 e2 (-> & Ht2 & Hsubst2 & Hclosed2 & Hlog2).
    split; [reflexivity|]. split; [congruence|].
    rewrite subst_commands_app, closed_handles_app, log_writes_app.
    rewrite Hsubst, Hclosed, Hsubst2, Hclosed2, Ht.
    rewrite (nodes_at_cons _ j before), !fmap_app, <- !app_assoc.
    split; [reflexivity|]. split; [reflexivity|].
    apply Forall_app. split; [exact Hlog|exact Hlog2].
Qed.

(** ** The working directory of the child *)

Lemma starts_with_prefix (needle hay : list Z) :
  starts_with needle hay = true <-> needle `prefix_of` hay.
Proof.
  revert hay. induction needle as [|a needle IH]; intros hay; simpl.
  - split; [intros _; apply prefix_nil|reflexivity].
  - destruct hay as [|b hay].
    + split; [discriminate|]. intros H. apply prefix_nil_not in H. contradiction.
    + rewrite andb_true_iff, Z.eqb_eq, IH. split.
      * intros [-> H]. apply prefix_cons. exact H.
      * intros H. split; [apply (prefix_cons_inv_1 _ _ _ _ H)|].
        apply (prefix_cons_inv_2 _ _ _ _ H).
Qed.

(** [wcsstr(hay, needle) == hay] says that [needle] starts [hay]. *)
Lemma wcsstr_at_start {B} (hay needle : list Z) (yes no : B) :
  match wcsstr hay needle with Some 0 => yes | _ => no end
  = if starts_with needle hay then yes else no.
Proof.
  destruct hay as [|b hay]; simpl; destruct (starts_with needle _); try reflexivity.
  destruct (wcsstr hay needle); reflexivity.
Qed.

Lemma match_slot_run cur acc n src :
  szSourceDirectory n = Some src ->
  match_slot cur acc n =
    Some (if starts_with src cur && (fst acc <? length src)%nat
          then (length src, drive_root_plus (szDriveLetter n) (drop (length src) cur))
          else acc).
Proof.
  intros Hsrc. unfold match_slot. rewrite Hsrc, wcsstr_at_start. unfold wcslen.
  destruct (starts_with src cur); simpl; [|reflexivity].
  destruct (fst acc <? length src)%nat; reflexivity.
Qed.

(** Slots whose matching sources are all shorter than [len] leave the
    length of the best match below [len]. *)
Lemma find_start_directory_shorter (t : gmap nat SUBST_NODE) cur len : forall idxs acc,
  (forall j m, j ∈ idxs -> t !! j = Some m -> szSourceDirectory m <> None) ->
  (forall j m src', j ∈ idxs -> t !! j = Some m -> szSourceDirectory m = Some src' ->
                    src' `prefix_of` cur -> length src' < len) ->
  fst acc < len ->
  exists acc', find_start_directory t idxs cur acc = Some acc' /\ fst acc' < len.
Proof.
  induction idxs as [|j idxs IH]; intros acc Hsrc Hshort Hacc; simpl.
  - exists acc. split; [reflexivity|exact Hacc].
  - assert (Hsrc' : forall j' m, j' ∈ idxs -> t !! j' = Some m -> szSourceDirectory m <> None).
    { intros j' m Hj'. apply Hsrc. apply elem_of_cons. right. exact Hj'. }
    assert (Hshort' : forall j' m src', j' ∈ idxs -> t !! j' = Some m ->
              szSourceDirectory m = Some src' -> src' `prefix_of` cur -> length src' < len).
    { intros j' m src' Hj'. apply Hshort. apply elem_of_cons. right. exact Hj'. }
    destruct (t !! j) as [m|] eqn:Hm; [|apply IH; assumption].
    destruct (szSourceDirectory m) as [src'|] eqn:Hm'.
    + rewrite (match_slot_run cur acc m src' Hm').
      apply IH; [assumption|assumption|].
      destruct (starts_with src' cur) eqn:Hstart; simpl; [|exact Hacc].
      destruct (fst acc <? length src')%nat; [|exact Hacc]. simpl.
      apply (Hshort j m src'); [apply elem_of_cons; left; reflexivity|exact Hm|exact Hm'|].
      apply starts_with_prefix. exact Hstart.
    + exfalso. apply (Hsrc j m); [apply elem_of_cons; left; reflexivity|exact Hm|exact Hm'].
Qed.

(** Slots whose matching sources are no longer than the best match so far
    change nothing. *)
Lemma find_start_directory_no_longer (t : gmap nat SUBST_NODE) cur : forall idxs acc,
  (forall j m, j ∈ idxs -> t !! j = Some m -> szSourceDirectory m <> None) ->
  (forall j m src', j ∈ idxs -> t !! j = Some m -> szSourceDirectory m = Some src' ->
                    src' `prefix_of` cur -> length src' <= fst acc) ->
  find_start_directory t idxs cur acc = Some acc.
Proof.
  induction idxs as [|j idxs IH]; intros acc Hsrc Hshort; simpl; [reflexivity|].
  assert (Hsrc' : forall j' m, j' ∈ idxs -> t !! j' = Some m -> szSourceDirectory m <> None).
  { intros j' m Hj'. apply Hsrc. apply elem_of_cons. right. exact Hj'. }
  assert (Hshort' : forall j' m src', j' ∈ idxs -> t !! j' = Some m ->
            szSourceDirectory m = Some src' -> src' `prefix_of` cur ->
            length src' <= fst acc).
  { intros j' m src' Hj'. apply Hshort. apply elem_of_cons. right. exact Hj'. }
  destruct (t !! j) as [m|] eqn:Hm; [|apply IH; assumption].
  destruct (szSourceDirectory m) as [src'|] eqn:Hm'.
  - rewrite (match_slot_run cur acc m src' Hm').
    destruct (starts_with src' cur) eqn:Hstart; simpl; [|apply IH; assumption].
    assert (Hle : length src' <= fst acc).
    { apply (Hshort j m src'); [apply elem_of_cons; left; reflexivity|exact Hm|exact Hm'|].
      apply starts_with_prefix. exact Hstart. }
    apply Nat.ltb_ge in Hle. rewrite Hle. apply IH; assumption.
  - exfalso. apply (Hsrc j m); [apply elem_of_cons; left; reflexivity|exact Hm|exact Hm'].
Qed.

Lemma find_start_directory_app (t : gmap nat SUBST_NODE) cur idxs1 : forall idxs2 acc,
  find_start_directory t (idxs1 ++ idxs2) cur acc =
    match find_start_directory t idxs1 cur acc with
    | Some acc' => find_start_directory t idxs2 cur acc'
    | None => None
    end.
Proof.
  induction idxs1 as [|j idxs1 IH]; intros idxs2 acc; simpl; [reflexivity|].
  destruct (t !! j) as [m|]; [|apply IH].
  destruct (match_slot cur acc m); [apply IH|reflexivity].
Qed.

Lemma slot_indices_split i :
  i < NUMBER_DEFINABLE_SUBST ->
  slot_indices = seq 0 i ++ i :: seq (S i) (NUMBER_DEFINABLE_SUBST - S i).
Proof.
  intros Hi. unfold slot_indices.
  replace NUMBER_DEFINABLE_SUBST with (i + S (NUMBER_DEFINABLE_SUBST - S i)) at 1 by lia.
  rewrite seq_app. reflexivity.
Qed.

Lemma elem_of_slot_indices j : j ∈ slot_indices <-> j < NUMBER_DEFINABLE_SUBST.
Proof. unfold slot_indices. rewrite elem_of_seq. lia. Qed.

Lemma find_start_directory_total (t : gmap nat SUBST_NODE) cur : forall idxs acc,
  (forall j m, t !! j = Some m -> szSourceDirectory m <> None) ->
  exists acc', find_start_directory t idxs cur acc = Some acc'.
Proof.
  induction idxs as [|j idxs IH]; intros acc Hsrc; simpl.
  - exists acc. reflexivity.
  - destruct (t !! j) as [m|] eqn:Hm; [|apply IH; exact Hsrc].
    destruct (szSourceDirectory m) as [src|] eqn:Hm'.
    + rewrite (match_slot_run cur acc m src Hm'). apply IH. exact Hsrc.
    + exfalso. apply (Hsrc j m Hm Hm').
Qed.

Lemma child_working_directory_total (t : gmap nat SUBST_NODE) dir :
  (forall j m, t !! j = Some m -> szSourceDirectory m <> None) ->
  exists cwd, child_working_directory t dir = Some cwd.
Proof.
  intros Hsrc. unfold child_working_directory.
  destruct (find_start_directory_total t (normalize_current_directory dir)
              slot_indices (0, []) Hsrc) as ([len new] & ->).
  destruct (wcslen new =? 0)%nat; eexists; reflexivity.
Qed.

Lemma exec_events_no_open es : Forall exec_event es -> opened_paths es = [].
Proof.
  induction 1 as [|e es He _ IH]; simpl; [reflexivity|].
  destruct e; simpl in *; try contradiction; exact IH.
Qed.

Lemma exec_events_no_subst es : Forall exec_event es -> subst_commands es = [].
Proof.
  induction 1 as [|e es He _ IH]; simpl; [reflexivity|].
  destruct e; simpl in *; try contradiction; exact IH.
Qed.

Lemma exec_events_no_close es : Forall exec_event es -> closed_handles es = [].
Proof.
  induction 1 as [|e es He _ IH]; simpl; [reflexivity|].
  destruct e; simpl in *; try contradiction; exact IH.
Qed.

Lemma exec_events_no_map es : Forall exec_event es -> mapped_letters es = [].
Proof.
  induction 1 as [|e es He _ IH]; simpl; [reflexivity|].
  destruct e; simpl in *; try contradiction; exact IH.
Qed.

Lemma exec_events_no_lock es : Forall exec_event es -> acquired es = [].
Proof.
  induction 1 as [|e es He _ IH]; simpl; [reflexivity|].
  destruct e; simpl in *; try contradiction; exact IH.
Qed.

(** [ExecuteProcess] leaves the table alone, only prints, asks for the
    current directory and starts the child, and returns a code as soon as
    no slot has a null source directory. *)
Lemma ExecuteProcess_spec env argv executableToRunIndex s :
  wp (ExecuteProcess env argv executableToRunIndex) s (fun o s' e =>
    pOrderedSubstList s' = pOrderedSubstList s /\
    Forall exec_event e /\
    match o with
    | Ok _ => True
    | Abort => ~ (forall j m, pOrderedSubstList s !! j = Some m -> szSourceDirectory m <> None)
    | _ => False
    end).
Proof.
  unfold ExecuteProcess. wp_auto; simpl.
  all: split; [reflexivity|].
  all: split; [repeat constructor|].
  all: try exact I.
  intros Hsrc.
  destruct (child_working_directory_total (pOrderedSubstList s) l Hsrc) as [cwd Hcwd].
  simpl in *. congruence.
Qed.

(** * The name of the drive-root lock file *)

(** C3, at the code: the lock file that the mapping loop opens for a
    mismatched letter is named by the letter, the character 150 (the sum of
    the codes of colon, backslash and zero) and [.SubstLock]; it is not
    the file [.SubstLock] in the root of the drive.  On the machine with a
    foreign mapping of X: the run opens exactly this name and never
    [X:\.SubstLock]. *)
Theorem drive_lock_path_is_not_at_drive_root :
  (forall n, drive_lock_path n = szDriveLetter n :: 150%Z :: W ".SubstLock") /\
  (forall n, drive_lock_path n <> [szDriveLetter n; COLON; BACKSLASH] ++ SUBST_FILE_NAME) /\
  opened_paths (events_of (run_main machine_foreign_mapping 2 argv_X))
    = [W "c:\data\.SubstLock"; W "X" ++ [150%Z] ++ W ".SubstLock"] /\
  ~ In (W "X:\.SubstLock")
       (opened_paths (events_of (run_main machine_foreign_mapping 2 argv_X))).
Proof.
  split; [|split; [|split]].
  - intros n. reflexivity.
  - intros n H. unfold drive_lock_path in H. simpl in H. inversion H.
  - vm_compute. reflexivity.
  - vm_compute. intros [H|[H|[]]]; discriminate H.
Qed.

(** * A letter given twice *)

(** C2, at the code: on [X=c:\a X=c:\b] the update of the existing entry
    calls [wcscpy_s] with the length of the new string as the size of the
    destination, one short of what the copy needs.  Either the invalid
    parameter handler ends the process, or it returns and the source
    directory of X is left empty; it is never [c:\b\]. *)
Theorem duplicate_letter_loses_the_source_directory :
  outcome_of (ParseSubstSourcesAndTargets (machine_with_handler false) argv_X_twice
                InitializeState) = Abort /\
  (let r := ParseSubstSourcesAndTargets (machine_with_handler true) argv_X_twice
              InitializeState in
   outcome_of r = Ok (mkParseResult false [23%nat] 3) /\
   szSourceDirectory <$> (pOrderedSubstList (state_of r) !! 23%nat) = Some (Some [])) /\
  (forall handler_returns,
     szSourceDirectory <$>
       (pOrderedSubstList
          (state_of (ParseSubstSourcesAndTargets (machine_with_handler handler_returns)
                       argv_X_twice InitializeState)) !! 23%nat)
     <> Some (Some (W "c:\b\"))).
Proof.
  split; [|split; [split|]].
  - vm_compute. reflexivity.
  - vm_compute. reflexivity.
  - vm_compute. reflexivity.
  - intros [|]; vm_compute; discriminate.
Qed.

(** * Failure of the enumeration *)

(** C4, at the code: [GetMappedPaths] returns 1 when [CreatePipe] fails,
    but the mapping loop drops the value.  With X requested and the pipe
    never available, the run does not end with exit code 1: it goes on to
    open the second lock file, passes the assertion that should never be
    reached, and maps and enumerates again, as often as the fuel allows. *)
Theorem enumeration_failure_is_ignored :
  outcome_of (GetMappedPaths machine_no_pipe InitializeState) = Ok 1%Z /\
  (let r := run_main machine_no_pipe 2 argv_X in
   outcome_of r = Timeout /\
   enumerations (events_of r)
     = repeat (mkEnumReply false true true true []) 3 /\
   mapped_letters (events_of r) = [88; 88; 88]%Z /\
   assertion_failures (events_of r) = repeat "We should never be here!!!"%string 3).
Proof.
  split; [|split; [|split; [|split]]]; vm_compute; reflexivity.
Qed.

(** * The assertion at the end of the mapping loop *)

(** C9, at the code: when the letter does not show up in the listing, the
    mapped path of the slot stays null; the second lock file is opened
    with success, the branch that unmaps is skipped because it asks for a
    non-null mapped path, and control reaches the assertion.  In a debug
    build the process ends there. *)
Theorem mapping_loop_assertion_is_reachable :
  let r := run_main machine_never_bound 2 argv_X in
  outcome_of r = Abort /\
  szMappedPath <$> (pOrderedSubstList (state_of r) !! 23%nat) = Some None /\
  acquired (events_of r) = [W "c:\data\.SubstLock"; W "X" ++ [150%Z] ++ W ".SubstLock"] /\
  List.last (events_of r) (EvSleep 0) = EvAssert "We should never be here!!!".
Proof.
  split; [|split; [|split]]; vm_compute; reflexivity.
Qed.

(** ** ParseSubstSourcesAndTargets *)

Lemma parse_events_no_open es : Forall parse_event es -> opened_paths es = [].
Proof.
  induction 1 as [|e es He _ IH]; simpl; [reflexivity|].
  destruct e; simpl in *; try contradiction; exact IH.
Qed.

Lemma parse_events_no_subst es : Forall parse_event es -> subst_commands es = [].
Proof.
  induction 1 as [|e es He _ IH]; simpl; [reflexivity|].
  destruct e; simpl in *; try contradiction; exact IH.
Qed.

Lemma parse_events_no_close es : Forall parse_event es -> closed_handles es = [].
Proof.
  induction 1 as [|e es He _ IH]; simpl; [reflexivity|].
  destruct e; simpl in *; try contradiction; exact IH.
Qed.

Lemma parse_events_no_map es : Forall parse_event es -> mapped_letters es = [].
Proof.
  induction 1 as [|e es He _ IH]; simpl; [reflexivity|].
  destruct e; simpl in *; try contradiction; exact IH.
Qed.

Lemma parse_events_no_lock es : Forall parse_event es -> acquired es = [].
Proof.
  induction 1 as [|e es He _ IH]; simpl; [reflexivity|].
  destruct e; simpl in *; try contradiction; exact IH.
Qed.

Lemma parsed_table_empty : parsed_table ∅.
Proof. intros i n H. rewrite lookup_empty in H. discriminate H. Qed.

Lemma parsed_table_insert (t : gmap nat SUBST_NODE) i n :
  parsed_table t ->
  szDriveLetter n = (65 + Z.of_nat i)%Z -> szSourceDirectory n <> None ->
  parsed_table (<[i := n]> t).
Proof.
  intros Hp Hletter Hsrc j m Hj.
  apply lookup_insert_Some in Hj. destruct Hj as [[<- <-]|[_ Hj]].
  - split; assumption.
  - apply (Hp j m Hj).
Qed.

(** The parser builds a table in which cell [i] holds letter number [i]
    with a source directory, and hands over a null list only with an empty
    table. *)
Lemma parse_args_spec env args : forall i substList s,
  parsed_table (pOrderedSubstList s) ->
  (substList = [] -> pOrderedSubstList s = ∅) ->
  wp (parse_args env args i substList) s (fun o s' e =>
    Forall parse_event e /\
    parsed_table (pOrderedSubstList s') /\
    match o with
    | Ok r => pSubstList r = [] -> pOrderedSubstList s' = ∅
    | Abort => True
    | _ => False
    end).
Proof.
  induction args as [|arg args IH]; intros i substList s Hp Hnull; simpl.
  - wp_auto. split; [constructor|]. split; [exact Hp|exact Hnull].
  - unfold new_SUBST_NODE. wp_auto; simpl.
    all: try lazymatch goal with
         | |- wp (parse_args _ _ _ _) _ _ =>
             eapply wp_mono; [apply IH|]; cbv beta; simpl;
             [ | | intros o s' e (Hev & Hp' & Ho)]
         end.
    all: try lazymatch goal with
         | |- parsed_table (<[_ := set_source _ _]> _) =>
             apply parsed_table_insert;
             [exact Hp | apply (Hp _ _ Heqo) | discriminate]
         | |- parsed_table (<[_ := _]> _) =>
             apply parsed_table_insert; [exact Hp | | discriminate]; simpl;
             apply orb_false_iff in Heqb0; destruct Heqb0 as [Hlo Hhi];
             apply Z.ltb_ge in Hlo; rewrite Z2Nat.id by lia; lia
         | |- _ ++ _ = [] -> _ => intros Hnil; destruct substList; discriminate Hnil
         | |- _ = [] -> <[_ := _]> _ = ∅ =>
             intros Hnil; rewrite (Hnull Hnil), lookup_empty in Heqo; discriminate Heqo
         end.
    all: split; [repeat first [exact Hev | constructor; try exact I]|].
    all: split; [first [exact Hp | exact Hp']|].
    all: first [exact Hnull | exact Ho | exact I].
Qed.

Lemma ParseSubstSourcesAndTargets_spec env argv :
  wp (ParseSubstSourcesAndTargets env argv) InitializeState (fun o s' e =>
    Forall parse_event e /\
    parsed_table (pOrderedSubstList s') /\
    match o with
    | Ok r => pSubstList r = [] -> pOrderedSubstList s' = ∅
    | Abort => True
    | _ => False
    end).
Proof.
  unfold ParseSubstSourcesAndTargets. apply parse_args_spec.
  - apply parsed_table_empty.
  - reflexivity.
Qed.

(** ** The two loops together *)

Lemma split_after_no_subst e1 e2 pre cmd reply post :
  subst_commands e1 = [] ->
  e1 ++ e2 = pre ++ EvSubst cmd reply :: post ->
  exists pre', pre = e1 ++ pre' /\ e2 = pre' ++ EvSubst cmd reply :: post.
Proof.
  intros Hno Heq. apply app_eq_app in Heq. destruct Heq as [l [[-> Hl]|[-> Hl]]].
  - destruct l as [|x l]; simpl in Hl.
    + exists []. rewrite !app_nil_r. split; [reflexivity|symmetry; exact Hl].
    + injection Hl as <- ->. rewrite subst_commands_app in Hno.
      apply app_eq_nil in Hno. destruct Hno as [_ Hno]. discriminate Hno.
  - exists l. split; [reflexivity|exact Hl].
Qed.

Lemma lock_paths_view (t t' : gmap nat SUBST_NODE) :
  identity_view <$> t' = identity_view <$> t -> lock_paths t' = lock_paths t.
Proof. intros Hview. unfold lock_paths. apply lock_paths_at_view. exact Hview. Qed.

Lemma ordered_run_view (t t' : gmap nat SUBST_NODE) es :
  identity_view <$> t' = identity_view <$> t -> ordered_run t es -> ordered_run t' es.
Proof.
  intros Hview. unfold ordered_run. rewrite (lock_paths_view t t' Hview). auto.
Qed.

(** Events in front that neither lock nor call the subst tool. *)
Lemma ordered_run_prepend (t : gmap nat SUBST_NODE) e0 es :
  subst_commands e0 = [] -> acquired e0 = [] -> mapped_letters e0 = [] ->
  ordered_run t es -> ordered_run t (e0 ++ es).
Proof.
  intros Hsubst Hacq Hmap (Hbefore & Hprefix & Hsorted).
  split; [|split].
  - intros pre cmd reply post Heq.
    destruct (split_after_no_subst e0 es pre cmd reply post Hsubst Heq)
      as (pre' & -> & Hes).
    rewrite acquired_app, Hacq. apply (Hbefore pre' cmd reply post Hes).
  - rewrite acquired_app, Hacq. exact Hprefix.
  - rewrite mapped_letters_app, Hmap. exact Hsorted.
Qed.

(** Events behind a run that has acquired all its locks, which open no
    file and bind no letter. *)
Lemma ordered_run_append (t : gmap nat SUBST_NODE) es e3 :
  lock_paths t `prefix_of` acquired es ->
  acquired e3 = [] -> mapped_letters e3 = [] ->
  ordered_run t es -> ordered_run t (es ++ e3).
Proof.
  intros Hall Hacq Hmap (Hbefore & Hprefix & Hsorted).
  split; [|split].
  - intros pre cmd reply post Heq.
    apply app_eq_app in Heq. destruct Heq as [l [[-> Hl]|[-> Hl]]].
    + destruct l as [|x l]; simpl in Hl.
      * rewrite app_nil_r in Hall. exact Hall.
      * injection Hl as <- ->. apply (Hbefore pre cmd reply l eq_refl).
    + rewrite acquired_app. apply prefix_app_r. exact Hall.
  - rewrite acquired_app, Hacq, app_nil_r. exact Hprefix.
  - rewrite mapped_letters_app, Hmap, app_nil_r. exact Hsorted.
Qed.

Lemma ordered_run_no_subst (t : gmap nat SUBST_NODE) es :
  subst_commands es = [] -> mapped_letters es = [] ->
  acquired es `prefix_of` lock_paths t ->
  ordered_run t es.
Proof.
  intros Hsubst Hmap Hprefix. split; [|split].
  - intros pre cmd reply post ->. rewrite subst_commands_app in Hsubst.
    apply app_eq_nil in Hsubst. destruct Hsubst as [_ Hsubst]. discriminate Hsubst.
  - left. exact Hprefix.
  - rewrite Hmap. constructor.
Qed.

Lemma valid_locks_view (t t' : gmap nat SUBST_NODE) idxs :
  locked_view <$> t' = locked_view <$> t ->
  Forall valid_lock (nodes_at t idxs) -> Forall valid_lock (nodes_at t' idxs).
Proof.
  intros Hview. induction idxs as [|i idxs IH]; [intros _; constructor|].
  rewrite (nodes_at_cons t), (nodes_at_cons t'), !Forall_app.
  intros [Hi Hrest]. split; [|apply IH; exact Hrest].
  unfold nodes_at in *. simpl in *.
  pose proof (view_lookup locked_view t t' i Hview) as Hv.
  destruct (t' !! i) as [n'|], (t !! i) as [n|]; simpl in *; try discriminate Hv;
    [|constructor].
  unfold locked_view in Hv. inversion Hv as [[Hletter Hsrc Hlock]].
  apply Forall_cons in Hi. destruct Hi as [Hi _].
  constructor; [|constructor]. unfold valid_lock in *. congruence.
Qed.

Lemma valid_locks_lookup (t : gmap nat SUBST_NODE) idxs :
  (forall j n, j ∈ idxs -> t !! j = Some n -> hLockFile n <> INVALID_HANDLE_VALUE) ->
  Forall valid_lock (nodes_at t idxs).
Proof.
  intros H. induction idxs as [|i idxs IH]; [constructor|].
  rewrite nodes_at_cons. apply Forall_app. split.
  - unfold nodes_at. simpl. destruct (t !! i) as [n|] eqn:Hn; [|constructor].
    constructor; [|constructor]. apply (H i n); [apply elem_of_cons; left; reflexivity|exact Hn].
  - apply IH. intros j n Hj. apply H. apply elem_of_cons. right. exact Hj.
Qed.

Lemma lock_and_map_spec env fuel pSubstList s :
  parsed_table (pOrderedSubstList s) ->
  (pSubstList = [] -> pOrderedSubstList s = ∅) ->
  wp (lock_and_map env fuel pSubstList) s (fun o s' e =>
    identity_view <$> pOrderedSubstList s' = identity_view <$> pOrderedSubstList s /\
    ordered_run (pOrderedSubstList s) e /\
    fatal_ok (o = Return 1) e /\
    closes_own e /\
    match o with
    | Ok _ =>
        Forall valid_lock (nodes_at (pOrderedSubstList s') slot_indices) /\
        lock_paths (pOrderedSubstList s) `prefix_of` acquired e
    | Return c => c = 1%Z
    | _ => True
    end).
Proof.
  intros Hp Hnull. unfold lock_and_map.
  destruct pSubstList as [|p pSubstList]; cbn [is_null].
  - wp_auto. rewrite (Hnull eq_refl).
    split; [reflexivity|].
    split; [apply ordered_run_no_subst; try reflexivity; apply prefix_nil|].
    split; [apply fatal_ok_nil|]. split; [apply closes_own_nil|].
    split; [constructor|apply prefix_nil].
  - clear Hnull. unfold lock_sources, map_drives. wp_auto.
    eapply wp_mono; [apply lock_each_spec; apply NoDup_seq|]. cbv beta.
    intros o s1 e1 (Hview1 & _ & Hev1 & Hfatal1 & Hprefix1 & Ho1).
    fold slot_indices in Hprefix1, Ho1.
    pose proof (lock_events_no_subst e1 Hev1) as Hsubst1.
    pose proof (lock_events_no_map e1 Hev1) as Hmap1.
    pose proof (lock_events_no_close e1 Hev1) as Hclose1.
    destruct o as [[]| | |]; unfold then_; try contradiction.
    + destruct Ho1 as [Hacq1 Hvalid1].
      eapply wp_mono; [apply (map_each_spec env fuel NUMBER_DEFINABLE_SUBST 0 s1)|].
      { apply (parsed_table_view (pOrderedSubstList s)); assumption. }
      cbv beta. fold slot_indices.
      intros o s2 e2 (Hview2 & Hg2 & Hc2 & Hsorted2 & _ & Ho2).
      split; [rewrite (locked_view_identity _ _ Hview2); exact Hview1|].
      split; [|split; [|split; [|]]].
      * split; [|split].
        -- intros pre cmd reply post Heq.
           destruct (split_after_no_subst e1 e2 pre cmd reply post Hsubst1 Heq)
             as (pre' & -> & _).
           rewrite acquired_app, Hacq1. apply prefix_app_r. reflexivity.
        -- right. rewrite acquired_app, Hacq1. apply prefix_app_r. reflexivity.
        -- rewrite mapped_letters_app, Hmap1. exact Hsorted2.
      * fatal_ok_tac. apply guarded_fatal_ok. exact Hg2.
      * apply closes_own_app; [apply closes_own_no_close; exact Hclose1|exact Hc2].
      * assert (Hall : lock_paths (pOrderedSubstList s) `prefix_of` acquired (e1 ++ e2)).
        { rewrite acquired_app, Hacq1. apply prefix_app_r. reflexivity. }
        destruct o as [[]| | |]; try exact Ho2; try exact I.
        split; [|exact Hall].
        apply (valid_locks_view (pOrderedSubstList s1)); [exact Hview2|].
        apply valid_locks_lookup. exact Hvalid1.
    + split; [exact Hview1|].
      split; [apply ordered_run_no_subst; assumption|].
      split; [fatal_ok_tac|]. split; [apply closes_own_no_close; exact Hclose1|exact Ho1].
    + split; [exact Hview1|].
      split; [apply ordered_run_no_subst; assumption|].
      split; [fatal_ok_tac|]. split; [apply closes_own_no_close; exact Hclose1|exact I].
Qed.

(** ** SubstDrivesAndExecute *)

Lemma unmap_commands_bind_nothing (nodes : list SUBST_NODE) :
  Forall (fun cmd => is_map_command cmd = false) (UnmapDrive_command <$> nodes).
Proof.
  induction nodes as [|n nodes IH]; simpl; constructor; [reflexivity|exact IH].
Qed.

Lemma cleanup_events_no_lock es : Forall cleanup_event es -> acquired es = [].
Proof.
  induction 1 as [|e es He _ IH]; simpl; [reflexivity|].
  destruct e; simpl in *; try contradiction; exact IH.
Qed.

Lemma SubstDrivesAndExecute_spec env fuel argv pSubstList executableToRunIndex s :
  parsed_table (pOrderedSubstList s) ->
  (pSubstList = [] -> pOrderedSubstList s = ∅) ->
  wp (SubstDrivesAndExecute env fuel argv pSubstList executableToRunIndex) s
    (fun o s' e =>
       identity_view <$> pOrderedSubstList s' = identity_view <$> pOrderedSubstList s /\
       ordered_run (pOrderedSubstList s) e /\
       fatal_ok (o = Ok 1%Z) e /\
       match o with Return _ => False | _ => True end).
Proof.
  intros Hp Hnull. unfold SubstDrivesAndExecute. apply wp_call, wp_bind.
  set (Q := fun (o : Outcome Z) (s' : State) (e : list Event) =>
       identity_view <$> pOrderedSubstList s' = identity_view <$> pOrderedSubstList s /\
       ordered_run (pOrderedSubstList s) e /\
       fatal_ok (o = Ok 1%Z) e /\
       match o with Return _ => False | _ => True end).
  assert (Hmain : forall e0,
            subst_commands e0 = [] -> acquired e0 = [] -> mapped_letters e0 = [] ->
            opened_paths e0 = [] ->
            wp (lock_and_map env fuel pSubstList ;;
                errorCode <- ExecuteProcess env argv executableToRunIndex ;;
                cleanup env ;; return_ errorCode) s
               (fun o s' e => match o with
                              | Return c => Q (Ok c) s' (e0 ++ e)
                              | _ => Q o s' (e0 ++ e)
                              end)).
  { intros e0 Hs0 Ha0 Hm0 Ho0. apply wp_bind.
    eapply wp_mono; [apply (lock_and_map_spec env fuel pSubstList s Hp Hnull)|]. cbv beta.
    intros o s2 e12 (Hview & Hord & Hfatal & _ & Ho).
    assert (Hf0 : fatal_ok False e0) by (apply guarded_fatal_ok, guarded_no_open, Ho0).
    destruct o as [[]| | |]; unfold then_.
    - destruct Ho as [Hvalid Hall]. apply wp_bind.
      eapply wp_mono; [apply ExecuteProcess_spec|]. cbv beta.
      intros o s3 ex (Ht3 & Hex & Hox).
      destruct o as [errorCode| | |]; unfold then_; try contradiction.
      + apply wp_bind. unfold cleanup. rewrite <- Ht3 in Hvalid.
        eapply wp_mono; [apply (cleanup_each_valid env slot_indices s3 Hvalid)|]. cbv beta.
        intros o s4 ec (-> & Ht4 & Hec & Hsubst & Hclosed & _). unfold then_.
        apply wp_return. rewrite !app_nil_r.
        assert (Hacq : acquired (ex ++ ec) = []).
        { rewrite acquired_app, (exec_events_no_lock ex Hex),
            (cleanup_events_no_lock ec Hec). reflexivity. }
        assert (Hmap : mapped_letters (ex ++ ec) = []).
        { rewrite mapped_letters_app, (exec_events_no_map ex Hex).
          apply cleanup_events_no_map; [exact Hec|]. rewrite Hsubst.
          apply unmap_commands_bind_nothing. }
        assert (Hopen : opened_paths (ex ++ ec) = []).
        { rewrite opened_paths_app, (exec_events_no_open ex Hex),
            (cleanup_events_no_open ec Hec). reflexivity. }
        split; [congruence|].
        split; [apply ordered_run_prepend; try assumption;
                apply ordered_run_append; assumption|].
        split; [|exact I].
        apply fatal_ok_app; [exact Hf0|].
        apply fatal_ok_app; [refine (fatal_ok_mono _ _ _ _ Hfatal); discriminate|].
        apply guarded_fatal_ok, guarded_no_open. exact Hopen.
      + split; [congruence|].
        split; [apply ordered_run_prepend; try assumption;
                apply ordered_run_append; try assumption|].
        * apply (exec_events_no_lock ex Hex).
        * apply (exec_events_no_map ex Hex).
        * split; [|exact I].
          apply fatal_ok_app; [exact Hf0|].
          apply fatal_ok_app; [refine (fatal_ok_mono _ _ _ _ Hfatal); discriminate|].
          apply guarded_fatal_ok, guarded_no_open, (exec_events_no_open ex Hex).
    - subst code. split; [exact Hview|].
      split; [apply ordered_run_prepend; assumption|]. split; [|exact I].
      apply fatal_ok_app; [exact Hf0|].
      refine (fatal_ok_mono _ _ _ _ Hfatal). reflexivity.
    - split; [exact Hview|].
      split; [apply ordered_run_prepend; assumption|]. split; [|exact I].
      apply fatal_ok_app; [exact Hf0|].
      refine (fatal_ok_mono _ _ _ _ Hfatal). discriminate.
    - split; [exact Hview|].
      split; [apply ordered_run_prepend; assumption|]. split; [|exact I].
      apply fatal_ok_app; [exact Hf0|].
      refine (fatal_ok_mono _ _ _ _ Hfatal). discriminate.
  }
  unfold assert. destruct (negb (is_null pSubstList)).
  - apply wp_ret. unfold then_. apply (Hmain []); reflexivity.
  - apply wp_bind, wp_emit. unfold then_. destruct (ndebug env).
    + apply wp_ret. apply (Hmain [_]); reflexivity.
    + apply wp_abort. rewrite app_nil_r.
      split; [reflexivity|].
      split; [apply ordered_run_no_subst; try reflexivity; apply prefix_nil|].
      split; [|exact I]. fatal_ok_tac.
Qed.

(** ** The whole program *)

Lemma run_main_spec env fuel argv :
  wp (_tmain env fuel argv) InitializeState (fun o s' e =>
    parsed_table (pOrderedSubstList s') /\
    ordered_run (pOrderedSubstList s') e /\
    fatal_ok (o = Ok 1%Z) e).
Proof.
  unfold _tmain. apply wp_call, wp_bind.
  eapply wp_mono; [apply ParseSubstSourcesAndTargets_spec|]. cbv beta.
  intros o s0 e0 (Hev0 & Hp0 & Ho0).
  pose proof (parse_events_no_subst e0 Hev0) as Hs0.
  pose proof (parse_events_no_lock e0 Hev0) as Ha0.
  pose proof (parse_events_no_map e0 Hev0) as Hm0.
  pose proof (parse_events_no_open e0 Hev0) as Hopen0.
  assert (Hord0 : ordered_run (pOrderedSubstList s0) e0).
  { apply ordered_run_no_subst; try assumption. rewrite Ha0. apply prefix_nil. }
  assert (Hf0 : forall P, fatal_ok P e0).
  { intros P. apply guarded_fatal_ok, guarded_no_open, Hopen0. }
  destruct o as [r| | |]; unfold then_; try contradiction.
  - destruct (shouldExit r).
    + apply wp_return. rewrite app_nil_r. split; [exact Hp0|]. split; [exact Hord0|apply Hf0].
    + apply wp_bind.
      eapply wp_mono; [apply (SubstDrivesAndExecute_spec env fuel argv _ _ s0 Hp0 Ho0)|].
      cbv beta. intros o s1 e1 (Hview & Hord & Hfatal & Ho).
      assert (Hp1 : parsed_table (pOrderedSubstList s1))
        by (apply (parsed_table_view (pOrderedSubstList s0)); assumption).
      assert (Hord1 : ordered_run (pOrderedSubstList s1) (e0 ++ e1)).
      { apply (ordered_run_view (pOrderedSubstList s0)); [exact Hview|].
        apply ordered_run_prepend; assumption. }
      destruct o as [code| | |]; unfold then_; try contradiction.
      * apply wp_return. rewrite app_nil_r. split; [exact Hp1|]. split; [exact Hord1|].
        apply fatal_ok_app; [apply Hf0|exact Hfatal].
      * split; [exact Hp1|]. split; [exact Hord1|].
        apply fatal_ok_app; [apply Hf0|exact Hfatal].
      * split; [exact Hp1|]. split; [exact Hord1|].
        apply fatal_ok_app; [apply Hf0|exact Hfatal].
  - split; [exact Hp0|]. split; [exact Hord0|apply Hf0].
Qed.

Lemma parsed_letters_ascend (t : gmap nat SUBST_NODE) n : forall k,
  parsed_table t ->
  StronglySorted Z.lt (szDriveLetter <$> nodes_at t (seq k n)) /\
  Forall (fun l => (65 + Z.of_nat k <= l)%Z) (szDriveLetter <$> nodes_at t (seq k n)).
Proof.
  induction n as [|n IH]; intros k Hp; cbn [seq].
  - split; constructor.
  - destruct (IH (S k) Hp) as [Hsorted Hbound].
    rewrite nodes_at_cons. unfold nodes_at at 1 3. simpl.
    destruct (t !! k) as [m|] eqn:Hm; simpl.
    + destruct (Hp k m Hm) as [Hletter _]. rewrite Hletter. split.
      * constructor; [exact Hsorted|].
        eapply Forall_impl; [exact Hbound|]. intros l Hl. simpl in Hl. lia.
      * constructor; [lia|].
        eapply Forall_impl; [exact Hbound|]. intros l Hl. simpl in Hl. lia.
    + split; [exact Hsorted|].
      eapply Forall_impl; [exact Hbound|]. intros l Hl. simpl in Hl. lia.
Qed.

(** * The working directory of the child (C8) *)

(** C8, as the specification states it, fails: with [c:\work\] on X and
    [c:\work\sub\] on Y the current directory [c:\work\sub\deep] becomes
    [Y:\deep\] with the trailing separator, not [Y:\deep]; and a current
    directory [C:\Other] under no source is passed on lower-cased and with
    a trailing separator, not unchanged. *)
Lemma working_directory_is_normalized :
  child_working_directory table_work (W "c:\work\sub\deep") <> Some (W "Y:\deep") /\
  child_working_directory table_work (W "c:\work\sub\deep") = Some (W "Y:\deep\") /\
  child_working_directory table_work (W "C:\Other") <> Some (W "C:\Other") /\
  child_working_directory table_work (W "C:\Other") = Some (W "c:\other\").
Proof.
  split; [|split; [|split]]; vm_compute; first [reflexivity | discriminate].
Qed.

(** C8, amended: the search works on the current directory lower-cased
    and closed by a separator.  Among the slots whose source directory
    starts it, the first one of greatest (non-zero) length wins, and the
    working directory is the drive root of its letter followed by the rest
    of the normalized directory, trailing separator included.  If no slot
    has a non-empty source that starts it, the working directory is the
    normalized current directory itself. *)
Theorem working_directory_longest_prefix (t : gmap nat SUBST_NODE) (dir : list Z) :
  parsed_table t ->
  let cur := normalize_current_directory dir in
  (forall i n src suffix,
     i < NUMBER_DEFINABLE_SUBST ->
     t !! i = Some n -> szSourceDirectory n = Some src -> src <> [] ->
     cur = src ++ suffix ->
     (forall j m src',
        j < NUMBER_DEFINABLE_SUBST ->
        t !! j = Some m -> szSourceDirectory m = Some src' -> src' `prefix_of` cur ->
        length src' < length src \/ (length src' = length src /\ i <= j)) ->
     child_working_directory t dir
       = Some ([szDriveLetter n; COLON; BACKSLASH] ++ suffix)) /\
  ((forall j m src',
      j < NUMBER_DEFINABLE_SUBST ->
      t !! j = Some m -> szSourceDirectory m = Some src' -> src' `prefix_of` cur ->
      src' = []) ->
   child_working_directory t dir = Some cur).
Proof.
  intros Hp cur.
  assert (Hsrc : forall (idxs : list nat) j m,
            j ∈ idxs -> t !! j = Some m -> szSourceDirectory m <> None).
  { intros idxs j m _ Hm. apply (Hp j m Hm). }
  split.
  - intros i n src suffix Hi Hn Hnsrc Hne Hcur Hbest.
    unfold child_working_directory. fold cur.
    rewrite (slot_indices_split i Hi), find_start_directory_app.
    destruct (find_start_directory_shorter t cur (length src) (seq 0 i) (0, []))
      as (acc & -> & Hacc).
    + apply Hsrc.
    + intros j m src' Hj Hm Hmsrc Hpre. apply elem_of_seq in Hj.
      destruct (Hbest j m src' ltac:(lia) Hm Hmsrc Hpre) as [Hlt|[_ Hle]]; lia.
    + simpl. destruct src; [contradiction|simpl; lia].
    + cbn [find_start_directory]. rewrite Hn, (match_slot_run cur acc n src Hnsrc).
      assert (Hstart : starts_with src cur = true).
      { apply starts_with_prefix. exists suffix. exact Hcur. }
      apply Nat.ltb_lt in Hacc. rewrite Hstart, Hacc. cbn [andb].
      rewrite find_start_directory_no_longer.
      * rewrite Hcur, drop_app_length. unfold drive_root_plus.
        destruct (Hp i n Hn) as [Hletter _].
        assert (Hnz : (szDriveLetter n =? 0)%Z = false) by (apply Z.eqb_neq; lia).
        cbn [c_str]. rewrite Hnz. reflexivity.
      * apply Hsrc.
      * intros j m src' Hj Hm Hmsrc Hpre. apply elem_of_seq in Hj. cbn [fst].
        destruct (Hbest j m src' ltac:(lia) Hm Hmsrc Hpre) as [Hlt|[Heq _]]; lia.
  - intros Hnone. unfold child_working_directory. fold cur.
    rewrite find_start_directory_no_longer; [reflexivity|apply Hsrc|].
    intros j m src' Hj Hm Hmsrc Hpre. apply elem_of_slot_indices in Hj.
    rewrite (Hnone j m src' Hj Hm Hmsrc Hpre). simpl. lia.
Qed.

Lemma parsed_table_work : parsed_table table_work.
Proof.
  intros i n Hi. unfold table_work in Hi.
  apply lookup_insert_Some in Hi. destruct Hi as [[<- <-]|[_ Hi]].
  - split; [reflexivity|discriminate].
  - apply lookup_insert_Some in Hi. destruct Hi as [[<- <-]|[_ Hi]].
    + split; [reflexivity|discriminate].
    + rewrite lookup_empty in Hi. discriminate Hi.
Qed.

Lemma working_directory_witness :
  parsed_table table_work /\
  child_working_directory table_work (W "c:\work\sub\deep") = Some (W "Y:\deep\") /\
  child_working_directory table_work (W "D:\Other") = Some (W "d:\other\").
Proof.
  split; [exact parsed_table_work|]. split.
  - apply (proj1 (working_directory_longest_prefix table_work (W "c:\work\sub\deep")
                    parsed_table_work)
             24 (mkNode 89 (Some (W "c:\work\sub\")) None 101)
             (W "c:\work\sub\") (W "deep\")).
    + unfold NUMBER_DEFINABLE_SUBST. lia.
    + reflexivity.
    + reflexivity.
    + discriminate.
    + reflexivity.
    + intros j m src' _ Hm Hsrc' _. unfold table_work in Hm.
      apply lookup_insert_Some in Hm. destruct Hm as [[<- <-]|[_ Hm]].
      * injection Hsrc' as <-. left. vm_compute. lia.
      * apply lookup_insert_Some in Hm. destruct Hm as [[<- <-]|[_ Hm]].
        -- injection Hsrc' as <-. right. split; [reflexivity|lia].
        -- rewrite lookup_empty in Hm. discriminate Hm.
  - apply (proj2 (working_directory_longest_prefix table_work (W "D:\Other")
                    parsed_table_work)).
    intros j m src' _ Hm Hsrc' Hpre. exfalso. unfold table_work in Hm.
    apply starts_with_prefix in Hpre.
    apply lookup_insert_Some in Hm. destruct Hm as [[<- <-]|[_ Hm]].
    + injection Hsrc' as <-. vm_compute in Hpre. discriminate Hpre.
    + apply lookup_insert_Some in Hm. destruct Hm as [[<- <-]|[_ Hm]].
      * injection Hsrc' as <-. vm_compute in Hpre. discriminate Hpre.
      * rewrite lookup_empty in Hm. discriminate Hm.
Defined.

(** * Lock contention and fatal lock errors (C7) *)




(** * The return value of MapDrive (C10) *)



(** * The lock handles at clean-up *)

(** The guard of the clean-up, at the function and for a table that the
    program itself never builds (a null list with a slot in the array):
    in a release build, when the clean-up finds the first invalid lock
    handle in cell [i], the function returns 1 whatever the child
    returned; the slots before [i] have been unmapped and their handles
    closed, slot [i] has been unmapped, the slots behind it are left as
    they are, and no line goes to a lock file through the invalid handle,
    because [LogToFile] asks for a valid one. *)
Lemma cleanup_guard_returns_one env fuel argv executableToRunIndex s i n :
  ndebug env = true ->
  (forall j m, pOrderedSubstList s !! j = Some m -> szSourceDirectory m <> None) ->
  i < NUMBER_DEFINABLE_SUBST ->
  pOrderedSubstList s !! i = Some n ->
  hLockFile n = INVALID_HANDLE_VALUE ->
  Forall valid_lock (nodes_at (pOrderedSubstList s) (seq 0 i)) ->
  let r := SubstDrivesAndExecute env fuel argv [] executableToRunIndex s in
  outcome_of r = Ok 1%Z /\
  subst_commands (events_of r)
    = UnmapDrive_command <$> (nodes_at (pOrderedSubstList s) (seq 0 i) ++ [n]) /\
  closed_handles (events_of r) = hLockFile <$> nodes_at (pOrderedSubstList s) (seq 0 i) /\
  Forall (fun h => h <> INVALID_HANDLE_VALUE) (log_writes (events_of r)).
Proof.
  intros Hrelease Hsrc Hi Hn Hinvalid Hvalid r. unfold r.
  change (wp (SubstDrivesAndExecute env fuel argv [] executableToRunIndex) s
            (fun o _ e =>
               o = Ok 1%Z /\
               subst_commands e
                 = UnmapDrive_command <$> (nodes_at (pOrderedSubstList s) (seq 0 i) ++ [n]) /\
               closed_handles e = hLockFile <$> nodes_at (pOrderedSubstList s) (seq 0 i) /\
               Forall (fun h => h <> INVALID_HANDLE_VALUE) (log_writes e))).
  unfold SubstDrivesAndExecute, lock_and_map. cbn [is_null negb].
  apply wp_call, wp_bind. unfold assert. apply wp_bind, wp_emit. unfold then_.
  rewrite Hrelease. apply wp_ret, wp_bind, wp_ret. unfold then_. apply wp_bind.
  eapply wp_mono; [apply ExecuteProcess_spec|]. cbv beta.
  intros o s3 ex (Ht3 & Hex & Hox).
  destruct o as [errorCode| | |]; unfold then_; try contradiction.
  apply wp_bind. unfold cleanup. rewrite (slot_indices_split i Hi).
    rewrite <- Ht3 in Hvalid, Hn.
    eapply wp_mono; [apply (cleanup_each_invalid env _ i _ n s3 Hvalid Hn Hinvalid)|].
    cbv beta. intros o s4 ec (-> & Ht4 & Hsubst & Hclosed & Hlog).
    rewrite Hrelease. unfold then_. cbn [app].
    change (EvAssert "pSubstList != nullptr" :: ex ++ ec)
      with ([EvAssert "pSubstList != nullptr"] ++ ex ++ ec).
    rewrite !subst_commands_app, !closed_handles_app, !log_writes_app.
    rewrite (exec_events_no_subst ex Hex), (exec_events_no_close ex Hex).
    rewrite Hsubst, Hclosed, Ht3. cbn [app]. simpl.
    split; [reflexivity|]. split; [reflexivity|]. split; [reflexivity|].
    apply Forall_app. split; [|exact Hlog].
    assert (Hnolog : log_writes ex = []).
    { clear -Hex. induction Hex as [|e es He _ IH]; [reflexivity|].
      destruct e; simpl in *; try contradiction; exact IH. }
    rewrite Hnolog. constructor.
Qed.

(** * Clean-up and fatal errors (C6) *)

(** C6, as the specification states it, fails: the lock file of the second
    letter cannot be opened (access denied) after the first letter has
    been locked; the program exits with 1, and it has neither unmapped the
    first letter nor closed its lock handle, which the table still
    holds. *)
Lemma fatal_error_skips_the_cleanup :
  let r := run_main machine_access_denied 2 argv_X_Y in
  outcome_of r = Ok 1%Z /\
  acquired (events_of r) = [W "c:\a\.SubstLock"] /\
  hLockFile <$> (pOrderedSubstList (state_of r) !! 23) = Some 103%Z /\
  subst_commands (events_of r) = [] /\
  closed_handles (events_of r) = [].
Proof.
  split; [|split; [|split; [|split]]]; vm_compute; reflexivity.
Qed.

(** C6, amended: for a table as the parser leaves it and a non-null list,
    what [SubstDrivesAndExecute] does after its two loops depends on how
    they end.  If they run to their end, every slot holds a valid lock
    handle, the child is launched, and then every slot is unmapped and its
    lock handle closed, in the order of the letters, and the function
    returns what the launcher returned.  If a fatal error ends them, the
    function returns 1 with the state and the events of the loops: no
    clean-up follows, and the only handles closed so far are handles of
    drive-root lock files opened in the second loop.  The same holds when
    the loops end the process: nothing follows. *)
Theorem cleanup_follows_the_child_only env fuel argv pSubstList executableToRunIndex s :
  parsed_table (pOrderedSubstList s) ->
  pSubstList <> [] ->
  let setup := lock_and_map env fuel pSubstList s in
  let r := SubstDrivesAndExecute env fuel argv pSubstList executableToRunIndex s in
  match outcome_of setup with
  | Ok _ =>
      let launch := ExecuteProcess env argv executableToRunIndex (state_of setup) in
      let nodes := slots (pOrderedSubstList (state_of setup)) in
      Forall valid_lock nodes /\
      exists code ec,
        outcome_of launch = Ok code /\
        outcome_of r = Ok code /\
        events_of r = events_of setup ++ events_of launch ++ ec /\
        subst_commands ec = UnmapDrive_command <$> nodes /\
        closed_handles ec = hLockFile <$> nodes
  | Return c =>
      c = 1%Z /\
      outcome_of r = Ok 1%Z /\
      state_of r = state_of setup /\
      events_of r = events_of setup /\
      closes_own (events_of setup)
  | Abort => outcome_of r = Abort /\ events_of r = events_of setup
  | Timeout => outcome_of r = Timeout /\ events_of r = events_of setup
  end.
Proof.
  intros Hp Hne setup r.
  pose proof (lock_and_map_spec env fuel pSubstList s Hp
                ltac:(intros; contradiction)) as Hsetup.
  unfold wp in Hsetup. fold setup in Hsetup.
  destruct Hsetup as (Hview & _ & _ & Hcloses & Ho).
  set (Q := fun (o : Outcome Z) (s' : State) (e : list Event) =>
    match outcome_of setup with
    | Ok _ =>
        let launch := ExecuteProcess env argv executableToRunIndex (state_of setup) in
        let nodes := slots (pOrderedSubstList (state_of setup)) in
        Forall valid_lock nodes /\
        exists code ec,
          outcome_of launch = Ok code /\
          o = Ok code /\
          e = events_of setup ++ events_of launch ++ ec /\
          subst_commands ec = UnmapDrive_command <$> nodes /\
          closed_handles ec = hLockFile <$> nodes
    | Return c =>
        c = 1%Z /\ o = Ok 1%Z /\ s' = state_of setup /\ e = events_of setup /\
        closes_own (events_of setup)
    | Abort => o = Abort /\ e = events_of setup
    | Timeout => o = Timeout /\ e = events_of setup
    end).
  change (wp (SubstDrivesAndExecute env fuel argv pSubstList executableToRunIndex) s Q).
  unfold SubstDrivesAndExecute. apply wp_call, wp_bind. unfold assert.
  destruct pSubstList as [|p pSubstList]; [contradiction|]. cbn [is_null negb].
  apply wp_ret. unfold then_. apply wp_bind. unfold wp at 1. fold setup.
  unfold Q. clear Q.
  destruct (outcome_of setup) as [[]|c| |]; unfold then_; cbn [app].
  - destruct Ho as [Hvalid _].
    pose proof (ExecuteProcess_spec env argv executableToRunIndex (state_of setup))
      as Hlaunch.
    unfold wp in Hlaunch. destruct Hlaunch as (Ht & _ & Hcode).
    apply wp_bind. unfold wp at 1.
    set (launch := ExecuteProcess env argv executableToRunIndex (state_of setup)) in *.
    destruct (outcome_of launch) as [code| | |] eqn:Hlaunched; unfold then_;
      try contradiction.
    + apply wp_bind. unfold cleanup. rewrite <- Ht in Hvalid.
      eapply wp_mono; [apply (cleanup_each_valid env slot_indices _ Hvalid)|].
      cbv beta. intros o s4 ec (-> & _ & _ & Hsubst & Hclosed & _). unfold then_.
      apply wp_return. rewrite app_nil_r. rewrite Ht in Hvalid, Hsubst, Hclosed.
      split; [exact Hvalid|]. exists code, ec.
      split; [reflexivity|]. split; [reflexivity|]. split; [reflexivity|].
      split; [exact Hsubst|exact Hclosed].
    + exfalso. apply Hcode. intros j m Hm.
      apply (parsed_table_view (pOrderedSubstList s) _ Hview Hp j m Hm).
  - subst c. repeat split; try reflexivity. exact Hcloses.
  - split; reflexivity.
  - split; reflexivity.
Qed.

Lemma parsed_table_a_b : parsed_table table_a_b.
Proof.
  intros i n Hi. unfold table_a_b in Hi.
  apply lookup_insert_Some in Hi. destruct Hi as [[<- <-]|[_ Hi]].
  - split; [reflexivity|discriminate].
  - apply lookup_insert_Some in Hi. destruct Hi as [[<- <-]|[_ Hi]].
    + split; [reflexivity|discriminate].
    + rewrite lookup_empty in Hi. discriminate Hi.
Qed.

Lemma cleanup_witness :
  let s := mkState table_a_b 0 in
  let setup := lock_and_map machine_two_letters 2 [23; 24] s in
  let r := SubstDrivesAndExecute machine_two_letters 2 argv_X_Y [23; 24] 3 s in
  parsed_table (pOrderedSubstList s) /\
  [23; 24] <> @nil nat /\
  outcome_of setup = Ok tt /\
  Forall valid_lock (slots (pOrderedSubstList (state_of setup))) /\
  exists code ec,
    outcome_of r = Ok code /\
    closed_handles ec = hLockFile <$> slots (pOrderedSubstList (state_of setup)).
Proof.
  intros s setup r.
  split; [exact parsed_table_a_b|]. split; [discriminate|].
  assert (Hok : outcome_of setup = Ok tt) by (vm_compute; reflexivity).
  split; [exact Hok|].
  pose proof (cleanup_follows_the_child_only machine_two_letters 2 argv_X_Y [23; 24] 3
                s parsed_table_a_b ltac:(discriminate)) as H.
  cbv zeta in H. fold setup in H. rewrite Hok in H.
  destruct H as (Hvalid & code & ec & _ & Hcode & _ & _ & Hclosed).
  split; [exact Hvalid|]. exists code, ec. split; [exact Hcode|exact Hclosed].
Defined.

(** * The command line *)

(** ** Mapping tokens *)

Lemma wcsstr_zero (hay needle : list Z) :
  wcsstr hay needle = Some 0 <-> starts_with needle hay = true.
Proof.
  destruct hay as [|c hay]; simpl.
  - destruct (starts_with needle []); split; congruence.
  - destruct (starts_with needle (c :: hay)); [split; reflexivity|].
    destruct (wcsstr hay needle); simpl; split; congruence.
Qed.

Lemma wcsstr_char (c x : Z) (hay : list Z) :
  wcsstr (c :: hay) [x] = if (x =? c)%Z then Some 0 else option_map S (wcsstr hay [x]).
Proof.
  cbn [wcsstr starts_with]. destruct hay; rewrite andb_true_r; reflexivity.
Qed.

(** X1: an argument is a mapping token exactly when it is a letter, an
    equals sign and at least one more character. *)
Theorem mapping_token_shape (arg : list Z) :
  not_a_mapping arg = false <->
  exists letter rest,
    arg = letter :: W "=" ++ rest /\ isalpha letter = true /\ rest <> [].
Proof.
  unfold not_a_mapping, MIN_SUBST_LENGTH, wcslen.
  change (W "=") with [61%Z]. split.
  - intros H. apply orb_false_iff in H. destruct H as [H Hlen].
    apply orb_false_iff in H. destruct H as [Heq Halpha].
    apply negb_false_iff in Heq, Halpha. apply Nat.ltb_ge in Hlen.
    destruct arg as [|c [|d rest]]; cbn [length] in Hlen; try lia.
    cbn [nth] in Halpha. exists c, rest.
    assert (d = 61%Z) as ->.
    { rewrite !wcsstr_char in Heq.
      destruct (61 =? c)%Z; [discriminate Heq|].
      destruct (61 =? d)%Z eqn:Hd.
      - symmetry. apply Z.eqb_eq. exact Hd.
      - destruct (wcsstr rest [61%Z]); discriminate Heq. }
    split; [reflexivity|]. split; [exact Halpha|].
    destruct rest; [cbn [length] in Hlen; lia|discriminate].
  - intros (c & rest & -> & Halpha & Hrest).
    assert (Hc : (61 =? c)%Z = false).
    { apply Z.eqb_neq. intros <-. discriminate Halpha. }
    cbn [app nth]. rewrite !wcsstr_char, Hc, Z.eqb_refl, Halpha.
    destruct rest; [contradiction|reflexivity].
Qed.

(** The letter of a mapping token is one of the 26 the array has room
    for. *)
Lemma mapping_token_letter (arg : list Z) :
  not_a_mapping arg = false -> (65 <= token_letter arg <= 90)%Z.
Proof.
  intros H. apply mapping_token_shape in H. destruct H as (c & rest & -> & Halpha & _).
  unfold token_letter, totupper. cbn [nth]. unfold isalpha in Halpha.
  destruct ((97 <=? c) && (c <=? 122))%Z eqn:Hlow.
  - apply andb_true_iff in Hlow. lia.
  - rewrite orb_false_r in Halpha. apply andb_true_iff in Halpha. lia.
Qed.

Lemma token_slot_bound (arg : list Z) :
  not_a_mapping arg = false -> token_slot arg < NUMBER_DEFINABLE_SUBST.
Proof.
  intros H. apply mapping_token_letter in H.
  unfold token_slot, NUMBER_DEFINABLE_SUBST. lia.
Qed.

Lemma leading_after (args : list (list Z)) :
  leading_tokens args ++ after_tokens args = args.
Proof.
  induction args as [|arg args IH]; simpl; [reflexivity|].
  destruct (not_a_mapping arg); simpl; [reflexivity|]. rewrite IH. reflexivity.
Qed.

Lemma leading_tokens_are_tokens (args : list (list Z)) :
  Forall (fun arg => not_a_mapping arg = false) (leading_tokens args).
Proof.
  induction args as [|arg args IH]; simpl; [constructor|].
  destruct (not_a_mapping arg) eqn:H; constructor; assumption.
Qed.

Lemma after_tokens_head (args : list (list Z)) exe rest :
  after_tokens args = exe :: rest -> not_a_mapping exe = true.
Proof.
  induction args as [|arg args IH]; simpl; [discriminate|].
  destruct (not_a_mapping arg) eqn:H; [|exact IH].
  intros Heq. injection Heq as <- _. exact H.
Qed.

(** ** The parser *)

Lemma attributes_app e1 e2 : attributes (e1 ++ e2) = attributes e1 ++ attributes e2.
Proof. apply omap_app. Qed.

(** What every run of the parser's loop does: it never reports an invalid
    letter; it asks to exit exactly when the last directory it looked at
    is not one; and when it does not ask to exit, it stops at the first
    argument that is not a mapping token. *)
Lemma parse_args_run env args : forall i substList s,
  wp (parse_args env args i substList) s (fun o s' e =>
    Forall (fun ev => ev <> EvPrint invalid_letter_message) e /\
    match o with
    | Ok r =>
        shouldExit r = existsb not_a_directory (attributes e) /\
        (shouldExit r = false ->
         executableToRunIndex r =
           match after_tokens args with
           | [] => (-1)%Z
           | _ :: _ => (i + Z.of_nat (length (leading_tokens args)))%Z
           end)
    | Abort =>
        invalid_parameter_returns env = false /\
        Forall (fun attr => not_a_directory attr = false) (attributes e)
    | _ => False
    end).
Proof.
  induction args as [|arg args IH]; intros i substList s; simpl.
  - wp_auto. split; [constructor|]. split; reflexivity.
  - unfold new_SUBST_NODE. wp_auto; simpl.
    all: try lazymatch goal with
         | |- wp (parse_args _ _ _ _) _ _ =>
             eapply wp_mono; [apply IH|]; cbv beta; simpl;
             intros o s' e (Hev & Ho)
         end.
    all: try lazymatch goal with
         | H : ((token_letter _ <? 65) || _)%Z = true |- _ => idtac
         | H : ((totupper _ <? 65)%Z || _) = true, T : not_a_mapping _ = false |- _ =>
             exfalso; apply mapping_token_letter in T; unfold token_letter in T;
             apply orb_true_iff in H; lia
         end.
    all: try (split; [repeat first [exact Hev | constructor; try discriminate]|]).
    all: unfold not_a_directory.
    all: repeat match goal with
         | H : ?b = true |- context [?b] => rewrite H
         | H : ?b = false |- context [?b] => rewrite H
         end.
    all: cbn [orb].
    all: try (destruct o as [r| | |]; try contradiction).
    all: try (destruct Ho as [Hexit Hidx]).
    all: first
      [ exact Ho
      | split; [reflexivity | first [discriminate | intros _; cbn [length]; lia]]
      | split; [exact Hexit|]; intros Hgo; rewrite (Hidx Hgo);
        destruct (after_tokens args); cbn [length]; lia
      | split; [first [reflexivity | assumption]|]; repeat constructor; assumption
      | exfalso; unfold wcslen in *;
        match goal with
        | H : (length ?x <? length ?x + 1) = false |- _ => apply Nat.ltb_ge in H; lia
        end
      | split; [exact Hexit|]; constructor; [|exact Hidx]; cbv beta;
        repeat match goal with
               | H : ?b = false |- context [?b] => rewrite H
               end; reflexivity ].
Qed.

(** The table the loop builds when the invalid parameter handler of the
    CRT ends the process (its default): every token makes the node of its
    own cell, and no cell is asked for twice. *)
Lemma parse_args_table env args :
  invalid_parameter_returns env = false ->
  forall i substList s,
  wp (parse_args env args i substList) s (fun o s' e =>
    forall r, o = Ok r -> shouldExit r = false ->
      pSubstList r = substList ++ (token_slot <$> leading_tokens args) /\
      NoDup (token_slot <$> leading_tokens args) /\
      (forall arg, arg ∈ leading_tokens args ->
         pOrderedSubstList s !! token_slot arg = None /\
         pOrderedSubstList s' !! token_slot arg = Some (token_node arg)) /\
      (forall j, j ∉ token_slot <$> leading_tokens args ->
         pOrderedSubstList s' !! j = pOrderedSubstList s !! j)).
Proof.
  intros Hhandler.
  induction args as [|arg args IH]; intros i substList s; simpl.
  - wp_auto. intros r [= <-] _. simpl. rewrite app_nil_r.
    split; [reflexivity|]. split; [constructor|].
    split; [intros arg Harg; inversion Harg|reflexivity].
  - unfold new_SUBST_NODE. wp_auto; simpl.
    all: try lazymatch goal with
         | |- wp (parse_args _ _ _ _) _ _ =>
             eapply wp_mono; [apply IH|]; cbv beta; simpl;
             intros o s' e Ho
         end.
    all: try (intros r [= <-]; simpl; try discriminate).
    all: try discriminate.
    all: try lazymatch goal with
         | H : (wcslen ?x <? length ?x) = true |- _ =>
             exfalso; unfold wcslen in H; rewrite Nat.ltb_irrefl in H; discriminate H
         | H : invalid_parameter_returns _ = true |- _ => congruence
         | H : (wcslen ?x <? wcslen ?x + 1) = false |- _ =>
             exfalso; apply Nat.ltb_ge in H; lia
         end.
    + intros _. rewrite app_nil_r.
      split; [reflexivity|]. split; [constructor|].
      split; [intros a Ha; inversion Ha|reflexivity].
    + intros r Hr Hgo. destruct (Ho r Hr Hgo) as (Hlist & Hnodup & Hnodes & Hrest).
      clear Ho. simpl in Hnodes, Hrest.
      assert (Hfresh : token_slot arg ∉ token_slot <$> leading_tokens args).
      { intros Hin. apply list_elem_of_fmap in Hin. destruct Hin as (a & Heq & Ha).
        destruct (Hnodes a Ha) as [Hnone _]. rewrite <- Heq in Hnone.
        unfold token_slot, token_letter in Hnone.
        rewrite lookup_insert_eq in Hnone. discriminate Hnone. }
      split; [rewrite Hlist, <- app_assoc; reflexivity|].
      split; [constructor; assumption|]. split.
      * intros a Ha. apply elem_of_cons in Ha. destruct Ha as [-> | Ha].
        -- split; [exact Heqo|]. rewrite (Hrest _ Hfresh).
           unfold token_slot, token_letter. rewrite lookup_insert_eq. reflexivity.
        -- destruct (Hnodes a Ha) as [Hnone Hsome]. split; [|exact Hsome].
           rewrite lookup_insert_ne in Hnone; [exact Hnone|].
           intros Heq. apply Hfresh. apply list_elem_of_fmap. exists a.
           split; [exact Heq|exact Ha].
      * intros j Hj. apply not_elem_of_cons in Hj. destruct Hj as [Hne Hj].
        rewrite (Hrest j Hj). apply lookup_insert_ne.
        intros Heq. apply Hne. rewrite <- Heq. reflexivity.
Qed.

(** ** What the parser hands over *)

Lemma parse_run env argv s :
  wp (ParseSubstSourcesAndTargets env argv) s (fun o s' e =>
    Forall (fun ev => ev <> EvPrint invalid_letter_message) e /\
    match o with
    | Ok r =>
        shouldExit r = existsb not_a_directory (attributes e) /\
        (shouldExit r = false ->
         executableToRunIndex r =
           match after_tokens (skipn 1 argv) with
           | [] => (-1)%Z
           | _ :: _ => (1 + Z.of_nat (length (leading_tokens (skipn 1 argv))))%Z
           end)
    | Abort =>
        invalid_parameter_returns env = false /\
        Forall (fun attr => not_a_directory attr = false) (attributes e)
    | _ => False
    end).
Proof. apply parse_args_run. Qed.

(** X2: when the parser lets the run go on, the index it hands over is
    that of the first argument after the program name that is not a
    mapping token: every argument before it is a token, the arguments from
    it on are left alone, and the index is -1 when all arguments are
    tokens. *)
Theorem executable_is_the_first_non_mapping env argv s r :
  outcome_of (ParseSubstSourcesAndTargets env argv s) = Ok r ->
  shouldExit r = false ->
  match after_tokens (skipn 1 argv) with
  | [] =>
      executableToRunIndex r = (-1)%Z /\
      Forall (fun arg => not_a_mapping arg = false) (skipn 1 argv)
  | exe :: rest =>
      (1 <= executableToRunIndex r < Z.of_nat (length argv))%Z /\
      not_a_mapping exe = true /\
      skipn (Z.to_nat (executableToRunIndex r)) argv = exe :: rest /\
      Forall (fun arg => not_a_mapping arg = false)
        (firstn (Z.to_nat (executableToRunIndex r) - 1) (skipn 1 argv))
  end.
Proof.
  intros Ho Hgo. pose proof (parse_run env argv s) as H. unfold wp in H.
  rewrite Ho in H. destruct H as (_ & _ & Hidx). specialize (Hidx Hgo).
  pose proof (leading_after (skipn 1 argv)) as Hsplit.
  pose proof (leading_tokens_are_tokens (skipn 1 argv)) as Htokens.
  pose proof (length_skipn 1 argv) as Hlen.
  remember (skipn 1 argv) as args eqn:Hargs.
  remember (leading_tokens args) as tokens eqn:Htok.
  destruct (after_tokens args) as [|exe rest] eqn:Hafter.
  - split; [exact Hidx|]. rewrite app_nil_r in Hsplit. rewrite <- Hsplit.
    exact Htokens.
  - rewrite Hidx.
    replace (Z.to_nat (1 + Z.of_nat (length tokens))) with (1 + length tokens) by lia.
    rewrite <- Hsplit, length_app in Hlen. cbn [length] in Hlen.
    split; [lia|]. split; [exact (after_tokens_head _ _ _ Hafter)|]. split.
    + rewrite <- drop_drop, <- Hargs, <- Hsplit. apply drop_app_length.
    + replace (1 + length tokens - 1) with (length tokens) by lia.
      rewrite <- Hsplit, take_app_length. exact Htokens.
Qed.

Lemma executable_witness :
  outcome_of (ParseSubstSourcesAndTargets machine_release argv_X_Y InitializeState)
    = Ok (mkParseResult false [23; 24] 3) /\
  skipn 3 argv_X_Y = [W "cmd.exe"].
Proof.
  assert (Ho : outcome_of (ParseSubstSourcesAndTargets machine_release argv_X_Y
                             InitializeState)
               = Ok (mkParseResult false [23; 24] 3)) by (vm_compute; reflexivity).
  split; [exact Ho|].
  pose proof (executable_is_the_first_non_mapping machine_release argv_X_Y
                InitializeState _ Ho eq_refl) as H.
  exact (proj1 (proj2 (proj2 H))).
Defined.

(** X3: the parser never reports an invalid drive letter: an argument
    that passes the test for a mapping token starts with a letter, and its
    upper case is one of A to Z. *)
Theorem parser_never_reports_an_invalid_letter env argv s :
  EvPrint invalid_letter_message
    ∉ events_of (ParseSubstSourcesAndTargets env argv s).
Proof.
  pose proof (parse_run env argv s) as H. unfold wp in H. destruct H as [H _].
  intros Hin. rewrite Forall_forall in H. exact (H _ Hin eq_refl).
Qed.

(** X4: the parser asks the program to exit exactly when one of the
    locations it looked at is missing or is not a directory. *)
Theorem parser_exit_flag env argv s r :
  outcome_of (ParseSubstSourcesAndTargets env argv s) = Ok r ->
  shouldExit r
    = existsb not_a_directory
        (attributes (events_of (ParseSubstSourcesAndTargets env argv s))).
Proof.
  intros Ho. pose proof (parse_run env argv s) as H. unfold wp in H.
  rewrite Ho in H. exact (proj1 (proj2 H)).
Qed.

Lemma parser_exit_flag_witness :
  existsb not_a_directory
    (attributes (events_of (ParseSubstSourcesAndTargets machine_no_directory argv_X
                              InitializeState)))
  = true.
Proof.
  rewrite <- (parser_exit_flag machine_no_directory argv_X InitializeState
                (mkParseResult true [] (-1))).
  - reflexivity.
  - vm_compute. reflexivity.
Defined.

(** X5: when [GetFileAttributes] reports one of the locations that the
    parser looks at as missing or as something that is not a directory,
    the program prints the warning and returns 1; it has done nothing but
    look at directories: no lock file, no subst command, no child process.
    (The parser looks at the location of a token whose letter is new; the
    location that comes with a letter for the second time is not looked
    at.) *)
Theorem rejected_source_ends_the_run env fuel argv :
  let p := ParseSubstSourcesAndTargets env argv InitializeState in
  existsb not_a_directory (attributes (events_of p)) = true ->
  run_main env fuel argv = (Ok 1%Z, state_of p, events_of p) /\
  Forall parse_event (events_of p) /\
  opened_paths (events_of p) = [] /\
  subst_commands (events_of p) = [] /\
  launches (events_of p) = [].
Proof.
  intros p Hrejected.
  pose proof (parse_run env argv InitializeState) as H. unfold wp in H. fold p in H.
  pose proof (ParseSubstSourcesAndTargets_spec env argv) as H'. unfold wp in H'.
  fold p in H'. destruct H' as (Hevents & _).
  destruct H as (_ & H).
  assert (Hexit : exists r, outcome_of p = Ok r /\ shouldExit r = true).
  { destruct (outcome_of p) as [r| | |]; try contradiction.
    - exists r. split; [reflexivity|]. rewrite (proj1 H). exact Hrejected.
    - exfalso. destruct H as [_ H]. rewrite List.Forall_forall in H.
      apply existsb_exists in Hrejected. destruct Hrejected as (attr & Hin & Hbad).
      rewrite (H attr Hin) in Hbad. discriminate Hbad. }
  destruct Hexit as (r & Ho & Hr).
  split.
  - unfold run_main, _tmain, call, bind. fold p.
    destruct p as [[o s'] e]. unfold outcome_of in Ho. simpl in Ho. subst o.
    rewrite Hr. simpl. rewrite app_nil_r. reflexivity.
  - split; [exact Hevents|].
    split; [exact (parse_events_no_open _ Hevents)|].
    split; [exact (parse_events_no_subst _ Hevents)|].
    clear -Hevents. induction Hevents as [|ev es Hev _ IH]; [reflexivity|].
    destruct ev; simpl in *; try contradiction; exact IH.
Qed.

Lemma rejected_source_witness :
  run_main machine_no_directory 0 argv_X
    = (Ok 1%Z, mkState ∅ 1,
       [EvGetFileAttributes (W "c:\data\") INVALID_FILE_ATTRIBUTES;
        EvPrint "Warning: The local location %s is invalid.\r\n"]).
Proof.
  destruct (rejected_source_ends_the_run machine_no_directory 0 argv_X) as [H _].
  - vm_compute. reflexivity.
  - rewrite H. vm_compute. reflexivity.
Defined.

Lemma NoDup_token_letters (tokens : list (list Z)) :
  NoDup (token_slot <$> tokens) -> NoDup (token_letter <$> tokens).
Proof.
  intros H.
  apply (NoDup_fmap_1 (fun letter => Z.to_nat (letter - 65))).
  rewrite <- list_fmap_compose. exact H.
Qed.

(** X6: with the invalid parameter handler of the CRT at its default,
    which ends the process, a command line that the parser accepts names
    every letter once, and the parser has made one node for every mapping
    token: in the cell of the token's letter, with the upper-case letter,
    the lower-case location with a trailing separator, no mapped path and
    no lock; the list follows the command line, and the array holds
    nothing else. *)
Theorem parser_builds_one_slot_per_token env argv r :
  invalid_parameter_returns env = false ->
  let p := ParseSubstSourcesAndTargets env argv InitializeState in
  let tokens := leading_tokens (skipn 1 argv) in
  outcome_of p = Ok r ->
  shouldExit r = false ->
  NoDup (token_letter <$> tokens) /\
  pSubstList r = token_slot <$> tokens /\
  (forall arg, arg ∈ tokens ->
     pOrderedSubstList (state_of p) !! token_slot arg = Some (token_node arg)) /\
  (forall i, is_Some (pOrderedSubstList (state_of p) !! i) <-> i ∈ pSubstList r).
Proof.
  intros Hhandler p tokens Ho Hgo. subst tokens.
  set (tokens := leading_tokens (skipn 1 argv)).
  pose proof (parse_args_table env (skipn 1 argv) Hhandler 1%Z [] InitializeState) as H.
  unfold wp in H. fold (ParseSubstSourcesAndTargets env argv) in H. fold p in H.
  destruct (H r Ho Hgo) as (Hlist & Hnodup & Hnodes & Hrest).
  change (leading_tokens (skipn 1 argv)) with tokens in Hlist, Hnodup, Hnodes, Hrest.
  simpl in Hlist.
  split; [exact (NoDup_token_letters _ Hnodup)|].
  split; [exact Hlist|]. split.
  - intros arg Harg. exact (proj2 (Hnodes arg Harg)).
  - intros i. rewrite Hlist. split.
    + intros Hsome.
      destruct (decide (i ∈ token_slot <$> tokens)) as [Hin|Hout]; [exact Hin|].
      rewrite (Hrest i Hout) in Hsome. simpl in Hsome.
      rewrite lookup_empty in Hsome. destruct Hsome as [? Hsome]. discriminate Hsome.
    + intros Hin. apply list_elem_of_fmap in Hin. destruct Hin as (arg & -> & Harg).
      rewrite (proj2 (Hnodes arg Harg)). eexists. reflexivity.
Qed.

Lemma parser_table_witness :
  invalid_parameter_returns machine_release = false /\
  pOrderedSubstList
    (state_of (ParseSubstSourcesAndTargets machine_release argv_X_Y InitializeState))
    !! 24%nat
  = Some (mkNode 89 (Some (W "c:\b\")) None INVALID_HANDLE_VALUE).
Proof.
  split; [reflexivity|].
  assert (Ho : outcome_of (ParseSubstSourcesAndTargets machine_release argv_X_Y
                             InitializeState)
               = Ok (mkParseResult false [23; 24] 3)) by (vm_compute; reflexivity).
  destruct (parser_builds_one_slot_per_token machine_release argv_X_Y _ eq_refl Ho eq_refl)
    as (_ & _ & Hnodes & _).
  apply (Hnodes (W "Y=c:\b")). vm_compute. right. left.
Defined.

(** * The child process and the exit code *)

Lemma wp_conj {A} (m : M A) s (Q1 Q2 : Outcome A -> State -> list Event -> Prop) :
  wp m s Q1 -> wp m s Q2 -> wp m s (fun o s' e => Q1 o s' e /\ Q2 o s' e).
Proof. unfold wp. intros H1 H2. split; assumption. Qed.

Lemma launches_app e1 e2 : launches (e1 ++ e2) = launches e1 ++ launches e2.
Proof. apply omap_app. Qed.

Lemma no_launches (P : Event -> Prop) (es : list Event) :
  (forall e, P e -> launch e = None) -> Forall P es -> launches es = [].
Proof.
  intros HP. induction 1 as [|e es He _ IH]; [reflexivity|].
  unfold launches. cbn [omap list_omap]. rewrite (HP e He). exact IH.
Qed.

Lemma parse_events_no_launch es : Forall parse_event es -> launches es = [].
Proof. apply no_launches. intros []; simpl; (contradiction || reflexivity). Qed.

Lemma lock_events_no_launch es : Forall lock_event es -> launches es = [].
Proof. apply no_launches. intros []; simpl; (contradiction || reflexivity). Qed.

Lemma map_events_no_launch es : Forall map_event es -> launches es = [].
Proof. apply no_launches. intros []; simpl; (contradiction || reflexivity). Qed.

Lemma cleanup_events_no_launch es : Forall cleanup_event es -> launches es = [].
Proof. apply no_launches. intros []; simpl; (contradiction || reflexivity). Qed.

(** The current directories that [GetCurrentDirectory] delivered. *)
Lemma current_directories_app e1 e2 :
  current_directories (e1 ++ e2) = current_directories e1 ++ current_directories e2.
Proof. apply omap_app. Qed.

Lemma no_current_directories (P : Event -> Prop) (es : list Event) :
  (forall e, P e -> current_directory e = None) -> Forall P es ->
  current_directories es = [].
Proof.
  intros HP. induction 1 as [|e es He _ IH]; [reflexivity|].
  unfold current_directories. cbn [omap list_omap]. rewrite (HP e He). exact IH.
Qed.

Lemma parse_events_no_cwd es : Forall parse_event es -> current_directories es = [].
Proof. apply no_current_directories. intros []; simpl; (contradiction || reflexivity). Qed.

Lemma lock_events_no_cwd es : Forall lock_event es -> current_directories es = [].
Proof. apply no_current_directories. intros []; simpl; (contradiction || reflexivity). Qed.

Lemma map_events_no_cwd es : Forall map_event es -> current_directories es = [].
Proof. apply no_current_directories. intros []; simpl; (contradiction || reflexivity). Qed.

Lemma cleanup_events_no_cwd es : Forall cleanup_event es -> current_directories es = [].
Proof. apply no_current_directories. intros []; simpl; (contradiction || reflexivity). Qed.

Lemma quiet_map_event e : quiet e -> map_event e.
Proof. destruct e; simpl; tauto. Qed.

Lemma ends_with_assert_app e1 e2 : ends_with_assert e2 -> ends_with_assert (e1 ++ e2).
Proof.
  intros (pre & msg & ->). exists (e1 ++ pre), msg. rewrite app_assoc. reflexivity.
Qed.

Lemma ends_with_assert_cons ev es : ends_with_assert es -> ends_with_assert (ev :: es).
Proof. apply (ends_with_assert_app [ev]). Qed.

Lemma ends_with_assert_one message : ends_with_assert [EvAssert message].
Proof. exists [], message. reflexivity. Qed.

Lemma sources_set_view (t t' : gmap nat SUBST_NODE) :
  identity_view <$> t' = identity_view <$> t -> sources_set t -> sources_set t'.
Proof.
  intros Hview Hset j m' Hj.
  pose proof (view_lookup identity_view t t' j Hview) as Hv.
  rewrite Hj in Hv. destruct (t !! j) as [m|] eqn:Hm; simpl in Hv; [|discriminate Hv].
  unfold identity_view in Hv. injection Hv as _ Hsrc.
  rewrite Hsrc. exact (Hset j m Hm).
Qed.

Lemma parsed_table_sources (t : gmap nat SUBST_NODE) : parsed_table t -> sources_set t.
Proof. intros Hp j m Hj. exact (proj2 (Hp j m Hj)). Qed.

Lemma sleeps_cons ev es :
  sleeps (ev :: es) =
    match sleep_time ev with Some ms => ms :: sleeps es | None => sleeps es end.
Proof. reflexivity. Qed.

Ltac map_events_tac :=
  repeat first
    [ apply List.Forall_nil
    | apply List.Forall_cons; [first [exact I | reflexivity]|]
    | apply Forall_app; split
    | assumption
    | eapply Forall_impl; [eassumption | exact quiet_map_event] ].

Ltac sleeps_tac :=
  repeat first
    [ rewrite sleeps_app
    | rewrite quiet_sleeps by assumption
    | rewrite sleeps_cons; cbn [sleep_time]
    | rewrite app_nil_r
    | rewrite app_nil_l ];
  repeat first
    [ assumption | apply List.Forall_nil | apply List.Forall_cons; [reflexivity|] ].

Ltac ends_with_assert_tac :=
  repeat first
    [ apply ends_with_assert_one
    | assumption
    | apply ends_with_assert_cons
    | apply ends_with_assert_app ].

Lemma abnormal_app env t e1 e2 : abnormal env t e2 -> abnormal env t (e1 ++ e2).
Proof.
  intros [[Hdebug Hassert]|[[Hthrow Hempty]|Hundefined]].
  - left. split; [exact Hdebug|apply ends_with_assert_app; exact Hassert].
  - right. left. split; [apply ends_with_app; exact Hthrow|exact Hempty].
  - right. right. apply ends_with_app. exact Hundefined.
Qed.

Lemma abnormal_cons env t ev es : abnormal env t es -> abnormal env t (ev :: es).
Proof. apply (abnormal_app env t [ev]). Qed.

Ltac ends_with_tac :=
  repeat first
    [ apply ends_with_one
    | assumption
    | apply ends_with_cons
    | apply ends_with_app ].

Ltac abnormal_tac :=
  solve
    [ assumption
    | left; split; [first [reflexivity | assumption | congruence]|ends_with_assert_tac]
    | right; left; split; [solve [ends_with_tac]|];
      eexists _, _; split; [eassumption|]; first [eassumption | simpl; eassumption]
    | right; right; solve [ends_with_tac]
    | apply abnormal_app; abnormal_tac
    | apply abnormal_cons; abnormal_tac ].

Ltac null_source_tac Hset :=
  exfalso;
  match goal with
  | Hn : pOrderedSubstList _ !! _ = Some ?n, H : szSourceDirectory ?n = None |- _ =>
      exact (Hset _ _ Hn H)
  | Hn : pOrderedSubstList _ !! ?i = Some ?n,
    Hv : locked_view <$> pOrderedSubstList ?s1 = _,
    H : szSourceDirectory (default ?n (pOrderedSubstList ?s1 !! ?i)) = None |- _ =>
      let Hset1 := fresh in
      let Hn1 := fresh in
      pose proof (sources_set_view _ _ (locked_view_identity _ _ Hv) Hset) as Hset1;
      destruct (pOrderedSubstList s1 !! i) eqn:Hn1; simpl in H;
      [exact (Hset1 _ _ Hn1 H) | exact (Hset _ _ Hn H)]
  end.

(** One index of the second loop: what it does, how long it sleeps, and
    how it can end.  It moves on only when the slot is verified, and with
    every source directory set it ends the process only by the assertion
    of a debug build, by the exception of [MapDrive] or at an empty
    target of the listing. *)
Lemma map_drive_more env fuel i : forall s,
  sources_set (pOrderedSubstList s) ->
  wp (map_drive env fuel i) s (fun o s' e =>
    Forall map_event e /\
    Forall (fun ms => ms = RUN_IN_SUBST_TIMEOUT) (sleeps e) /\
    match o with
    | Ok _ => forall n, pOrderedSubstList s' !! i = Some n -> verified n = true
    | Abort => abnormal env (pOrderedSubstList s') e
    | _ => True
    end).
Proof.
  induction fuel as [|fuel IH]; intros s Hset; simpl.
  - wp_map; simpl.
    all: try (simpl in Hview).
    all: try solve [null_source_tac Hset].
    all: split; [map_events_tac|].
    all: split; [sleeps_tac|].
    all: try exact I.
    all: try abnormal_tac.
    all: try solve [intros n Hn; rewrite Heqo in Hn; discriminate Hn].
    all: intros n Hn; rewrite Hn in *; assumption.
  - wp_map; simpl.
    all: try (simpl in Hview).
    all: try solve [null_source_tac Hset].
    all: try lazymatch goal with
         | |- wp (map_drive _ _ _) _ _ =>
             eapply wp_mono;
             [apply IH; simpl;
              exact (sources_set_view _ _ (locked_view_identity _ _ Hview) Hset)|];
             cbv beta; simpl; intros o2 s2 e2 (Hev2 & Hsl2 & Ho2)
         end.
    all: split; [map_events_tac|].
    all: split; [sleeps_tac|].
    all: try exact I.
    all: try abnormal_tac.
    all: try solve [intros n Hn; rewrite Heqo in Hn; discriminate Hn].
    all: try solve [intros n Hn; rewrite Hn in *; assumption].
    all: destruct o2 as [[]| | |]; try exact I; try exact Ho2.
    all: abnormal_tac.
Qed.

(** The second loop as a whole. *)
Lemma map_each_more env fuel idxs : forall s,
  sources_set (pOrderedSubstList s) ->
  wp (for_each idxs (map_drive env fuel)) s (fun o s' e =>
    Forall map_event e /\
    locked_view <$> pOrderedSubstList s' = locked_view <$> pOrderedSubstList s /\
    match o with
    | Abort => abnormal env (pOrderedSubstList s') e
    | _ => True
    end).
Proof.
  induction idxs as [|i idxs IH]; intros s Hset; cbn [for_each].
  - wp_auto. split; [constructor|]. split; [reflexivity|exact I].
  - apply wp_bind.
    eapply wp_mono;
      [apply (wp_conj _ _ _ _ (map_drive_more env fuel i s Hset)
                (map_drive_spec env fuel i s))|].
    cbv beta. intros o s1 e1 ((Hev1 & _ & Ho1) & (Hview1 & _)).
    destruct o as [[]| | |]; unfold then_.
    + eapply wp_mono; [apply IH|].
      { exact (sources_set_view _ _ (locked_view_identity _ _ Hview1) Hset). }
      cbv beta. intros o s2 e2 (Hev2 & Hview2 & Ho2).
      split; [apply Forall_app; split; assumption|].
      split; [congruence|].
      destruct o as [[]| | |]; try exact I.
      apply abnormal_app. exact Ho2.
    + split; [exact Hev1|]. split; [exact Hview1|exact I].
    + split; [exact Hev1|]. split; [exact Hview1|exact Ho1].
    + split; [exact Hev1|]. split; [exact Hview1|exact I].
Qed.

(** The two loops start no child process, and end the process only in
    the ways of [abnormal]. *)
Lemma lock_and_map_more env fuel pSubstList s :
  parsed_table (pOrderedSubstList s) ->
  wp (lock_and_map env fuel pSubstList) s (fun o s' e =>
    launches e = [] /\
    current_directories e = [] /\
    match o with
    | Abort => abnormal env (pOrderedSubstList s') e
    | _ => True
    end).
Proof.
  intros Hp. unfold lock_and_map.
  destruct pSubstList as [|p pSubstList]; cbn [is_null].
  - wp_auto. split; [reflexivity|]. split; [reflexivity|exact I].
  - unfold lock_sources, map_drives. apply wp_bind.
    eapply wp_mono; [apply (lock_each_spec env fuel slot_indices); apply NoDup_seq|].
    cbv beta. intros o s1 e1 (Hview1 & _ & Hev1 & _ & _ & Ho1).
    pose proof (lock_events_no_launch e1 Hev1) as Hl1.
    pose proof (lock_events_no_cwd e1 Hev1) as Hd1.
    destruct o as [[]| | |]; unfold then_; try contradiction.
    + eapply wp_mono; [apply map_each_more|].
      { apply (sources_set_view (pOrderedSubstList s)); [exact Hview1|].
        apply parsed_table_sources. exact Hp. }
      cbv beta. intros o s2 e2 (Hev2 & _ & Ho2).
      rewrite launches_app, Hl1, (map_events_no_launch e2 Hev2).
      rewrite current_directories_app, Hd1, (map_events_no_cwd e2 Hev2).
      split; [reflexivity|]. split; [reflexivity|].
      destruct o as [[]| | |]; try exact I.
      apply abnormal_app. exact Ho2.
    + split; [exact Hl1|]. split; [exact Hd1|exact I].
    + split; [exact Hl1|]. split; [exact Hd1|exact I].
Qed.

Lemma match_slot_view cur acc (n n' : SUBST_NODE) :
  identity_view n' = identity_view n -> match_slot cur acc n' = match_slot cur acc n.
Proof.
  unfold identity_view, match_slot. intros H. injection H as Hletter Hsrc.
  rewrite Hletter, Hsrc. reflexivity.
Qed.

Lemma find_start_directory_view (t t' : gmap nat SUBST_NODE) cur :
  identity_view <$> t' = identity_view <$> t ->
  forall idxs acc,
    find_start_directory t' idxs cur acc = find_start_directory t idxs cur acc.
Proof.
  intros Hview. induction idxs as [|i idxs IH]; intros acc; cbn [find_start_directory];
    [reflexivity|].
  pose proof (view_lookup identity_view t t' i Hview) as Hi.
  destruct (t' !! i) as [n'|], (t !! i) as [n|]; simpl in Hi; try discriminate Hi.
  - assert (Hn : identity_view n' = identity_view n) by congruence.
    rewrite (match_slot_view cur acc n n' Hn).
    destruct (match_slot cur acc n); [apply IH|reflexivity].
  - apply IH.
Qed.

(** The working directory of the child depends on the letters and the
    source directories of the table, and on nothing else in it. *)
Lemma child_working_directory_view (t t' : gmap nat SUBST_NODE) dir :
  identity_view <$> t' = identity_view <$> t ->
  child_working_directory t' dir = child_working_directory t dir.
Proof.
  intros Hview. unfold child_working_directory.
  rewrite (find_start_directory_view t t' _ Hview). reflexivity.
Qed.

(** The launcher starts at most one process, with the command line built
    from the arguments at and after the index and in the directory worked
    out from the table, and its result is what came of that process. *)
Lemma ExecuteProcess_launch env argv executableToRunIndex s :
  wp (ExecuteProcess env argv executableToRunIndex) s (fun o s' e =>
    match launches e with
    | [] => o = Ok 1%Z \/ o = Abort
    | [(cmd, cwd, reply)] =>
        o = Ok (launch_result reply) /\
        executableToRunIndex <> (-1)%Z /\
        cmd = command_line argv (Z.to_nat executableToRunIndex) /\
        exists dir,
          current_directories e = [Some dir] /\
          child_working_directory (pOrderedSubstList s) dir = Some cwd
    | _ => False
    end).
Proof.
  unfold ExecuteProcess. wp_auto; simpl.
  all: first
    [ left; reflexivity
    | right; reflexivity
    | split; [reflexivity|]; split; [intros Heq; rewrite Heq in *; discriminate|];
      split; [reflexivity|]; eexists; split; [reflexivity|eassumption] ].
Qed.

(** [SubstDrivesAndExecute] from a table of the parser: the child process
    it started decides what it returns. *)
Lemma SubstDrivesAndExecute_launch env fuel argv pSubstList executableToRunIndex s :
  parsed_table (pOrderedSubstList s) ->
  (pSubstList = [] -> pOrderedSubstList s = ∅) ->
  wp (SubstDrivesAndExecute env fuel argv pSubstList executableToRunIndex) s
    (fun o s' e =>
       match launches e with
       | [] => forall c, o = Ok c -> c = 1%Z
       | [(cmd, cwd, reply)] =>
           o = Ok (launch_result reply) /\
           executableToRunIndex <> (-1)%Z /\
           cmd = command_line argv (Z.to_nat executableToRunIndex) /\
           exists dir,
             current_directories e = [Some dir] /\
             child_working_directory (pOrderedSubstList s) dir = Some cwd
       | _ => False
       end /\
       match o with
       | Abort => abnormal env (pOrderedSubstList s') e
       | Return _ => False
       | _ => True
       end).
Proof.
  intros Hp Hnull. unfold SubstDrivesAndExecute. apply wp_call, wp_bind.
  assert (Hmain : forall e0,
            launches e0 = [] -> current_directories e0 = [] ->
            wp (lock_and_map env fuel pSubstList ;;
                errorCode <- ExecuteProcess env argv executableToRunIndex ;;
                cleanup env ;; return_ errorCode) s
               (fun o s' e =>
                  match launches (e0 ++ e) with
                  | [] => forall c, match o with Return c' => Ok c' | _ => o end = Ok c
                                    -> c = 1%Z
                  | [(cmd, cwd, reply)] =>
                      match o with Return c' => Ok c' | _ => o end
                        = Ok (launch_result reply) /\
                      executableToRunIndex <> (-1)%Z /\
                      cmd = command_line argv (Z.to_nat executableToRunIndex) /\
                      exists dir,
                        current_directories (e0 ++ e) = [Some dir] /\
                        child_working_directory (pOrderedSubstList s) dir = Some cwd
                  | _ => False
                  end /\
                  match o with
                  | Abort => abnormal env (pOrderedSubstList s') (e0 ++ e)
                  | _ => True
                  end)).
  { intros e0 He0 Hd0. apply wp_bind.
    eapply wp_mono;
      [apply (wp_conj _ _ _ _ (lock_and_map_spec env fuel pSubstList s Hp Hnull)
                (lock_and_map_more env fuel pSubstList s Hp))|].
    cbv beta. intros o s2 e12 ((Hview & _ & _ & _ & Ho) & (Hl12 & Hd12 & Habort)).
    destruct o as [[]| | |]; unfold then_.
    - destruct Ho as [Hvalid _]. apply wp_bind.
      eapply wp_mono;
        [apply (wp_conj _ _ _ _ (ExecuteProcess_spec env argv executableToRunIndex s2)
                  (ExecuteProcess_launch env argv executableToRunIndex s2))|].
      cbv beta. intros o s3 ex ((Ht3 & Hex & Hox) & Hlx).
      destruct o as [errorCode| | |]; unfold then_; try contradiction.
      + apply wp_bind. unfold cleanup. rewrite <- Ht3 in Hvalid.
        eapply wp_mono; [apply (cleanup_each_valid env slot_indices s3 Hvalid)|]. cbv beta.
        intros o s4 ec (-> & _ & Hec & _). unfold then_.
        apply wp_return. rewrite !app_nil_r.
        rewrite !launches_app, He0, Hl12, (cleanup_events_no_launch ec Hec), app_nil_r.
        cbn [app]. split; [|exact I].
        destruct (launches ex) as [|[[cmd cwd] reply] [|]]; try contradiction.
        * destruct Hlx as [Hlx|Hlx]; [|discriminate Hlx].
          intros c [= <-]. injection Hlx as ->. reflexivity.
        * destruct Hlx as (Hlx & Hidx & Hcmd & dir & Hdir & Hcwd). injection Hlx as ->.
          split; [reflexivity|]. split; [exact Hidx|]. split; [exact Hcmd|].
          exists dir. split.
          -- rewrite !current_directories_app, Hd0, Hd12, Hdir,
               (cleanup_events_no_cwd ec Hec). reflexivity.
          -- rewrite <- Hcwd. symmetry. apply child_working_directory_view. exact Hview.
      + exfalso. apply Hox.
        apply (sources_set_view (pOrderedSubstList s)); [exact Hview|].
        apply parsed_table_sources. exact Hp.
    - subst code. rewrite launches_app, He0, Hl12.
      split; [|exact I]. intros c [= <-]. reflexivity.
    - rewrite launches_app, He0, Hl12.
      split; [intros c Hc; discriminate Hc|].
      apply abnormal_app. exact Habort.
    - rewrite launches_app, He0, Hl12.
      split; [intros c Hc; discriminate Hc|exact I]. }
  unfold assert. destruct (negb (is_null pSubstList)).
  - apply wp_ret. unfold then_.
    eapply wp_mono; [apply (Hmain [] eq_refl eq_refl)|]. cbv beta. simpl.
    intros o s' e [H1 H2]. destruct o; (split; [exact H1|first [exact H2 | exact I]]).
  - apply wp_bind, wp_emit. unfold then_ at 1.
    destruct (ndebug env) eqn:Hdebug.
    + apply wp_ret. unfold then_.
      eapply wp_mono;
        [apply (Hmain [EvAssert "pSubstList != nullptr"] eq_refl eq_refl)|].
      cbv beta. intros o s' e [H1 H2]. rewrite app_nil_r.
      destruct o; (split; [exact H1|first [exact H2 | exact I]]).
    + apply wp_abort. simpl.
      split; [intros c Hc; discriminate Hc|].
      left. split; [exact Hdebug|apply ends_with_assert_one].
Qed.

Lemma skipn_cons_nth {A} (l : list A) : forall i x r d,
  skipn i l = x :: r -> nth i l d = x /\ skipn (S i) l = r.
Proof.
  induction l as [|y l IH]; intros [|i] x r d H; simpl in H; try discriminate H.
  - injection H as -> ->. split; reflexivity.
  - apply (IH i x r d H).
Qed.

Lemma command_line_from (argv : list (list Z)) i exe rest :
  skipn i argv = exe :: rest ->
  command_line argv i = quoted_arguments (exe :: rest).
Proof.
  intros H. destruct (skipn_cons_nth argv i exe rest [] H) as [Hnth Hrest].
  unfold command_line, quoted_arguments. rewrite Hnth, Hrest.
  cbn [List.map concat]. rewrite <- app_assoc. reflexivity.
Qed.

Lemma skipn_to_executable (argv : list (list Z)) :
  skipn (S (length (leading_tokens (skipn 1 argv)))) argv = after_tokens (skipn 1 argv).
Proof.
  change (S (length (leading_tokens (skipn 1 argv))))
    with (1 + length (leading_tokens (skipn 1 argv))).
  rewrite <- drop_drop.
  pose proof (leading_after (skipn 1 argv)) as Hsplit.
  remember (skipn 1 argv) as args. remember (leading_tokens args) as tokens.
  remember (after_tokens args) as rest.
  rewrite <- Hsplit. apply drop_app_length.
Qed.

(** The whole program: the child process it started decides the exit
    code, the command line of the child is made of the arguments from the
    first one that is not a mapping token, and the process ends abnormally
    only in the ways of [abnormal] or in the parser. *)
Lemma run_main_launch env fuel argv :
  wp (_tmain env fuel argv) InitializeState (fun o s' e =>
    match launches e with
    | [] => forall c, o = Ok c -> c = 1%Z
    | [(cmd, cwd, reply)] =>
        o = Ok (launch_result reply) /\
        after_tokens (skipn 1 argv) <> [] /\
        cmd = quoted_arguments (after_tokens (skipn 1 argv)) /\
        exists dir,
          current_directories e = [Some dir] /\
          child_working_directory (pOrderedSubstList s') dir = Some cwd
    | _ => False
    end /\
    match o with
    | Abort =>
        abnormal env (pOrderedSubstList s') e \/
        (invalid_parameter_returns env = false /\ Forall parse_event e)
    | Return _ => False
    | _ => True
    end).
Proof.
  unfold _tmain. apply wp_call, wp_bind.
  eapply wp_mono;
    [apply (wp_conj _ _ _ _ (ParseSubstSourcesAndTargets_spec env argv)
              (parse_run env argv InitializeState))|].
  cbv beta. intros o s1 e0 ((Hev0 & Hp & Hnull) & (_ & Hrun)).
  pose proof (parse_events_no_launch e0 Hev0) as Hl0.
  pose proof (parse_events_no_cwd e0 Hev0) as Hd0.
  destruct o as [r| | |]; unfold then_; try contradiction.
  - destruct Hrun as [_ Hidx].
    destruct (shouldExit r) eqn:Hexit.
    + apply wp_return. rewrite app_nil_r, Hl0.
      split; [|exact I]. intros c [= <-]. reflexivity.
    + specialize (Hidx eq_refl). apply wp_bind.
      eapply wp_mono;
        [apply (wp_conj _ _ _ _
                  (SubstDrivesAndExecute_launch env fuel argv _ _ s1 Hp Hnull)
                  (SubstDrivesAndExecute_spec env fuel argv _ _ s1 Hp Hnull))|].
      cbv beta. intros o s2 e1 ((Hlaunch & Ho) & (Hview & _)).
      destruct o as [c| | |]; unfold then_; try contradiction.
      * apply wp_return. rewrite app_nil_r, launches_app, Hl0. cbn [app].
        split; [|exact I].
        destruct (launches e1) as [|[[cmd cwd] reply] [|]]; try contradiction.
        -- exact Hlaunch.
        -- destruct Hlaunch as (Hc & Hne & Hcmd & dir & Hdir & Hcwd).
           destruct (after_tokens (skipn 1 argv)) as [|exe rest] eqn:Hafter;
             [contradiction|].
           split; [exact Hc|]. split; [discriminate|]. split.
           ++ rewrite Hcmd, Hidx.
              replace (Z.to_nat (1 + Z.of_nat (length (leading_tokens (skipn 1 argv)))))
                with (S (length (leading_tokens (skipn 1 argv)))) by lia.
              apply command_line_from. rewrite skipn_to_executable. exact Hafter.
           ++ exists dir. split.
              ** rewrite current_directories_app, Hd0, Hdir. reflexivity.
              ** rewrite <- Hcwd. apply child_working_directory_view. exact Hview.
      * rewrite launches_app, Hl0. cbn [app].
        split; [|left; apply abnormal_app; exact Ho].
        destruct (launches e1) as [|[[cmd cwd] reply] [|]]; try contradiction.
        -- intros c Hc. discriminate Hc.
        -- destruct Hlaunch as (Hc & _). discriminate Hc.
      * rewrite launches_app, Hl0. cbn [app]. split; [|exact I].
        destruct (launches e1) as [|[[cmd cwd] reply] [|]]; try contradiction.
        -- intros c Hc. discriminate Hc.
        -- destruct Hlaunch as (Hc & _). discriminate Hc.
  - rewrite Hl0. split; [intros c Hc; discriminate Hc|].
    right. split; [exact (proj1 Hrun)|exact Hev0].
Qed.

(** X7: the program starts at most one child process, and that process
    decides the exit code: the exit code of the child, converted to [int],
    when it could be read, and 1 when the process could not be created or
    its exit code could not be read.  A run that starts no child returns 1
    if it returns at all. *)
Theorem exit_code_is_the_childs env fuel argv :
  let r := run_main env fuel argv in
  match launches (events_of r) with
  | [] => forall c, outcome_of r = Ok c -> c = 1%Z
  | [(cmd, cwd, reply)] => outcome_of r = Ok (launch_result reply)
  | _ => False
  end.
Proof.
  intros r. pose proof (run_main_launch env fuel argv) as H. unfold wp in H.
  fold (run_main env fuel argv) in H. fold r in H. destruct H as [H _].
  destruct (launches (events_of r)) as [|[[cmd cwd] reply] [|]]; try exact H.
  exact (proj1 H).
Qed.

(** X8: the command line of the child process is made of the arguments
    from the first one that is not a mapping token to the last, each
    followed by a space, and those that hold a space between double
    quotes; the name of the program and the mapping tokens are not part of
    it. *)
Theorem child_command_line env fuel argv cmd cwd reply :
  (cmd, cwd, reply) ∈ launches (events_of (run_main env fuel argv)) ->
  after_tokens (skipn 1 argv) <> [] /\
  cmd = quoted_arguments (after_tokens (skipn 1 argv)).
Proof.
  intros Hin. pose proof (run_main_launch env fuel argv) as H. unfold wp in H.
  fold (run_main env fuel argv) in H. destruct H as [H _].
  destruct (launches (events_of (run_main env fuel argv)))
    as [|[[cmd' cwd'] reply'] [|]]; try contradiction.
  - inversion Hin.
  - apply list_elem_of_singleton in Hin. injection Hin as -> -> ->.
    destruct H as (_ & Hne & Hcmd & _). split; assumption.
Qed.

Lemma child_command_line_witness :
  quoted_arguments (after_tokens (skipn 1 argv_no_mapping))
    = W "cmd.exe /c " ++ [DQUOTE] ++ W "echo hello" ++ [DQUOTE; SPACE].
Proof.
  destruct (child_command_line machine_release 0 argv_no_mapping
              (quoted_arguments (skipn 1 argv_no_mapping)) (W "c:\") (Some (Some 0%Z)))
    as [_ H].
  - vm_compute. left.
  - rewrite <- H. vm_compute. reflexivity.
Defined.







Lemma all_tokens_no_executable (args : list (list Z)) :
  Forall (fun arg => not_a_mapping arg = false) args -> after_tokens args = [].
Proof.
  induction 1 as [|arg args Harg _ IH]; simpl; [reflexivity|].
  rewrite Harg. exact IH.
Qed.

(** X10: when every argument is a mapping token, no child process is
    started, and the program returns 1 if it returns at all. *)
Theorem no_executable_no_child env fuel argv :
  Forall (fun arg => not_a_mapping arg = false) (skipn 1 argv) ->
  let r := run_main env fuel argv in
  launches (events_of r) = [] /\
  forall c, outcome_of r = Ok c -> c = 1%Z.
Proof.
  intros Htokens r. pose proof (run_main_launch env fuel argv) as H. unfold wp in H.
  fold (run_main env fuel argv) in H. fold r in H. destruct H as [H _].
  destruct (launches (events_of r)) as [|[[cmd cwd] reply] [|]]; try contradiction.
  - split; [reflexivity|exact H].
  - destruct H as (_ & Hne & _). exfalso. apply Hne.
    apply all_tokens_no_executable. exact Htokens.
Qed.

Lemma no_executable_witness :
  outcome_of (run_main machine_mapped 0 argv_no_executable) = Ok 1%Z /\
  launches (events_of (run_main machine_mapped 0 argv_no_executable)) = [].
Proof.
  assert (Htokens : Forall (fun arg => not_a_mapping arg = false)
                      (skipn 1 argv_no_executable)).
  { repeat constructor. }
  destruct (no_executable_no_child machine_mapped 0 argv_no_executable Htokens)
    as [Hnone _].
  split; [vm_compute; reflexivity|exact Hnone].
Defined.

(** X18: the working directory of the child process is worked out from
    the current directory and from the letters and source directories of
    the slots; the mapped paths that the listing reported and the lock
    handles play no part in it. *)
Theorem child_directory_from_sources env fuel argv cmd cwd reply :
  let r := run_main env fuel argv in
  (cmd, cwd, reply) ∈ launches (events_of r) ->
  exists dir,
    current_directories (events_of r) = [Some dir] /\
    forall t : gmap nat SUBST_NODE,
      identity_view <$> t = identity_view <$> pOrderedSubstList (state_of r) ->
      child_working_directory t dir = Some cwd.
Proof.
  intros r Hin. pose proof (run_main_launch env fuel argv) as H. unfold wp in H.
  fold (run_main env fuel argv) in H. fold r in H. destruct H as [H _].
  destruct (launches (events_of r)) as [|[[cmd' cwd'] reply'] [|]]; try contradiction.
  - inversion Hin.
  - apply list_elem_of_singleton in Hin. injection Hin as -> -> ->.
    destruct H as (_ & _ & _ & dir & Hdir & Hcwd).
    exists dir. split; [exact Hdir|].
    intros t Hview. rewrite <- Hcwd. apply child_working_directory_view. exact Hview.
Qed.

Lemma child_directory_witness :
  child_working_directory
    (<[23%nat := mkNode 88 (Some (W "c:\data\")) None INVALID_HANDLE_VALUE]> ∅)
    (W "C:\Data\Sub")
  = Some (W "X:\sub\").
Proof.
  destruct (child_directory_from_sources machine_in_source 0 argv_X
              (W "cmd.exe ") (W "X:\sub\") (Some (Some 0%Z)))
    as (dir & Hdir & Hcwd).
  - vm_compute. left.
  - assert (Heq : dir = W "C:\Data\Sub").
    { revert Hdir. vm_compute. intros H. injection H as <-. reflexivity. }
    rewrite <- Heq. apply Hcwd. vm_compute. reflexivity.
Defined.

(** * A command line without mapping tokens *)

Lemma parse_no_tokens env argv s :
  leading_tokens (skipn 1 argv) = [] ->
  ParseSubstSourcesAndTargets env argv s
    = (Ok (mkParseResult false []
             (match skipn 1 argv with [] => (-1)%Z | _ :: _ => 1%Z end)), s, []).
Proof.
  unfold ParseSubstSourcesAndTargets.
  destruct (skipn 1 argv) as [|exe rest]; simpl; [reflexivity|].
  destruct (not_a_mapping exe); [reflexivity|discriminate].
Qed.

Lemma find_start_directory_empty cur : forall idxs acc,
  find_start_directory ∅ idxs cur acc = Some acc.
Proof.
  induction idxs as [|i idxs IH]; intros acc; simpl; [reflexivity|].
  rewrite lookup_empty. apply IH.
Qed.

Lemma child_working_directory_empty dir :
  child_working_directory ∅ dir = Some (normalize_current_directory dir).
Proof.
  unfold child_working_directory. rewrite find_start_directory_empty. reflexivity.
Qed.

Lemma cleanup_empty env : forall idxs s,
  pOrderedSubstList s = ∅ ->
  for_each idxs (cleanup_slot env) s = (Ok tt, s, []).
Proof.
  induction idxs as [|i idxs IH]; intros s Hs; cbn [for_each]; [reflexivity|].
  assert (Hslot : cleanup_slot env i s = (Ok tt, s, [])).
  { unfold cleanup_slot, bind, get_node. rewrite Hs, lookup_empty. reflexivity. }
  unfold bind. rewrite Hslot, (IH s Hs). reflexivity.
Qed.



(** X12: without a mapping token a release build locks nothing and calls
    no subst command: it starts the child with all the arguments after
    the program name, in the current directory put into lower case and
    ended by a separator, and returns what came of it. *)
Theorem no_mapping_release_build_runs_the_child env fuel argv dir :
  ndebug env = true ->
  leading_tokens (skipn 1 argv) = [] ->
  skipn 1 argv <> [] ->
  os_GetCurrentDirectory env 0 = Some dir ->
  let cmd := quoted_arguments (skipn 1 argv) in
  let cwd := normalize_current_directory dir in
  let reply := os_CreateProcess env 1 cmd cwd in
  let r := run_main env fuel argv in
  outcome_of r = Ok (launch_result reply) /\
  launches (events_of r) = [(cmd, cwd, reply)] /\
  opened_paths (events_of r) = [] /\
  subst_commands (events_of r) = [] /\
  pOrderedSubstList (state_of r) = ∅.
Proof.
  intros Hrelease Hnone Hargs Hdir cmd cwd reply r.
  assert (Hcmd : command_line argv 1 = cmd).
  { destruct (skipn 1 argv) as [|exe rest] eqn:Hskip; [contradiction|].
    unfold cmd. apply command_line_from. exact Hskip. }
  change (wp (_tmain env fuel argv) InitializeState (fun o s' e =>
            o = Ok (launch_result reply) /\
            launches e = [(cmd, cwd, reply)] /\
            opened_paths e = [] /\
            subst_commands e = [] /\
            pOrderedSubstList s' = ∅)).
  unfold _tmain. apply wp_call, wp_bind.
  eapply wp_run; [exact (parse_no_tokens env argv InitializeState Hnone)|].
  unfold then_. cbn [shouldExit pSubstList executableToRunIndex].
  destruct (skipn 1 argv) as [|exe rest] eqn:Hskip; [contradiction|].
  unfold SubstDrivesAndExecute, lock_and_map, ExecuteProcess.
  cbn [is_null negb]. change (1 =? -1)%Z with false. cbv iota.
  wp_auto; cbn [clock InitializeState pOrderedSubstList] in *.
  all: try congruence.
  all: try solve [rewrite child_working_directory_empty in *; discriminate].
  all: unfold cleanup; eapply wp_run; [apply cleanup_empty; reflexivity|].
  all: wp_auto.
  all: match goal with
       | H : os_GetCurrentDirectory _ 0 = Some _ |- _ =>
           rewrite Hdir in H; injection H as <-
       end.
  all: match goal with
       | H : child_working_directory ∅ _ = Some _ |- _ =>
           rewrite child_working_directory_empty in H; injection H as <-
       end.
  all: change (Z.to_nat 1) with 1 in *; rewrite Hcmd in *.
  all: unfold reply, cwd.
  all: match goal with
       | H : os_CreateProcess _ 1 _ _ = _ |- _ => rewrite H
       end.
  all: cbn; repeat split; reflexivity.
Qed.

Lemma no_mapping_release_witness :
  outcome_of (run_main machine_release 0 argv_no_mapping) = Ok 0%Z /\
  launches (events_of (run_main machine_release 0 argv_no_mapping))
    = [(W "cmd.exe /c " ++ [DQUOTE] ++ W "echo hello" ++ [DQUOTE; SPACE],
        W "c:\", Some (Some 0%Z))].
Proof.
  destruct (no_mapping_release_build_runs_the_child machine_release 0 argv_no_mapping
              (W "c:\") eq_refl eq_refl ltac:(discriminate) eq_refl)
    as (Ho & Hl & _).
  split; [exact Ho|exact Hl].
Defined.

(** * Reading the listing of the mappings *)

Lemma scan_path_target (target rest : list Z) :
  forallb (fun c => negb ((c =? 13) || (c =? 0))%Z) target = true ->
  scan_path (target ++ 13%Z :: rest) = (List.map lower_char target, length target).
Proof.
  induction target as [|c target IH]; intros Hok.
  - reflexivity.
  - cbn [forallb] in Hok. apply andb_true_iff in Hok. destruct Hok as [Hc Hok].
    apply negb_true_iff in Hc. cbn [app scan_path]. rewrite Hc, (IH Hok). reflexivity.
Qed.

Lemma isalpha_drive_letter (c : Z) :
  isalpha c = true ->
  to_wchar c = c /\ (65 <= totupper c <= 90)%Z /\ (c =? 0)%Z = false.
Proof.
  unfold isalpha, to_wchar, totupper. intros H.
  destruct ((97 <=? c) && (c <=? 122))%Z eqn:Hlow.
  - apply andb_true_iff in Hlow.
    split; [apply Z.mod_small; lia|]. split; [lia|apply Z.eqb_neq; lia].
  - rewrite orb_false_r in H. apply andb_true_iff in H.
    split; [apply Z.mod_small; lia|]. split; [lia|apply Z.eqb_neq; lia].
Qed.

Lemma skipn_past {A} (pre l : list A) n :
  skipn (length pre + n) (pre ++ l) = skipn n l.
Proof. induction pre as [|x pre IH]; [reflexivity|exact IH]. Qed.

Lemma nth_past {A} (pre l : list A) n d :
  nth (length pre + n) (pre ++ l) d = nth n l d.
Proof. induction pre as [|x pre IH]; [reflexivity|exact IH]. Qed.

Lemma nth_skipn_add {A} (l : list A) : forall n k d,
  nth (n + k) l d = nth k (skipn n l) d.
Proof.
  induction l as [|x l IH]; intros [|n] k d; try reflexivity.
  - destruct k; reflexivity.
  - apply IH.
Qed.

Lemma state_eta s : mkState (pOrderedSubstList s) (clock s) = s.
Proof. destruct s. reflexivity. Qed.

(** One record of the listing: the loop stores the mapped path and starts
    over behind the line. *)
Lemma parse_records_line env fuel pre l rest s Q :
  well_formed_line l = true ->
  wp (parse_records env fuel (pre ++ listing_line l ++ rest)
        (length pre + length (listing_line l)))
     (mkState (record_mapping (pOrderedSubstList s) l) (clock s)) Q ->
  wp (parse_records env (S fuel) (pre ++ listing_line l ++ rest) (length pre)) s Q.
Proof.
  intros Hwf Hrest. unfold well_formed_line in Hwf.
  apply andb_true_iff in Hwf. destruct Hwf as [Hwf Htarget].
  apply andb_true_iff in Hwf. destruct Hwf as [Hwf Hnonempty].
  apply andb_true_iff in Hwf. destruct Hwf as [Halpha Hskipped].
  apply Nat.eqb_eq in Hskipped. apply negb_true_iff, Nat.eqb_neq in Hnonempty.
  destruct (isalpha_drive_letter _ Halpha) as (Hwchar & Hupper & Hnonzero).
  destruct l as [letter skipped target]. cbn [line_letter line_skipped line_target] in *.
  set (chBuf := pre ++ listing_line (mkLine letter skipped target) ++ rest) in *.
  assert (Hbuf : chBuf = pre ++ letter :: skipped ++ target ++ 13%Z :: 10%Z :: rest).
  { unfold chBuf, listing_line. cbn [line_letter line_skipped line_target].
    rewrite <- !app_comm_cons, <- !app_assoc. reflexivity. }
  assert (Hlen : length (listing_line (mkLine letter skipped target))
                 = 8 + length target + 2).
  { unfold listing_line. cbn [line_letter line_skipped line_target length].
    rewrite !length_app, Hskipped. cbn [length]. lia. }
  assert (H1 : nth (length pre) chBuf 0%Z = letter).
  { rewrite Hbuf. apply nth_middle. }
  assert (H2 : skipn (length pre + 8) chBuf = target ++ 13%Z :: 10%Z :: rest).
  { rewrite Hbuf, skipn_past. cbn [skipn].
    replace 7 with (length skipped + 0) by lia. apply (skipn_past skipped). }
  assert (H3 : nth (length pre + 8 + length target) chBuf 0%Z = 13%Z).
  { rewrite nth_skipn_add, H2. apply nth_middle. }
  cbn [parse_records]. rewrite H1, Hnonzero. unfold GET_PATH_TARGET_OFFSET.
  rewrite H2, (scan_path_target _ _ Htarget), Hwchar.
  replace ((totupper letter <? 65)%Z || (totupper letter >? 90)%Z) with false
    by (symmetry; apply orb_false_iff; split;
        [apply Z.ltb_ge|rewrite Z.gtb_ltb; apply Z.ltb_ge]; lia).
  rewrite H3. change (13 =? 0)%Z with false. cbv iota.
  rewrite Hlen in Hrest.
  replace (length pre + 8 + length target + 2)
    with (length pre + (8 + length target + 2)) by lia.
  unfold record_mapping in Hrest. cbn [line_letter line_target] in Hrest.
  unfold recorded_path in Hrest.
  replace (wcslen (List.map lower_char target) =? 0) with false
    by (symmetry; apply Nat.eqb_neq; unfold wcslen; rewrite length_map; exact Hnonempty).
  unfold wcscpy_s, wcslen. rewrite mapped_path_fits.
  wp_auto.
  - exact Hrest.
  - rewrite state_eta in Hrest. exact Hrest.
Qed.

Lemma length_concat_lines (lines : list ListingLine) :
  length lines <= length (concat (List.map listing_line lines)).
Proof.
  induction lines as [|l lines IH]; cbn [List.map concat length]; [lia|].
  rewrite length_app. unfold listing_line at 1. cbn [length]. lia.
Qed.

(** The records at the head of a buffer: the loop goes through them one
    by one and goes on behind the last. *)
Lemma parse_records_lines env (lines : list ListingLine) rest : forall fuel pre s Q,
  Forall (fun l => well_formed_line l = true) lines ->
  wp (parse_records env fuel (pre ++ concat (List.map listing_line lines) ++ rest)
        (length pre + length (concat (List.map listing_line lines))))
     (mkState (foldl record_mapping (pOrderedSubstList s) lines) (clock s)) Q ->
  wp (parse_records env (length lines + fuel)
        (pre ++ concat (List.map listing_line lines) ++ rest) (length pre)) s Q.
Proof.
  induction lines as [|l lines IH]; intros fuel pre s Q Hwf Hrest.
  - cbn [List.map concat length app foldl] in *.
    rewrite Nat.add_0_r, state_eta in Hrest. exact Hrest.
  - inversion Hwf as [|? ? Hl Hlines]; subst.
    cbn [List.map concat length foldl Nat.add] in *.
    rewrite <- app_assoc. apply parse_records_line; [exact Hl|].
    specialize (IH fuel (pre ++ listing_line l)
                  (mkState (record_mapping (pOrderedSubstList s) l) (clock s)) Q Hlines).
    rewrite <- !app_assoc, length_app in IH. apply IH.
    cbn [pOrderedSubstList clock].
    rewrite length_app, Nat.add_assoc, <- app_assoc in Hrest. exact Hrest.
Qed.

Lemma parse_records_end env fuel (chBuf : list Z) i s :
  nth i chBuf 0%Z = 0%Z -> parse_records env fuel chBuf i s = (Ok i, s, []).
Proof. intros H. destruct fuel; cbn [parse_records]; rewrite H; reflexivity. Qed.

Lemma parse_records_no_letter env fuel (chBuf : list Z) i s :
  nth i chBuf 0%Z <> 0%Z ->
  not_a_drive_letter (nth i chBuf 0%Z) = true ->
  parse_records env fuel chBuf i s = (Return 1%Z, s, [EvPrint invalid_letter_message]).
Proof.
  intros Hnonzero Hbad. apply Z.eqb_neq in Hnonzero. unfold not_a_drive_letter in Hbad.
  destruct fuel; cbn [parse_records]; rewrite Hnonzero;
    destruct (scan_path _) as [mappedPath n]; rewrite Hbad; reflexivity.
Qed.

Lemma no_lines (lines : list ListingLine) :
  length (concat (List.map listing_line lines)) = 0 -> lines = [].
Proof.
  intros H. pose proof (length_concat_lines lines) as Hlen. rewrite H in Hlen.
  destruct lines; [reflexivity|cbn [length] in Hlen; lia].
Qed.

(** X13: when the listing arrives in one read and every line is a record
    (a letter, seven characters that are skipped, a target, and the end of
    the line), [GetMappedPaths] returns 0 and has gone through the lines
    in their order: for every line whose letter has a slot, the mapped
    path of the slot is the target in lower case, with a trailing
    separator and without a leading [\??\]; lines of other letters change
    nothing, and a slot without a line keeps the mapped path it had. *)
Theorem GetMappedPaths_reads_the_listing env s (lines : list ListingLine) :
  let data := concat (List.map listing_line lines) in
  Forall (fun l => well_formed_line l = true) lines ->
  (Z.of_nat (length data) < SUBST_SOURCE_LENGTH)%Z ->
  os_Enumerate env (clock s) = mkEnumReply true true true true [(true, data)] ->
  let r := GetMappedPaths env s in
  outcome_of r = Ok 0%Z /\
  pOrderedSubstList (state_of r) = foldl record_mapping (pOrderedSubstList s) lines /\
  events_of r = [EvEnumerate (os_Enumerate env (clock s))].
Proof.
  intros data Hwf _ Henum r.
  change (wp (GetMappedPaths env) s (fun o s' e =>
            o = Ok 0%Z /\
            pOrderedSubstList s' = foldl record_mapping (pOrderedSubstList s) lines /\
            e = [EvEnumerate (os_Enumerate env (clock s))])).
  unfold GetMappedPaths. apply wp_call, wp_bind, wp_tick. unfold then_ at 1.
  rewrite Henum. cbn [CreatePipe_ok SetHandleInformation_ok CreateProcess_ok
                      CloseHandle_ok ReadFile_results negb].
  apply wp_bind, wp_emit. unfold then_ at 1. apply wp_bind.
  cbn [read_pipe negb orb].
  destruct (length data =? 0) eqn:Hempty.
  - apply Nat.eqb_eq in Hempty. rewrite (no_lines lines Hempty).
    wp_auto. repeat split.
  - apply wp_bind.
    set (chBuf := data ++ [0%Z] ++ skipn (length data + 1) []).
    replace (length chBuf) with (length lines + (length chBuf - length lines))
      by (pose proof (length_concat_lines lines); unfold chBuf, data;
          rewrite length_app; lia).
    apply (parse_records_lines env lines _ _ [] _ _ Hwf). fold data. fold chBuf.
    assert (Hend : nth (length data) chBuf 0%Z = 0%Z) by apply nth_middle.
    eapply wp_run; [apply parse_records_end; exact Hend|].
    unfold then_ at 1. cbn [app length Nat.add]. rewrite Hend.
    change (negb (0 =? 0)%Z) with false. cbv iota.
    wp_auto. repeat split.
Qed.

Lemma GetMappedPaths_listing_witness :
  Forall (fun l => well_formed_line l = true) lines_X_Y /\
  pOrderedSubstList
    (state_of (GetMappedPaths (machine_lines lines_X_Y) (mkState table_X_Y 0)))
    !! 24%nat
  = Some (mkNode 89 (Some (W "c:\work\")) (Some (W "c:\work\")) 101).
Proof.
  assert (Hwf : Forall (fun l => well_formed_line l = true) lines_X_Y)
    by (repeat constructor).
  split; [exact Hwf|].
  destruct (GetMappedPaths_reads_the_listing (machine_lines lines_X_Y)
              (mkState table_X_Y 0) lines_X_Y Hwf ltac:(vm_compute; reflexivity) eq_refl)
    as (_ & Htable & _).
  rewrite Htable. vm_compute. reflexivity.
Defined.

(** X14: a line that starts with something else than a letter ends the
    reading: [GetMappedPaths] prints the error about the drive letter and
    returns 1; the records in front of that line have been stored, what
    follows it is not looked at. *)
Theorem GetMappedPaths_stops_at_a_line_without_letter env s lines c rest :
  let data := concat (List.map listing_line lines) ++ c :: rest in
  Forall (fun l => well_formed_line l = true) lines ->
  c <> 0%Z ->
  not_a_drive_letter c = true ->
  (Z.of_nat (length data + GET_PATH_TARGET_OFFSET) < SUBST_SOURCE_LENGTH)%Z ->
  os_Enumerate env (clock s) = mkEnumReply true true true true [(true, data)] ->
  let r := GetMappedPaths env s in
  outcome_of r = Ok 1%Z /\
  pOrderedSubstList (state_of r) = foldl record_mapping (pOrderedSubstList s) lines /\
  events_of r = [EvEnumerate (os_Enumerate env (clock s)); EvPrint invalid_letter_message].
Proof.
  intros data Hwf Hnonzero Hbad _ Henum r.
  change (wp (GetMappedPaths env) s (fun o s' e =>
            o = Ok 1%Z /\
            pOrderedSubstList s' = foldl record_mapping (pOrderedSubstList s) lines /\
            e = [EvEnumerate (os_Enumerate env (clock s));
                 EvPrint invalid_letter_message])).
  unfold GetMappedPaths. apply wp_call, wp_bind, wp_tick. unfold then_ at 1.
  rewrite Henum. cbn [CreatePipe_ok SetHandleInformation_ok CreateProcess_ok
                      CloseHandle_ok ReadFile_results negb].
  apply wp_bind, wp_emit. unfold then_ at 1. apply wp_bind.
  cbn [read_pipe negb orb].
  replace (length data =? 0) with false
    by (symmetry; apply Nat.eqb_neq; unfold data; rewrite length_app;
        cbn [length]; lia).
  apply wp_bind.
  set (chBuf := data ++ [0%Z] ++ skipn (length data + 1) []).
  assert (Hbuf : chBuf = [] ++ concat (List.map listing_line lines)
                           ++ (c :: rest ++ [0%Z] ++ skipn (length data + 1) [])).
  { unfold chBuf, data. rewrite <- !app_assoc. reflexivity. }
  replace (length chBuf) with (length lines + (length chBuf - length lines))
    by (pose proof (length_concat_lines lines); unfold chBuf, data;
        rewrite !length_app; lia).
  rewrite Hbuf.
  apply (parse_records_lines env lines _ _ [] _ _ Hwf). rewrite <- Hbuf.
  cbn [length Nat.add].
  assert (Hc : nth (length (concat (List.map listing_line lines))) chBuf 0%Z = c).
  { rewrite Hbuf. cbn [app]. apply nth_middle. }
  eapply wp_run; [apply parse_records_no_letter; rewrite Hc; assumption|].
  unfold then_. repeat split.
Qed.

Lemma GetMappedPaths_no_letter_witness :
  outcome_of (GetMappedPaths machine_blank_line (mkState table_X_Y 0)) = Ok 1%Z /\
  szMappedPath <$>
    (pOrderedSubstList (state_of (GetMappedPaths machine_blank_line (mkState table_X_Y 0)))
       !! 23%nat)
  = Some (Some (W "c:\data\")).
Proof.
  destruct (GetMappedPaths_stops_at_a_line_without_letter machine_blank_line
              (mkState table_X_Y 0) lines_X_Y 13%Z [10%Z])
    as (Ho & Htable & _).
  - repeat constructor.
  - discriminate.
  - reflexivity.
  - vm_compute. reflexivity.
  - reflexivity.
  - split; [exact Ho|]. rewrite Htable. vm_compute. reflexivity.
Defined.

(** X15: whatever the listing holds, once the subst tool has ended and
    its output is there, the two loops of [GetMappedPaths] come to an end:
    the function returns 0 or 1, or it stops at a record whose target is
    empty, where it calls [back()] on an empty string.  It neither adds
    nor removes a slot, and it leaves the letter, the source directory
    and the lock handle of every slot as they were: the mapped paths are
    all it writes.  It talks to the console and lists the mappings, and
    does nothing else.  (The reads are taken to leave room in the buffer
    for the offset of the target and the end of the line.) *)
Theorem GetMappedPaths_only_writes_mapped_paths env s :
  Forall (fun rd : bool * list Z =>
            (Z.of_nat (length (snd rd) + GET_PATH_TARGET_OFFSET + 2)
             <= SUBST_SOURCE_LENGTH)%Z)
    (ReadFile_results (os_Enumerate env (clock s))) ->
  let r := GetMappedPaths env s in
  (outcome_of r = Ok 0%Z \/ outcome_of r = Ok 1%Z \/
   (outcome_of r = Abort /\
    ends_with (EvUndefined back_on_empty_string) (events_of r))) /\
  (forall i, locked_view <$> (pOrderedSubstList (state_of r) !! i)
             = locked_view <$> (pOrderedSubstList s !! i)) /\
  Forall quiet (events_of r).
Proof.
  intros _ r. pose proof (GetMappedPaths_spec env s) as H. unfold wp in H. fold r in H.
  destruct H as (Ho & Hview & Hquiet).
  split; [exact Ho|]. split; [|exact Hquiet].
  intros i. apply view_lookup. exact Hview.
Qed.

Lemma GetMappedPaths_frame_witness :
  locked_view <$>
    (pOrderedSubstList (state_of (GetMappedPaths machine_blank_line (mkState table_X_Y 0)))
       !! 24%nat)
  = Some (89%Z, Some (W "c:\work\"), 101%Z).
Proof.
  destruct (GetMappedPaths_only_writes_mapped_paths machine_blank_line
              (mkState table_X_Y 0))
    as (_ & Hview & _).
  - repeat constructor. vm_compute. discriminate.
  - rewrite Hview. reflexivity.
Defined.

(** A record without a target: the run of [GetMappedPaths] stops at
    [back()], and the slot of the letter keeps the mapped path it had. *)
Example empty_target_stops_the_reading :
  let r := GetMappedPaths machine_empty_target (mkState table_X_Y 0) in
  outcome_of r = Abort /\
  events_of r
    = [EvEnumerate (listing [W "X:\: => " ++ [13; 10]%Z]);
       EvUndefined back_on_empty_string] /\
  szMappedPath <$> (pOrderedSubstList (state_of r) !! 23%nat) = Some None.
Proof. split; [|split]; vm_compute; reflexivity. Qed.

(** * Binding a letter *)

Lemma wstring_eqb_eq (a : list Z) : forall b, wstring_eqb a b = true -> a = b.
Proof.
  induction a as [|x a IH]; intros [|y b] H; simpl in H; try discriminate H.
  - reflexivity.
  - apply andb_true_iff in H. destruct H as [Hxy Hab].
    apply Z.eqb_eq in Hxy. rewrite Hxy, (IH b Hab). reflexivity.
Qed.

Lemma verified_equal (n : SUBST_NODE) :
  verified n = true ->
  szSourceDirectory n <> None /\ szMappedPath n = szSourceDirectory n.
Proof.
  unfold verified, wcscmp_is_zero.
  destruct (szSourceDirectory n) as [src|]; [|discriminate].
  destruct (szMappedPath n) as [mapped|]; [|discriminate].
  intros H. rewrite (wstring_eqb_eq _ _ H). split; [discriminate|reflexivity].
Qed.

(** X16: when the second loop leaves a cell that holds a node, the mapped
    path stored in the node equals its source directory, character for
    character.  (The stored path is what the listings read so far have
    left in the node: the loop does not look at what [GetMappedPaths]
    returns.) *)
Theorem map_drive_moves_on_when_verified env fuel i s n :
  sources_set (pOrderedSubstList s) ->
  let r := map_drive env fuel i s in
  outcome_of r = Ok tt ->
  pOrderedSubstList (state_of r) !! i = Some n ->
  szSourceDirectory n <> None /\ szMappedPath n = szSourceDirectory n.
Proof.
  intros Hset r Ho Hn. pose proof (map_drive_more env fuel i s Hset) as H.
  unfold wp in H. fold r in H. destruct H as (_ & _ & H). rewrite Ho in H.
  apply verified_equal. exact (H n Hn).
Qed.

Lemma sources_set_table_X_Y : sources_set table_X_Y.
Proof.
  intros j m Hj. unfold table_X_Y in Hj.
  apply lookup_insert_Some in Hj. destruct Hj as [[_ <-]|[_ Hj]]; [discriminate|].
  apply lookup_insert_Some in Hj. destruct Hj as [[_ <-]|[_ Hj]]; [discriminate|].
  rewrite lookup_empty in Hj. discriminate Hj.
Qed.

Lemma map_drive_witness :
  outcome_of (map_drive (machine_lines lines_X_Y) 0 24 (mkState table_X_Y 0)) = Ok tt /\
  szMappedPath <$>
    (pOrderedSubstList
       (state_of (map_drive (machine_lines lines_X_Y) 0 24 (mkState table_X_Y 0)))
       !! 24%nat)
  = Some (Some (W "c:\work\")).
Proof.
  assert (Ho : outcome_of (map_drive (machine_lines lines_X_Y) 0 24 (mkState table_X_Y 0))
               = Ok tt) by (vm_compute; reflexivity).
  split; [exact Ho|].
  destruct (pOrderedSubstList
              (state_of (map_drive (machine_lines lines_X_Y) 0 24 (mkState table_X_Y 0)))
              !! 24%nat) as [n|] eqn:Hn; [|vm_compute in Hn; discriminate Hn].
  destruct (map_drive_moves_on_when_verified (machine_lines lines_X_Y) 0 24
              (mkState table_X_Y 0) n sources_set_table_X_Y Ho Hn) as [_ Hmapped].
  simpl. rewrite Hmapped. vm_compute in Hn. injection Hn as <-. reflexivity.
Defined.

Lemma strip_trailing_separator (p : list Z) :
  firstn (length (with_trailing_separator p) - 1) (with_trailing_separator p)
  = without_separator p.
Proof.
  unfold with_trailing_separator, without_separator.
  destruct (List.last p 0 =? BACKSLASH)%Z.
  - rewrite removelast_firstn_len. f_equal. lia.
  - rewrite length_app. cbn [length].
    replace (length p + 1 - 1) with (length p + 0) by lia.
    rewrite take_app_add, app_nil_r. reflexivity.
Qed.

(** X17: the separator that the parser puts at the end of a source
    location is the character that [MapDrive] leaves out again: the subst
    command of a mapping token carries the location in lower case without
    a separator at its end, with or without one on the command line (the
    root of a drive [c:\] goes into the command as [c:]). *)
Theorem map_command_of_a_token (arg : list Z) :
  MapDrive_command (token_letter arg) (token_source arg)
  = W "subst " ++ [DQUOTE] ++ [token_letter arg] ++ [COLON] ++ [DQUOTE; SPACE; DQUOTE]
      ++ without_separator (List.map totlower (skipn SUBST_START_OFFSET arg))
      ++ [DQUOTE].
Proof.
  unfold MapDrive_command, token_source, wcslen.
  rewrite strip_trailing_separator. reflexivity.
Qed.

(** * The log in the lock files *)

Lemma log_lines_app e1 e2 : log_lines (e1 ++ e2) = log_lines e1 ++ log_lines e2.
Proof. apply omap_app. Qed.

Lemma opened_handles_app e1 e2 :
  opened_handles (e1 ++ e2) = opened_handles e1 ++ opened_handles e2.
Proof. apply omap_app. Qed.

Lemma no_log_lines (P : Event -> Prop) (es : list Event) :
  (forall e, P e -> log_line e = None) -> Forall P es -> log_lines es = [].
Proof.
  intros HP. induction 1 as [|e es He _ IH]; [reflexivity|].
  unfold log_lines. cbn [omap list_omap]. rewrite (HP e He). exact IH.
Qed.

Lemma parse_events_no_log es : Forall parse_event es -> log_lines es = [].
Proof. apply no_log_lines. intros []; simpl; (contradiction || reflexivity). Qed.

Lemma map_events_no_log es : Forall map_event es -> log_lines es = [].
Proof. apply no_log_lines. intros []; simpl; (contradiction || reflexivity). Qed.

Lemma exec_events_no_log es : Forall exec_event es -> log_lines es = [].
Proof. apply no_log_lines. intros []; simpl; (contradiction || reflexivity). Qed.

Lemma no_opened_handles (P : Event -> Prop) (es : list Event) :
  (forall e, P e -> opened_handle e = None) -> Forall P es -> opened_handles es = [].
Proof.
  intros HP. induction 1 as [|e es He _ IH]; [reflexivity|].
  unfold opened_handles. cbn [omap list_omap]. rewrite (HP e He). exact IH.
Qed.

Lemma parse_events_no_handle es : Forall parse_event es -> opened_handles es = [].
Proof. apply no_opened_handles. intros []; simpl; (contradiction || reflexivity). Qed.

(** The wait for a source lock writes nothing, and the handle it returns
    is the one valid handle it was given. *)
Lemma acquire_source_lock_log env fuel path : forall s,
  wp (acquire_source_lock env fuel path) s (fun o s' e =>
    log_lines e = [] /\
    match o with
    | Ok h => opened_handles e = [h]
    | _ => True
    end).
Proof.
  induction fuel as [|fuel IH]; intros s; simpl.
  - wp_auto; simpl.
    all: split; [reflexivity|].
    all: first [exact I | rewrite Heqb; reflexivity].
  - wp_auto; simpl.
    1: { eapply wp_mono; [apply IH|]. cbv beta. simpl. intros o s' e (Hlog & Ho).
         split; [exact Hlog|]. destruct o; try exact I. rewrite Heqb. exact Ho. }
    all: split; [reflexivity|].
    all: first [exact I | rewrite Heqb; reflexivity].
Qed.

Lemma nodes_at_one (t : gmap nat SUBST_NODE) i :
  nodes_at t [i] = match t !! i with Some n => [n] | None => [] end.
Proof. unfold nodes_at. simpl. destruct (t !! i); reflexivity. Qed.

(** One cell of the first loop: the line it writes goes through the
    handle it has just opened and stored in the node. *)
Lemma lock_source_log env fuel i s :
  wp (lock_source env fuel i) s (fun o s' e =>
    o = Ok tt ->
    log_lines e
      = (fun n => (hLockFile n, substituting_message))
          <$> nodes_at (pOrderedSubstList s') [i] /\
    opened_handles e = hLockFile <$> nodes_at (pOrderedSubstList s') [i]).
Proof.
  unfold lock_source. wp_auto.
  all: try lazymatch goal with
       | |- wp (acquire_source_lock _ _ _) _ _ =>
           eapply wp_mono;
           [apply (wp_conj _ _ _ _ (acquire_source_lock_spec env fuel _ _)
                     (acquire_source_lock_log env fuel _ _))|];
           cbv beta;
           intros o s1 e1 ((Ht & _ & _ & Ho) & (Hlog & Hh));
           destruct o as [h| | |]; unfold then_; try contradiction;
           wp_auto
       end.
  all: try discriminate.
  all: intros _; rewrite nodes_at_one; cbn [pOrderedSubstList].
  - exfalso. cbn [hLockFile set_lock] in *. apply Z.eqb_eq in Heqb1.
    exact (proj1 Ho Heqb1).
  - rewrite lookup_insert_eq, !log_lines_app, !opened_handles_app, Hlog, Hh.
    split; reflexivity.
  - rewrite Heqo. split; reflexivity.
Qed.

Lemma nodes_at_frame (t t' : gmap nat SUBST_NODE) idxs :
  (forall j, j ∈ idxs -> t' !! j = t !! j) -> nodes_at t' idxs = nodes_at t idxs.
Proof.
  induction idxs as [|i idxs IH]; intros H; [reflexivity|].
  rewrite (nodes_at_cons t' i idxs), (nodes_at_cons t i idxs), !nodes_at_one.
  rewrite (H i) by (left). rewrite IH; [reflexivity|].
  intros j Hj. apply H. right. exact Hj.
Qed.

(** The first loop: one line for every slot, in the order of the letters,
    each through the handle that the slot holds from then on; and these
    handles are all the loop has opened. *)
Lemma lock_each_log env fuel idxs : NoDup idxs -> forall s,
  wp (for_each idxs (lock_source env fuel)) s (fun o s' e =>
    o = Ok tt ->
    log_lines e
      = (fun n => (hLockFile n, substituting_message))
          <$> nodes_at (pOrderedSubstList s') idxs /\
    opened_handles e = hLockFile <$> nodes_at (pOrderedSubstList s') idxs).
Proof.
  induction 1 as [|i idxs Hi Hnodup IH]; intros s; cbn [for_each].
  - wp_auto. intros _. split; reflexivity.
  - apply wp_bind.
    eapply wp_mono; [apply lock_source_log|]. cbv beta.
    intros o s1 e1 Ho1. destruct o as [[]| | |]; unfold then_; try discriminate.
    specialize (Ho1 eq_refl). destruct Ho1 as [Hlog1 Hh1].
    eapply wp_mono;
      [apply (wp_conj _ _ _ _ (IH s1) (lock_each_spec env fuel idxs Hnodup s1))|].
    cbv beta. intros o s2 e2 (Ho2 & (_ & Hframe & _)). intros ->.
    destruct (Ho2 eq_refl) as [Hlog2 Hh2].
    assert (Hsame : nodes_at (pOrderedSubstList s2) [i]
                    = nodes_at (pOrderedSubstList s1) [i]).
    { apply nodes_at_frame. intros j Hj. apply list_elem_of_singleton in Hj. subst j.
      apply Hframe. exact Hi. }
    rewrite (nodes_at_cons (pOrderedSubstList s2) i idxs), !fmap_app, Hsame.
    rewrite log_lines_app, opened_handles_app, Hlog1, Hh1, Hlog2, Hh2.
    split; reflexivity.
Qed.

Lemma handles_view (t t' : gmap nat SUBST_NODE) idxs :
  locked_view <$> t' = locked_view <$> t ->
  hLockFile <$> nodes_at t' idxs = hLockFile <$> nodes_at t idxs.
Proof.
  intros Hview. induction idxs as [|i idxs IH]; [reflexivity|].
  rewrite (nodes_at_cons t' i idxs), (nodes_at_cons t i idxs), !fmap_app, IH. f_equal.
  rewrite !nodes_at_one.
  pose proof (view_lookup locked_view t t' i Hview) as Hv.
  destruct (t' !! i) as [n'|], (t !! i) as [n|]; simpl in Hv; try discriminate Hv;
    [|reflexivity].
  unfold locked_view in Hv. simpl. congruence.
Qed.

Lemma cleanup_slot_log env i s :
  Forall valid_lock (nodes_at (pOrderedSubstList s) [i]) ->
  wp (cleanup_slot env i) s (fun o s' e =>
    log_lines e
      = (fun n => (hLockFile n, done_message)) <$> nodes_at (pOrderedSubstList s) [i] /\
    opened_handles e = []).
Proof.
  rewrite nodes_at_one. intros Hvalid. unfold cleanup_slot. wp_more.
  all: try rewrite Heqo in *.
  all: try (apply Forall_cons in Hvalid; destruct Hvalid as [Hvalid _];
            unfold valid_lock in Hvalid).
  all: repeat match goal with
              | H : (_ =? _)%Z = true |- _ => apply Z.eqb_eq in H
              end.
  all: try contradiction.
  all: try (exfalso; simpl in *; congruence).
  all: split; reflexivity.
Qed.

(** The clean-up: one line for every slot, through the handle of the
    slot. *)
Lemma cleanup_each_log env idxs : forall s,
  Forall valid_lock (nodes_at (pOrderedSubstList s) idxs) ->
  wp (for_each idxs (cleanup_slot env)) s (fun o s' e =>
    log_lines e
      = (fun n => (hLockFile n, done_message)) <$> nodes_at (pOrderedSubstList s) idxs /\
    opened_handles e = []).
Proof.
  induction idxs as [|i idxs IH]; intros s Hvalid; cbn [for_each].
  - wp_auto. split; reflexivity.
  - rewrite nodes_at_cons in Hvalid. apply Forall_app in Hvalid.
    destruct Hvalid as [Hvalid1 Hvalid2].
    apply wp_bind.
    eapply wp_mono;
      [apply (wp_conj _ _ _ _ (cleanup_slot_valid env i s Hvalid1)
                (cleanup_slot_log env i s Hvalid1))|].
    cbv beta. intros o s1 e1 ((-> & Ht1 & _) & (Hlog1 & Hh1)). unfold then_.
    rewrite <- Ht1 in Hvalid2.
    eapply wp_mono; [apply (IH s1 Hvalid2)|]. cbv beta.
    intros o s2 e2 (Hlog2 & Hh2).
    rewrite log_lines_app, opened_handles_app, Hlog1, Hh1, Hlog2, Hh2, Ht1.
    rewrite (nodes_at_cons (pOrderedSubstList s) i idxs), fmap_app. split; reflexivity.
Qed.

Lemma nodes_at_empty idxs : nodes_at ∅ idxs = [].
Proof.
  induction idxs as [|i idxs IH]; [reflexivity|].
  rewrite nodes_at_cons, nodes_at_one, lookup_empty, IH. reflexivity.
Qed.

Lemma valid_handles (nodes : list SUBST_NODE) :
  Forall valid_lock nodes ->
  Forall (fun h => h <> INVALID_HANDLE_VALUE) (hLockFile <$> nodes).
Proof. intros H. apply Forall_fmap. exact H. Qed.

(** The two loops: when they have run to their end, every slot has got
    its first line, and the handles of the slots are the first the run
    has opened. *)
Lemma lock_and_map_log env fuel pSubstList s :
  parsed_table (pOrderedSubstList s) ->
  (pSubstList = [] -> pOrderedSubstList s = ∅) ->
  wp (lock_and_map env fuel pSubstList) s (fun o s' e =>
    o = Ok tt ->
    log_lines e
      = (fun h => (h, substituting_message))
          <$> (hLockFile <$> nodes_at (pOrderedSubstList s') slot_indices) /\
    hLockFile <$> nodes_at (pOrderedSubstList s') slot_indices
      `prefix_of` opened_handles e).
Proof.
  intros Hp Hnull. unfold lock_and_map.
  destruct pSubstList as [|p pSubstList]; cbn [is_null].
  - wp_auto. intros _. rewrite (Hnull eq_refl).
    rewrite nodes_at_empty. split; [reflexivity|apply prefix_nil].
  - unfold lock_sources, map_drives. apply wp_bind.
    eapply wp_mono;
      [apply (wp_conj _ _ _ _
                (lock_each_spec env fuel slot_indices (NoDup_seq _ _) s)
                (lock_each_log env fuel slot_indices (NoDup_seq _ _) s))|].
    cbv beta. intros o s1 e1 ((Hview1 & _) & Hlog1).
    destruct o as [[]| | |]; unfold then_; try discriminate.
    destruct (Hlog1 eq_refl) as [Hlines1 Hhandles1].
    eapply wp_mono; [apply map_each_more|].
    { apply (sources_set_view (pOrderedSubstList s)); [exact Hview1|].
      apply parsed_table_sources. exact Hp. }
    cbv beta. intros o s2 e2 (Hev2 & Hview2 & _) _.
    rewrite (handles_view _ _ slot_indices Hview2).
    rewrite log_lines_app, opened_handles_app, Hlines1, Hhandles1,
      (map_events_no_log e2 Hev2), app_nil_r, <- list_fmap_compose.
    split; [reflexivity|apply prefix_app_r; reflexivity].
Qed.

(** The body of [SubstDrivesAndExecute] behind its first assertion, with
    the events [e0] in front of it. *)
Lemma SubstDrivesAndExecute_body_log env fuel argv pSubstList executableToRunIndex s e0 :
  parsed_table (pOrderedSubstList s) ->
  (pSubstList = [] -> pOrderedSubstList s = ∅) ->
  launches e0 = [] -> log_lines e0 = [] -> opened_handles e0 = [] ->
  wp (lock_and_map env fuel pSubstList ;;
      errorCode <- ExecuteProcess env argv executableToRunIndex ;;
      cleanup env ;; return_ errorCode) s
     (fun (o : Outcome Z) s' e =>
        launches (e0 ++ e) <> [] ->
        log_lines (e0 ++ e)
          = ((fun h => (h, substituting_message))
               <$> (hLockFile <$> nodes_at (pOrderedSubstList s') slot_indices))
              ++ ((fun h => (h, done_message))
                    <$> (hLockFile <$> nodes_at (pOrderedSubstList s') slot_indices)) /\
        hLockFile <$> nodes_at (pOrderedSubstList s') slot_indices
          `prefix_of` opened_handles (e0 ++ e) /\
        Forall (fun h => h <> INVALID_HANDLE_VALUE)
          (hLockFile <$> nodes_at (pOrderedSubstList s') slot_indices)).
Proof.
  intros Hp Hnull Hl0 Hg0 Hh0. apply wp_bind.
  eapply wp_mono;
    [apply (wp_conj _ _ _ _
              (wp_conj _ _ _ _ (lock_and_map_spec env fuel pSubstList s Hp Hnull)
                 (lock_and_map_more env fuel pSubstList s Hp))
              (lock_and_map_log env fuel pSubstList s Hp Hnull))|].
  cbv beta.
  intros o s2 e12 (((Hview & _ & _ & _ & Ho) & (Hl12 & _)) & Hlog12).
  destruct o as [[]| | |]; unfold then_.
  - destruct Ho as [Hvalid _]. destruct (Hlog12 eq_refl) as [Hlines12 Hhandles12].
    apply wp_bind.
    eapply wp_mono; [apply ExecuteProcess_spec|].
    cbv beta. intros o s3 ex (Ht3 & Hex & Hox).
    destruct o as [errorCode| | |]; unfold then_; try contradiction.
    + apply wp_bind. unfold cleanup. rewrite <- Ht3 in Hvalid.
      eapply wp_mono;
        [apply (wp_conj _ _ _ _ (cleanup_each_valid env slot_indices s3 Hvalid)
                  (cleanup_each_log env slot_indices s3 Hvalid))|].
      cbv beta. intros o s4 ec ((-> & Ht4 & _) & (Hlogc & Hhc)). unfold then_.
      apply wp_return. rewrite !app_nil_r. intros _.
      rewrite Ht3 in Hlogc, Hvalid. rewrite Ht4, Ht3.
      rewrite !log_lines_app, !opened_handles_app, Hg0, Hh0, Hlines12,
        (exec_events_no_log ex Hex), Hlogc, Hhc, <- !list_fmap_compose.
      rewrite !app_nil_l.
      split; [reflexivity|]. split.
      * apply prefix_app_r. exact Hhandles12.
      * apply valid_handles. exact Hvalid.
    + exfalso. apply Hox.
      apply (sources_set_view (pOrderedSubstList s)); [exact Hview|].
      apply parsed_table_sources. exact Hp.
  - rewrite launches_app, Hl0, Hl12. intros Hne. exfalso. apply Hne. reflexivity.
  - rewrite launches_app, Hl0, Hl12. intros Hne. exfalso. apply Hne. reflexivity.
  - rewrite launches_app, Hl0, Hl12. intros Hne. exfalso. apply Hne. reflexivity.
Qed.

(** [SubstDrivesAndExecute] from a table of the parser, when it has
    started the child: the log holds two lines for every slot. *)
Lemma SubstDrivesAndExecute_log env fuel argv pSubstList executableToRunIndex s :
  parsed_table (pOrderedSubstList s) ->
  (pSubstList = [] -> pOrderedSubstList s = ∅) ->
  wp (SubstDrivesAndExecute env fuel argv pSubstList executableToRunIndex) s
    (fun o s' e =>
       launches e <> [] ->
       log_lines e
         = ((fun h => (h, substituting_message))
              <$> (hLockFile <$> nodes_at (pOrderedSubstList s') slot_indices))
             ++ ((fun h => (h, done_message))
                   <$> (hLockFile <$> nodes_at (pOrderedSubstList s') slot_indices)) /\
       hLockFile <$> nodes_at (pOrderedSubstList s') slot_indices
         `prefix_of` opened_handles e /\
       Forall (fun h => h <> INVALID_HANDLE_VALUE)
         (hLockFile <$> nodes_at (pOrderedSubstList s') slot_indices)).
Proof.
  intros Hp Hnull. unfold SubstDrivesAndExecute. apply wp_call, wp_bind.
  unfold assert. destruct (negb (is_null pSubstList)).
  - apply wp_ret. unfold then_.
    eapply wp_mono;
      [apply (SubstDrivesAndExecute_body_log env fuel argv pSubstList
                executableToRunIndex s [] Hp Hnull eq_refl eq_refl eq_refl)|].
    cbv beta. intros o s' e H. destruct o; exact H.
  - apply wp_bind, wp_emit. unfold then_ at 1.
    destruct (ndebug env) eqn:Hdebug.
    + apply wp_ret. unfold then_.
      eapply wp_mono;
        [apply (SubstDrivesAndExecute_body_log env fuel argv pSubstList
                  executableToRunIndex s [EvAssert "pSubstList != nullptr"]
                  Hp Hnull eq_refl eq_refl eq_refl)|].
      cbv beta. intros o s' e H. rewrite app_nil_r. destruct o; exact H.
    + apply wp_abort. intros Hne. exfalso. apply Hne. reflexivity.
Qed.

Lemma run_main_log env fuel argv :
  wp (_tmain env fuel argv) InitializeState (fun o s' e =>
    launches e <> [] ->
    log_lines e
      = ((fun h => (h, substituting_message))
           <$> (hLockFile <$> nodes_at (pOrderedSubstList s') slot_indices))
          ++ ((fun h => (h, done_message))
                <$> (hLockFile <$> nodes_at (pOrderedSubstList s') slot_indices)) /\
    hLockFile <$> nodes_at (pOrderedSubstList s') slot_indices
      `prefix_of` opened_handles e /\
    Forall (fun h => h <> INVALID_HANDLE_VALUE)
      (hLockFile <$> nodes_at (pOrderedSubstList s') slot_indices)).
Proof.
  unfold _tmain. apply wp_call, wp_bind.
  eapply wp_mono; [apply ParseSubstSourcesAndTargets_spec|].
  cbv beta. intros o s1 e0 (Hev0 & Hp & Hnull).
  pose proof (parse_events_no_launch e0 Hev0) as Hl0.
  pose proof (parse_events_no_log e0 Hev0) as Hg0.
  pose proof (parse_events_no_handle e0 Hev0) as Hh0.
  destruct o as [r| | |]; unfold then_; try contradiction.
  destruct (shouldExit r).
  - apply wp_return. rewrite app_nil_r, Hl0. intros Hne. exfalso. apply Hne. reflexivity.
  - apply wp_bind.
    eapply wp_mono; [apply (SubstDrivesAndExecute_log env fuel argv _ _ s1 Hp Hnull)|].
    cbv beta. intros o s2 e1 Hlog.
    destruct o as [c| | |]; unfold then_.
    + apply wp_return. rewrite app_nil_r.
      rewrite launches_app, log_lines_app, opened_handles_app, Hl0, Hg0, Hh0, !app_nil_l.
      exact Hlog.
    + rewrite launches_app, log_lines_app, opened_handles_app, Hl0, Hg0, Hh0, !app_nil_l.
      exact Hlog.
    + rewrite launches_app, log_lines_app, opened_handles_app, Hl0, Hg0, Hh0, !app_nil_l.
      exact Hlog.
    + rewrite launches_app, log_lines_app, opened_handles_app, Hl0, Hg0, Hh0, !app_nil_l.
      exact Hlog.
Qed.

(** X19: in a run that starts the child process, every slot's lock file
    gets two lines of log, and nothing else is written: the line about
    the substitution when the lock is taken, in the order of the letters,
    and the line about the release at the clean-up, in the same order.
    Every line goes through the handle that the slot holds, which is
    valid, and these handles are the first that [CreateFile] returned in
    the run. *)
Theorem lock_files_get_two_log_lines env fuel argv :
  let r := run_main env fuel argv in
  let hs := hLockFile <$> slots (pOrderedSubstList (state_of r)) in
  launches (events_of r) <> [] ->
  log_lines (events_of r)
    = ((fun h => (h, substituting_message)) <$> hs)
        ++ ((fun h => (h, done_message)) <$> hs) /\
  hs `prefix_of` opened_handles (events_of r) /\
  Forall (fun h => h <> INVALID_HANDLE_VALUE) hs.
Proof.
  intros r hs Hne. subst hs. unfold slots.
  exact (run_main_log env fuel argv Hne).
Qed.

Lemma log_lines_witness :
  log_lines (events_of (run_main machine_mapped 0 argv_X))
  = [(102%Z, substituting_message); (102%Z, done_message)].
Proof.
  destruct (lock_files_get_two_log_lines machine_mapped 0 argv_X) as (Hlog & _).
  - vm_compute. discriminate.
  - rewrite Hlog. vm_compute. reflexivity.
Defined.

(** * The order of locking and mapping (C1) *)

(** The letters bound, with the repetitions of the retries taken out. *)
Lemma remove_dups_run (L : Z) (run rest : list Z) :
  Forall (fun l => l = L) run -> run <> [] -> L ∉ rest ->
  remove_dups (run ++ rest) = L :: remove_dups rest.
Proof.
  induction run as [|x run IH]; intros Hall Hne Hout; [contradiction|].
  apply Forall_cons in Hall. destruct Hall as [-> Hall].
  cbn [app remove_dups]. destruct run as [|y run].
  - cbn [app]. destruct (decide_rel elem_of L rest); [contradiction|reflexivity].
  - destruct (decide_rel elem_of L ((y :: run) ++ rest)) as [_|Hno].
    + apply IH; [exact Hall|discriminate|exact Hout].
    + exfalso. apply Hno. apply Forall_cons in Hall. destruct Hall as [-> _]. left.
Qed.

Lemma remove_dups_one_letter (L : Z) (run : list Z) :
  Forall (fun l => l = L) run -> remove_dups run `prefix_of` [L].
Proof.
  intros Hall. destruct run as [|x run]; [apply prefix_nil|].
  rewrite <- (app_nil_r (x :: run)).
  rewrite (remove_dups_run L (x :: run) [] Hall); [reflexivity|discriminate|].
  apply not_elem_of_nil.
Qed.

Lemma letters_view (t t' : gmap nat SUBST_NODE) idxs :
  identity_view <$> t' = identity_view <$> t ->
  szDriveLetter <$> nodes_at t' idxs = szDriveLetter <$> nodes_at t idxs.
Proof.
  intros Hview. induction idxs as [|i idxs IH]; [reflexivity|].
  rewrite (nodes_at_cons t' i idxs), (nodes_at_cons t i idxs), !fmap_app, IH. f_equal.
  rewrite !nodes_at_one.
  pose proof (view_lookup identity_view t t' i Hview) as Hv.
  destruct (t' !! i) as [n'|], (t !! i) as [n|]; simpl in Hv; try discriminate Hv;
    [|reflexivity].
  unfold identity_view in Hv. simpl. congruence.
Qed.

(** One cell of the second loop: an empty cell is passed over without a
    word, and the loop does not leave a cell that holds a node before it
    has bound the letter at least once. *)
Lemma map_drive_visits env fuel i : forall s,
  wp (map_drive env fuel i) s (fun o s' e =>
    (pOrderedSubstList s !! i = None -> o = Ok tt /\ e = []) /\
    (o = Ok tt -> pOrderedSubstList s !! i <> None -> mapped_letters e <> [])).
Proof.
  induction fuel as [|fuel IH]; intros s; simpl.
  - wp_map; simpl.
    all: split;
      [ first [ intros _; split; reflexivity
              | intros Hnone; rewrite Hnone in *; discriminate ]
      | first [ intros Ho; discriminate Ho
              | intros _ Hsome; contradiction
              | intros _ _; letters_tac; discriminate ] ].
  - wp_map; simpl.
    all: try lazymatch goal with
         | |- wp (map_drive _ _ _) _ _ =>
             eapply wp_mono; [apply IH|]; cbv beta; simpl; intros o2 s2 e2 _
         end.
    all: split;
      [ first [ intros _; split; reflexivity
              | intros Hnone; rewrite Hnone in *; discriminate ]
      | first [ intros Ho; discriminate Ho
              | intros _ Hsome; contradiction
              | intros _ _; letters_tac; discriminate ] ].
Qed.

(** The second loop over the cells [k], [k+1], ...: with the repetitions
    taken out, the letters it binds are the letters of the slots in these
    cells, in their order and without a gap: all of them when the loop
    runs to its end, those up to the cell where it stops otherwise. *)
Lemma map_each_visits env fuel n : forall k s,
  parsed_table (pOrderedSubstList s) ->
  wp (for_each (seq k n) (map_drive env fuel)) s (fun o s' e =>
    remove_dups (mapped_letters e)
      `prefix_of` (szDriveLetter <$> nodes_at (pOrderedSubstList s) (seq k n)) /\
    (o = Ok tt ->
     remove_dups (mapped_letters e)
       = szDriveLetter <$> nodes_at (pOrderedSubstList s) (seq k n))).
Proof.
  induction n as [|n IH]; intros k s Hp; cbn [seq for_each].
  - wp_auto. split; reflexivity.
  - apply wp_bind.
    eapply wp_mono;
      [apply (wp_conj _ _ _ _ (map_drive_spec env fuel k s)
                (map_drive_visits env fuel k s))|].
    cbv beta. intros o s1 e1 ((Hview & _ & Hl & _) & (Hnone & Hsome)).
    assert (Hidentity : identity_view <$> pOrderedSubstList s1
                        = identity_view <$> pOrderedSubstList s)
      by (apply locked_view_identity; exact Hview).
    assert (Hp1 : parsed_table (pOrderedSubstList s1))
      by (apply (parsed_table_view (pOrderedSubstList s)); assumption).
    rewrite (nodes_at_cons (pOrderedSubstList s) k (seq (S k) n)), nodes_at_one, fmap_app.
    destruct (pOrderedSubstList s !! k) as [m|] eqn:Hm.
    + assert (Hrun : Forall (fun l => l = szDriveLetter m) (mapped_letters e1)).
      { eapply Forall_impl; [exact Hl|]. intros l. unfold letter_at. rewrite Hm.
        simpl. intros [= <-]. reflexivity. }
      destruct (Hp k m Hm) as [Hletter _].
      destruct o as [[]| | |]; unfold then_.
      * eapply wp_mono;
          [apply (wp_conj _ _ _ _ (IH (S k) s1 Hp1)
                    (map_each_spec env fuel n (S k) s1 Hp1))|].
        cbv beta. intros o s2 e2 ((Hprefix & Hall) & (_ & _ & _ & _ & Hbound & _)).
        rewrite (letters_view _ _ _ Hidentity) in Hprefix, Hall.
        rewrite mapped_letters_app.
        rewrite (remove_dups_run (szDriveLetter m) (mapped_letters e1) (mapped_letters e2)
                   Hrun (Hsome eq_refl ltac:(discriminate))).
        -- split; [apply prefix_cons; exact Hprefix|].
           intros Ho. rewrite (Hall Ho). reflexivity.
        -- intros Hin. rewrite Forall_forall in Hbound. specialize (Hbound _ Hin).
           simpl in Hbound. lia.
      * split; [|intros Ho; discriminate Ho].
        apply (prefix_app_r _ [szDriveLetter m]), remove_dups_one_letter. exact Hrun.
      * split; [|intros Ho; discriminate Ho].
        apply (prefix_app_r _ [szDriveLetter m]), remove_dups_one_letter. exact Hrun.
      * split; [|intros Ho; discriminate Ho].
        apply (prefix_app_r _ [szDriveLetter m]), remove_dups_one_letter. exact Hrun.
    + destruct (Hnone eq_refl) as [-> ->]. unfold then_. cbn [fmap list_fmap app].
      eapply wp_mono; [apply (IH (S k) s1 Hp1)|].
      cbv beta. intros o s2 e2 (Hprefix & Hall).
      rewrite (letters_view _ _ _ Hidentity) in Hprefix, Hall.
      split; [exact Hprefix|exact Hall].
Qed.

(** The two loops together. *)
Lemma lock_and_map_visits env fuel pSubstList s :
  parsed_table (pOrderedSubstList s) ->
  (pSubstList = [] -> pOrderedSubstList s = ∅) ->
  wp (lock_and_map env fuel pSubstList) s (fun o s' e =>
    remove_dups (mapped_letters e)
      `prefix_of` (szDriveLetter <$> nodes_at (pOrderedSubstList s) slot_indices) /\
    (o = Ok tt ->
     remove_dups (mapped_letters e)
       = szDriveLetter <$> nodes_at (pOrderedSubstList s) slot_indices)).
Proof.
  intros Hp Hnull. unfold lock_and_map.
  destruct pSubstList as [|p pSubstList]; cbn [is_null].
  - wp_auto. rewrite (Hnull eq_refl), nodes_at_empty. split; reflexivity.
  - unfold lock_sources, map_drives. apply wp_bind.
    eapply wp_mono; [apply (lock_each_spec env fuel slot_indices); apply NoDup_seq|].
    cbv beta. intros o s1 e1 (Hview1 & _ & Hev1 & _).
    pose proof (lock_events_no_map e1 Hev1) as Hmap1.
    destruct o as [[]| | |]; unfold then_.
    + eapply wp_mono; [apply (map_each_visits env fuel NUMBER_DEFINABLE_SUBST 0 s1)|].
      { apply (parsed_table_view (pOrderedSubstList s)); assumption. }
      cbv beta. fold slot_indices. intros o s2 e2 (Hprefix & Hall).
      rewrite (letters_view _ _ _ Hview1) in Hprefix, Hall.
      rewrite mapped_letters_app, Hmap1. split; [exact Hprefix|exact Hall].
    + rewrite Hmap1. split; [apply prefix_nil|intros Ho; discriminate Ho].
    + rewrite Hmap1. split; [apply prefix_nil|intros Ho; discriminate Ho].
    + rewrite Hmap1. split; [apply prefix_nil|intros Ho; discriminate Ho].
Qed.

Lemma assertion_failures_app e1 e2 :
  assertion_failures (e1 ++ e2) = assertion_failures e1 ++ assertion_failures e2.
Proof. apply omap_app. Qed.

(** The clean-up of slots that hold valid handles passes the assertion on
    the handle every time. *)
Lemma cleanup_each_no_assert env idxs : forall s,
  Forall valid_lock (nodes_at (pOrderedSubstList s) idxs) ->
  wp (for_each idxs (cleanup_slot env)) s (fun o s' e => assertion_failures e = []).
Proof.
  induction idxs as [|i idxs IH]; intros s Hvalid; cbn [for_each].
  - wp_auto. reflexivity.
  - rewrite nodes_at_cons in Hvalid. apply Forall_app in Hvalid.
    destruct Hvalid as [Hvalid1 Hvalid2].
    apply wp_bind.
    assert (Hslot : wp (cleanup_slot env i) s (fun o s' e => assertion_failures e = [])).
    { rewrite nodes_at_one in Hvalid1. unfold cleanup_slot. wp_more.
      all: try rewrite Heqo in *.
      all: try (apply Forall_cons in Hvalid1; destruct Hvalid1 as [Hvalid1 _];
                unfold valid_lock in Hvalid1).
      all: repeat match goal with
                  | H : (_ =? _)%Z = true |- _ => apply Z.eqb_eq in H
                  | H : negb (_ =? _)%Z = false |- _ =>
                      apply negb_false_iff, Z.eqb_eq in H
                  end.
      all: try contradiction.
      all: try (exfalso; simpl in *; congruence).
      all: reflexivity. }
    eapply wp_mono;
      [apply (wp_conj _ _ _ _ (cleanup_slot_valid env i s Hvalid1) Hslot)|].
    cbv beta. intros o s1 e1 ((-> & Ht1 & _) & Hno1). unfold then_.
    rewrite <- Ht1 in Hvalid2.
    eapply wp_mono; [apply (IH s1 Hvalid2)|]. cbv beta.
    intros o s2 e2 Hno2. rewrite assertion_failures_app, Hno1, Hno2. reflexivity.
Qed.

(** The body of [SubstDrivesAndExecute] behind its first assertion, with
    the events [e0] in front of it: the letters are bound in the order of
    the slots, and a run that starts the child has taken every lock, has
    bound every letter, and cleans up every slot behind the child. *)
Lemma SubstDrivesAndExecute_body_phases env fuel argv pSubstList executableToRunIndex
    s e0 :
  parsed_table (pOrderedSubstList s) ->
  (pSubstList = [] -> pOrderedSubstList s = ∅) ->
  launches e0 = [] -> mapped_letters e0 = [] -> acquired e0 = [] ->
  wp (lock_and_map env fuel pSubstList ;;
      errorCode <- ExecuteProcess env argv executableToRunIndex ;;
      cleanup env ;; return_ errorCode) s
     (fun (o : Outcome Z) s' e =>
        remove_dups (mapped_letters (e0 ++ e))
          `prefix_of` (szDriveLetter <$> nodes_at (pOrderedSubstList s') slot_indices) /\
        (launches (e0 ++ e) <> [] ->
         lock_paths (pOrderedSubstList s') `prefix_of` acquired (e0 ++ e) /\
         visited (pOrderedSubstList s') (e0 ++ e) /\
         Forall valid_lock (nodes_at (pOrderedSubstList s') slot_indices) /\
         cleaned_up (pOrderedSubstList s') (e0 ++ e))).
Proof.
  intros Hp Hnull Hl0 Hm0 Ha0. apply wp_bind.
  eapply wp_mono;
    [apply (wp_conj _ _ _ _
              (wp_conj _ _ _ _ (lock_and_map_spec env fuel pSubstList s Hp Hnull)
                 (lock_and_map_more env fuel pSubstList s Hp))
              (lock_and_map_visits env fuel pSubstList s Hp Hnull))|].
  cbv beta.
  intros o s2 e12 (((Hview & _ & _ & _ & Ho) & (Hl12 & _)) & (Hprefix12 & Hall12)).
  rewrite <- (letters_view _ _ slot_indices Hview) in Hprefix12, Hall12.
  destruct o as [[]| | |]; unfold then_.
  - destruct Ho as [Hvalid Hlocks]. specialize (Hall12 eq_refl).
    rewrite <- (lock_paths_view _ _ Hview) in Hlocks.
    apply wp_bind.
    eapply wp_mono; [apply ExecuteProcess_spec|].
    cbv beta. intros o s3 ex (Ht3 & Hex & Hox).
    destruct o as [errorCode| | |]; unfold then_; try contradiction.
    + apply wp_bind. unfold cleanup. rewrite <- Ht3 in Hvalid.
      eapply wp_mono;
        [apply (wp_conj _ _ _ _
                  (wp_conj _ _ _ _ (cleanup_each_valid env slot_indices s3 Hvalid)
                     (cleanup_each_log env slot_indices s3 Hvalid))
                  (cleanup_each_no_assert env slot_indices s3 Hvalid))|].
      cbv beta.
      intros o s4 ec (((-> & Ht4 & Hec & Hsubst & Hclosed & _) & (Hlogc & _)) & Hnoc).
      unfold then_. apply wp_return. rewrite !app_nil_r.
      rewrite Ht4. rewrite Ht3 in Hvalid, Hsubst, Hclosed, Hlogc |- *.
      assert (Hmap : mapped_letters (e0 ++ e12 ++ ex ++ ec) = mapped_letters e12).
      { rewrite !mapped_letters_app, Hm0, (exec_events_no_map ex Hex).
        rewrite (cleanup_events_no_map ec Hec), app_nil_r; [reflexivity|].
        rewrite Hsubst. apply unmap_commands_bind_nothing. }
      unfold visited. rewrite Hmap.
      split; [exact Hprefix12|]. intros _.
      split; [rewrite !acquired_app, Ha0, app_nil_l; apply prefix_app_r; exact Hlocks|].
      split; [exact Hall12|]. split; [exact Hvalid|].
      exists (e0 ++ e12 ++ ex), ec.
      split; [rewrite <- !app_assoc; reflexivity|].
      split; [|split; [exact Hsubst|split; [exact Hclosed|split; [exact Hnoc|exact Hlogc]]]].
      rewrite !launches_app, (cleanup_events_no_launch ec Hec), !app_nil_r. reflexivity.
    + exfalso. apply Hox.
      apply (sources_set_view (pOrderedSubstList s)); [exact Hview|].
      apply parsed_table_sources. exact Hp.
  - rewrite mapped_letters_app, launches_app, Hm0, Hl0, Hl12.
    split; [exact Hprefix12|]. intros Hne. exfalso. apply Hne. reflexivity.
  - rewrite mapped_letters_app, launches_app, Hm0, Hl0, Hl12.
    split; [exact Hprefix12|]. intros Hne. exfalso. apply Hne. reflexivity.
  - rewrite mapped_letters_app, launches_app, Hm0, Hl0, Hl12.
    split; [exact Hprefix12|]. intros Hne. exfalso. apply Hne. reflexivity.
Qed.

Lemma SubstDrivesAndExecute_phases env fuel argv pSubstList executableToRunIndex s :
  parsed_table (pOrderedSubstList s) ->
  (pSubstList = [] -> pOrderedSubstList s = ∅) ->
  wp (SubstDrivesAndExecute env fuel argv pSubstList executableToRunIndex) s
    (fun o s' e =>
       remove_dups (mapped_letters e)
         `prefix_of` (szDriveLetter <$> nodes_at (pOrderedSubstList s') slot_indices) /\
       (launches e <> [] ->
        lock_paths (pOrderedSubstList s') `prefix_of` acquired e /\
        visited (pOrderedSubstList s') e /\
        Forall valid_lock (nodes_at (pOrderedSubstList s') slot_indices) /\
        cleaned_up (pOrderedSubstList s') e)).
Proof.
  intros Hp Hnull. unfold SubstDrivesAndExecute. apply wp_call, wp_bind.
  unfold assert. destruct (negb (is_null pSubstList)).
  - apply wp_ret. unfold then_.
    eapply wp_mono;
      [apply (SubstDrivesAndExecute_body_phases env fuel argv pSubstList
                executableToRunIndex s [] Hp Hnull eq_refl eq_refl eq_refl)|].
    cbv beta. intros o s' e H. destruct o; exact H.
  - apply wp_bind, wp_emit. unfold then_ at 1.
    destruct (ndebug env) eqn:Hdebug.
    + apply wp_ret. unfold then_.
      eapply wp_mono;
        [apply (SubstDrivesAndExecute_body_phases env fuel argv pSubstList
                  executableToRunIndex s [EvAssert "pSubstList != nullptr"]
                  Hp Hnull eq_refl eq_refl eq_refl)|].
      cbv beta. intros o s' e H. rewrite app_nil_r. destruct o; exact H.
    + apply wp_abort.
      split; [apply prefix_nil|]. intros Hne. exfalso. apply Hne. reflexivity.
Qed.

(** Events in front that start no child, bind no letter and open no
    lock. *)
Lemma cleaned_up_prepend (t : gmap nat SUBST_NODE) e0 es :
  launches e0 = [] -> cleaned_up t es -> cleaned_up t (e0 ++ es).
Proof.
  intros Hl0 (pre & ec & -> & Hlaunch & Hrest).
  exists (e0 ++ pre), ec. split; [rewrite app_assoc; reflexivity|].
  split; [|exact Hrest].
  rewrite !launches_app, Hl0 in *. exact Hlaunch.
Qed.

(** The whole program. *)
Lemma run_main_phases env fuel argv :
  wp (_tmain env fuel argv) InitializeState (fun o s' e =>
    remove_dups (mapped_letters e)
      `prefix_of` (szDriveLetter <$> nodes_at (pOrderedSubstList s') slot_indices) /\
    (launches e <> [] ->
     lock_paths (pOrderedSubstList s') `prefix_of` acquired e /\
     visited (pOrderedSubstList s') e /\
     Forall valid_lock (nodes_at (pOrderedSubstList s') slot_indices) /\
     cleaned_up (pOrderedSubstList s') e)).
Proof.
  unfold _tmain. apply wp_call, wp_bind.
  eapply wp_mono; [apply ParseSubstSourcesAndTargets_spec|].
  cbv beta. intros o s1 e0 (Hev0 & Hp & Hnull).
  pose proof (parse_events_no_launch e0 Hev0) as Hl0.
  pose proof (parse_events_no_map e0 Hev0) as Hm0.
  pose proof (parse_events_no_lock e0 Hev0) as Ha0.
  destruct o as [r| | |]; unfold then_; try contradiction.
  - destruct (shouldExit r).
    + apply wp_return. rewrite app_nil_r, Hm0, Hl0.
      split; [apply prefix_nil|]. intros Hne. exfalso. apply Hne. reflexivity.
    + apply wp_bind.
      eapply wp_mono; [apply (SubstDrivesAndExecute_phases env fuel argv _ _ s1 Hp Hnull)|].
      cbv beta. intros o s2 e1 (Hprefix & Hlaunched).
      assert (Hrun : remove_dups (mapped_letters (e0 ++ e1))
                       `prefix_of` (szDriveLetter
                                      <$> nodes_at (pOrderedSubstList s2) slot_indices) /\
                     (launches (e0 ++ e1) <> [] ->
                      lock_paths (pOrderedSubstList s2) `prefix_of` acquired (e0 ++ e1) /\
                      visited (pOrderedSubstList s2) (e0 ++ e1) /\
                      Forall valid_lock (nodes_at (pOrderedSubstList s2) slot_indices) /\
                      cleaned_up (pOrderedSubstList s2) (e0 ++ e1))).
      { unfold visited in *.
        rewrite mapped_letters_app, launches_app, acquired_app, Hm0, Hl0, Ha0, !app_nil_l.
        split; [exact Hprefix|]. intros Hne.
        destruct (Hlaunched Hne) as (Hlocks & Hvisited & Hvalid & Hclean).
        split; [exact Hlocks|]. split; [exact Hvisited|]. split; [exact Hvalid|].
        apply cleaned_up_prepend; assumption. }
      destruct o as [c| | |]; unfold then_.
      * apply wp_return. rewrite app_nil_r. exact Hrun.
      * exact Hrun.
      * exact Hrun.
      * exact Hrun.
  - rewrite Hm0, Hl0.
    split; [apply prefix_nil|]. intros Hne. exfalso. apply Hne. reflexivity.
Qed.

(** C1: in every run of the program, whatever the command line and
    whatever the machine does, the letters of the slots ascend with the
    cells of the table; the lock files opened with success before the
    first subst command begin with the source locks of all slots in this
    order, so that no letter is bound before every source lock is held;
    the locks acquired never leave this order; the letters that the subst
    commands bind ascend (a letter repeats when its mapping is retried),
    and with the repetitions taken out they are the letters of the slots,
    in order and without a gap, up to the slot where the run stops.  A
    run that gets as far as the child process has acquired the source
    lock of every slot and has bound the letter of every slot. *)
Theorem locks_before_mappings_in_letter_order env fuel argv :
  let r := run_main env fuel argv in
  let t := pOrderedSubstList (state_of r) in
  StronglySorted Z.lt (szDriveLetter <$> slots t) /\
  (forall pre cmd reply post,
     events_of r = pre ++ EvSubst cmd reply :: post ->
     lock_paths t `prefix_of` acquired pre) /\
  (acquired (events_of r) `prefix_of` lock_paths t \/
   lock_paths t `prefix_of` acquired (events_of r)) /\
  StronglySorted Z.le (mapped_letters (events_of r)) /\
  remove_dups (mapped_letters (events_of r)) `prefix_of` (szDriveLetter <$> slots t) /\
  (launches (events_of r) <> [] ->
   lock_paths t `prefix_of` acquired (events_of r) /\
   remove_dups (mapped_letters (events_of r)) = szDriveLetter <$> slots t).
Proof.
  intros r t. destruct (run_main_spec env fuel argv) as (Hp & Hord & _).
  destruct (run_main_phases env fuel argv) as (Hprefix & Hlaunched).
  fold (run_main env fuel argv) in Hp, Hord, Hprefix, Hlaunched.
  fold r in Hp, Hord, Hprefix, Hlaunched. fold t in Hp, Hord, Hprefix, Hlaunched.
  split; [apply (parsed_letters_ascend t NUMBER_DEFINABLE_SUBST 0 Hp)|].
  destruct Hord as (Hbefore & Horder & Hsorted).
  split; [exact Hbefore|]. split; [exact Horder|]. split; [exact Hsorted|].
  split; [exact Hprefix|]. intros Hne.
  destruct (Hlaunched Hne) as (Hlocks & Hvisited & _).
  split; [exact Hlocks|exact Hvisited].
Qed.

(** A run with two letters, the first of them bound to a foreign directory
    at the start: both source locks come first, X is bound twice, then Y,
    and the child is started. *)
Lemma locks_before_mappings_witness :
  let r := run_main machine_two_letters 2 argv_X_Y in
  launches (events_of r) <> [] /\
  [W "c:\a\.SubstLock"; W "c:\b\.SubstLock"] `prefix_of` acquired (events_of r) /\
  mapped_letters (events_of r) = [88; 88; 89]%Z /\
  remove_dups (mapped_letters (events_of r)) = [88; 89]%Z.
Proof.
  intros r.
  assert (Hne : launches (events_of r) <> []) by (vm_compute; discriminate).
  split; [exact Hne|].
  destruct (locks_before_mappings_in_letter_order machine_two_letters 2 argv_X_Y)
    as (_ & _ & _ & _ & _ & Hlaunched).
  destruct (Hlaunched Hne) as [Hlocks Hvisited].
  split; [exact Hlocks|]. split; [vm_compute; reflexivity|].
  unfold r. rewrite Hvisited. vm_compute. reflexivity.
Defined.

(** * The lock handles at clean-up (C5) *)


